(** * plasmatorch: complex activations, zeta kernels and their error paths

    A shallow embedding of [math.py], [zeta.py], [attention.py], [lens.py]
    and [knowledge/aggregator.py].

    - Tensors are a shape together with the row-major list of their
      elements; the dtype is the constructor of [Tensor].
    - The scalar primitives of the host numeric library (exp, cos, pow,
      comparisons, ...) are the fields of the class [HostNum]; every
      definition of the kernels is written once, over any interpretation of
      these primitives.  The instance [RNum] interprets them in exact real
      arithmetic.
    - Fallible operations return [exc]; loops that the source writes with
      [while] take fuel.
    - In-place operations and views are modelled over a store of tensor
      storages in the second half of the definitions. *)

From stdpp Require Import base list strings.
From Stdlib Require Import ZArith Reals Lra Lia.

Set Default Proof Using "Type".

(* ================================================================= *)
(** ** Errors and the result monad *)

(** The exceptions the modelled code can raise.  [ShapeAssertion] is an
    [assert] on tensor sizes written in the library; [ShapeMismatch] is the
    host library refusing to broadcast or stack operands. *)
Inductive error :=
| ShapeAssertion
| NonConvergence
| ShapeMismatch
| DimOutOfRange
| ZeroDimIndex
| UnexpectedKeyword (kw : string)
| TypeAssertion
| ZeroDivision
| NegativeDimension
| IndexOutOfBounds
| ArgumentBinding
| EmptyReduction.

Inductive exc (A : Type) :=
| Ok (a : A)
| Err (e : error).
Arguments Ok {A} a.
Arguments Err {A} e.

#[global] Instance exc_ret : MRet exc := fun A a => Ok a.
#[global] Instance exc_bind : MBind exc :=
  fun A B f m => match m with Ok a => f a | Err e => Err e end.
#[global] Instance exc_fmap : FMap exc :=
  fun A B f m => match m with Ok a => Ok (f a) | Err e => Err e end.

Definition is_ok {A} (r : exc A) : bool :=
  match r with Ok _ => true | Err _ => false end.

(** The two kinds of failure the specification allows, read generously:
    a broadcast mismatch reported by the host library counts as a shape
    failure too. *)
Definition spec_allowed (e : error) : bool :=
  match e with
  | ShapeAssertion | ShapeMismatch | NonConvergence => true
  | _ => false
  end.

(* ================================================================= *)
(** ** Scalars of the host numeric library *)

Class HostNum (F : Type) := {
  fzero : F;
  fone : F;
  (** the literals of [pi()] and [emconst()] *)
  fpi : F;
  fem : F;
  of_Z : Z → F;
  fadd : F → F → F;
  fsub : F → F → F;
  fmul : F → F → F;
  fdiv : F → F → F;
  fneg : F → F;
  fabs : F → F;
  fsqrt : F → F;
  fexp : F → F;
  flog : F → F;
  fcos : F → F;
  fsin : F → F;
  fsigmoid : F → F;
  fround : F → F;
  fpow : F → F → F;
  fhypot : F → F → F;
  fatan2 : F → F → F;
  fgeb : F → F → bool;
  fltb : F → F → bool;
  (** complex power, the one complex primitive that is not a formula over
      the real ones *)
  cpow : F * F → F * F → F * F
}.

Section Complex.
Context {F : Type} `{HostNum F}.

(** A complex scalar is its pair of real and imaginary part
    ([view_as_real]). *)
Abbreviation cplx := (F * F)%type.

Definition of_real (r : F) : cplx := (r, fzero).
Definition creal (z : cplx) : F := z.1.
Definition cimag (z : cplx) : F := z.2.
Definition cabs (z : cplx) : F := fhypot z.1 z.2.
Definition cangle (z : cplx) : F := fatan2 z.2 z.1.
Definition cneg (z : cplx) : cplx := (fneg z.1, fneg z.2).
Definition cadd (z w : cplx) : cplx := (fadd z.1 w.1, fadd z.2 w.2).
Definition csub (z w : cplx) : cplx := (fsub z.1 w.1, fsub z.2 w.2).
Definition cmul (z w : cplx) : cplx :=
  (fsub (fmul z.1 w.1) (fmul z.2 w.2), fadd (fmul z.1 w.2) (fmul z.2 w.1)).
Definition cdiv (z w : cplx) : cplx :=
  let d := fadd (fmul w.1 w.1) (fmul w.2 w.2) in
  (fdiv (fadd (fmul z.1 w.1) (fmul z.2 w.2)) d,
   fdiv (fsub (fmul z.2 w.1) (fmul z.1 w.2)) d).
Definition cexp (z : cplx) : cplx :=
  (fmul (fexp z.1) (fcos z.2), fmul (fexp z.1) (fsin z.2)).

(** [.type(t.uint8)] and [.type(t.int64)] of a boolean. *)
Definition of_bool (b : bool) : Z := if b then 1%Z else 0%Z.
End Complex.

(* ================================================================= *)
(** ** Tensors *)

Record tensor (A : Type) := mkT { shape : list nat; data : list A }.
Arguments mkT {A} shape data.
Arguments shape {A} t.
Arguments data {A} t.

Definition numel (sh : list nat) : nat := foldr Nat.mul 1 sh.

(** A tensor holds as many elements as its shape says. *)
Definition wf {A} (t : tensor A) : Prop := length (data t) = numel (shape t).

Definition tmap {A B} (f : A → B) (t : tensor A) : tensor B :=
  mkT (shape t) (f <$> data t).

Definition scalar {A} (a : A) : tensor A := mkT [] [a].
Definition full {A} (sh : list nat) (a : A) : tensor A :=
  mkT sh (replicate (numel sh) a).

(** *** Broadcasting *)

Definition bdim (x y : nat) : option nat :=
  if x =? y then Some x
  else if x =? 1 then Some y
  else if y =? 1 then Some x
  else None.

(** Shapes are aligned on their last dimension: this runs on the reversed
    lists. *)
Fixpoint bshape_rev (a b : list nat) : option (list nat) :=
  match a, b with
  | [], _ => Some b
  | _, [] => Some a
  | x :: a', y :: b' =>
      match bdim x y, bshape_rev a' b' with
      | Some d, Some r => Some (d :: r)
      | _, _ => None
      end
  end.

Definition broadcast_shapes (a b : list nat) : option (list nat) :=
  reverse <$> bshape_rev (reverse a) (reverse b).

(** A shape broadcast against the shape [[1]] of the constants [pi()] and
    [i()]: only a 0-dim tensor changes shape. *)
Definition lift1 (sh : list nat) : list nat :=
  match sh with [] => [1] | _ => sh end.

Definition sh_of (sh : list nat) (lifted : bool) : list nat :=
  if lifted then lift1 sh else sh.

(** The shapes that meet when tensors of shape [sh] are combined with
    0-dim and one-element tensors. *)
Definition fits (sh x : list nat) : Prop :=
  x = sh ∨ x = lift1 sh ∨ x = [] ∨ x = [1].

(** A dimension that broadcasts to another. *)
Definition stretches (n m : nat) : Prop := n = m ∨ n = 1.

(** [chunks k n d]: the first [n] consecutive blocks of [k] elements. *)
Fixpoint chunks {A} (k n : nat) (d : list A) : list (list A) :=
  match n with
  | O => []
  | S n' => take k d :: chunks k n' (drop k d)
  end.

(** [expand sh bs d]: the elements [d] of a tensor of shape [sh], repeated
    along every dimension where [sh] has 1 and [bs] does not. *)
Fixpoint expand {A} (sh bs : list nat) (d : list A) : list A :=
  match sh, bs with
  | n :: sh', m :: bs' =>
      if n =? m then concat (expand sh' bs' <$> chunks (numel sh') n d)
      else concat (replicate m (expand sh' bs' d))
  | _, _ => d
  end.

Definition expand_to {A} (bs : list nat) (t : tensor A) : list A :=
  expand (replicate (length bs - length (shape t)) 1 ++ shape t) bs (data t).

(** An elementwise binary operation of the host library. *)
Definition tzip {A B C} (f : A → B → C) (a : tensor A) (b : tensor B)
  : exc (tensor C) :=
  match broadcast_shapes (shape a) (shape b) with
  | Some bs => Ok (mkT bs (zip_with f (expand_to bs a) (expand_to bs b)))
  | None => Err ShapeMismatch
  end.

(** [t.stack((a, b), dim=-1)] followed by [t.view_as_complex]: stacking
    does not broadcast. *)
Definition view_as_complex {A} (a b : tensor A) : exc (tensor (A * A)) :=
  if decide (shape a = shape b)
  then Ok (mkT (shape a) (zip_with pair (data a) (data b)))
  else Err ShapeMismatch.

(** *** Dimensions *)

(** A [dim] argument counts from the end when negative; a 0-dim tensor
    accepts [-1] and [0]. *)
Definition norm_dim (ndim : nat) (dim : Z) : exc nat :=
  let n := Z.of_nat (Nat.max ndim 1) in
  if ((- n <=? dim) && (dim <? n))%Z
  then Ok (Z.to_nat (if (dim <? 0)%Z then dim + n else dim)%Z)
  else Err DimOutOfRange.

(** The flat positions of the elements that share every index with
    position [i] except the one along dimension [d]. *)
Definition fiber (sh : list nat) (d : nat) (i : nat) : list nat :=
  let stride := numel (drop (S d) sh) in
  let n := nth d sh 1 in
  let k := (i / stride) mod n in
  (λ j, i - k * stride + j * stride) <$> seq 0 n.

(* ================================================================= *)
(** ** math.py *)

Section Math.
Context {F : Type} `{HostNum F}.

(** A tensor the library receives is real or complex; [is_complex]
    reads the constructor. *)
Inductive Tensor :=
| TReal (t : tensor F)
| TCplx (t : tensor (F * F)).

Definition is_complex (x : Tensor) : bool :=
  match x with TCplx _ => true | TReal _ => false end.

Definition size (x : Tensor) : list nat :=
  match x with TReal r => shape r | TCplx c => shape c end.

Definition wfT (x : Tensor) : Prop :=
  match x with TReal r => wf r | TCplx c => wf c end.

Definition czero : F * F := (fzero, fzero).

(** *** Host operations on real tensors *)

Definition fsum (l : list F) : F := foldl fadd fzero l.

(** [t.softmax(x, dim)]: each element's exponential over the sum of the
    exponentials along [dim]. *)
Definition t_softmax (x : tensor F) (dim : Z) : exc (tensor F) :=
  d ← norm_dim (length (shape x)) dim;
  mret (mkT (shape x)
          (imap (λ i xi,
               fdiv (fexp xi)
                 (fsum ((λ j, fexp (nth j (data x) fzero))
                          <$> fiber (shape x) d i)))
             (data x))).

Definition t_sigmoid (x : tensor F) : tensor F := tmap fsigmoid x.
Definition t_cos (x : tensor F) : tensor F := tmap fcos x.
Definition t_sin (x : tensor F) : tensor F := tmap fsin x.

(** *** Constants *)

(** [(t.ones((1)) * 3.14159...).detach()] *)
Definition pi : tensor F := mkT [1] [fmul fone fpi].

Definition emconst : tensor F := mkT [1] [fmul fone fem].

Definition phi : tensor F :=
  let one := fone in
  let square := fsqrt (fmul one (of_Z 5)) in
  mkT [1] [fdiv (fadd one square) (of_Z 2)].

Definition asigphi : tensor F :=
  tmap (λ p, fneg (flog (fsub p (of_Z 1)))) phi.

(** [t.view_as_complex(t.stack((t.zeros(1), t.ones(1)), dim=-1))] *)
Definition i : tensor (F * F) := mkT [1] [(fzero, fone)].

(** *** isoftmax *)

Definition isoftmax (x : Tensor) (dim : Z) : exc Tensor :=
  match x with
  | TReal r =>
      (* Normal softmax *)
      TReal <$> t_softmax r dim
  | TCplx c =>
      (* Imaginary softmax *)
      let angle := tmap cangle c in
      let magnitude := tmap cabs c in
      softMagnitude ← t_softmax magnitude dim;
      (* Convert back to imaginary *)
      newReal ← tzip fmul softMagnitude (t_cos angle);
      newImag ← tzip fmul softMagnitude (t_sin angle);
      (* Return in proper datatype *)
      TCplx <$> view_as_complex newReal newImag
  end.

(** *** isigmoid *)

(** The complex branch of [isigmoid], statement by statement.  A [uint8]
    mask multiplying a float tensor is converted by [of_Z]; a real tensor
    meeting a complex one is converted by [of_real]. *)
Definition isigmoid_complex (x : tensor (F * F)) : exc (tensor (F * F)) :=
  let PI2 := tmap (λ p, fdiv p (of_Z 2)) pi in
  let ang := tmap cangle x in
  let xabs := tmap cabs x in
  let x_real := tmap creal x in
  let x_imag := tmap cimag x in
  let ge0 := tmap (λ r, fgeb r (of_Z 0)) in
  let lt0 := tmap (λ r, fltb r (of_Z 0)) in
  let mulIF := tzip (λ (q : Z) (v : F), fmul (of_Z q) v) in
  let mul2 := tmap (λ v, fmul v (of_Z 2)) in
  posQuad ← tmap of_bool <$> tzip andb (ge0 x_real) (ge0 x_imag);
  negQuad ← tmap of_bool <$> tzip andb (lt0 x_real) (lt0 x_imag);
  examineQuadRight ← tzip andb (ge0 x_real) (lt0 x_imag);
  examineQuadLeft ← tzip andb (ge0 x_imag) (lt0 x_real);
  examineQuad ← tmap of_bool <$> tzip andb examineQuadLeft examineQuadRight;
  (* positive and negative quadrants *)
  posArg ← mulIF posQuad xabs;
  posVal ← mulIF posQuad (t_sigmoid posArg);
  negArg ← mulIF negQuad (tmap fneg xabs);
  negVal ← mulIF negQuad (t_sigmoid negArg);
  (* the "examine" quadrants *)
  angLo ← tzip fsub ang PI2;
  rotLeft ← mul2 <$> mulIF (tmap of_bool examineQuadLeft) angLo;
  angHi ← tzip fadd ang PI2;
  rotRight ← mul2 <$> mulIF (tmap of_bool examineQuadRight) angHi;
  rotScalar ← t_cos <$> tzip fadd rotLeft rotRight;
  examRot ← mulIF examineQuad rotScalar;
  examArg ← tzip fmul examRot xabs;
  examVal ← mulIF examineQuad (t_sigmoid examArg);
  (* add everything together *)
  posNeg ← tzip fadd posVal negVal;
  finalSigmoidMag ← tzip fadd posNeg examVal;
  (* the complex value alignment *)
  xabs_e ← view_as_complex (tmap fabs x_real) (tmap fabs x_imag);
  sigmoidComplexVal ← tzip (λ z r, cdiv z (of_real r)) xabs_e xabs;
  (* calculate and return *)
  tzip (λ m z, cmul (of_real m) z) finalSigmoidMag sigmoidComplexVal.

Definition isigmoid (x : Tensor) : exc Tensor :=
  match x with
  | TReal r => Ok (TReal (t_sigmoid r))
  | TCplx c => TCplx <$> isigmoid_complex c
  end.

(** *** icos, isin *)

Definition icos (x : Tensor) : exc Tensor :=
  match x with
  | TReal r => Ok (TReal (t_cos r))
  | TCplx c =>
      let i2 := tmap (λ z, cmul z (of_real (of_Z 2))) i in
      arg ← tzip (λ z θ, cmul z (of_real θ)) i2 (tmap cangle c);
      TCplx <$> tzip (λ m z, cmul (of_real m) z)
                  (t_cos (tmap cabs c)) (tmap cexp arg)
  end.

Definition isin (x : Tensor) : exc Tensor :=
  match x with
  | TReal r => Ok (TReal (t_sin r))
  | TCplx c =>
      arg ← tzip (λ z θ, cmul z (of_real θ)) i (tmap cangle c);
      TCplx <$> tzip (λ m z, cmul (of_real m) z)
                  (t_sin (tmap cabs c)) (tmap cexp arg)
  end.

(** *** Dtype-promoting arithmetic, as [zeta.py] uses it *)

Definition as_cplx (x : Tensor) : tensor (F * F) :=
  match x with TReal r => tmap of_real r | TCplx c => c end.

Definition binop (fr : F → F → F) (fc : F * F → F * F → F * F)
    (x y : Tensor) : exc Tensor :=
  match x, y with
  | TReal a, TReal b => TReal <$> tzip fr a b
  | _, _ => TCplx <$> tzip fc (as_cplx x) (as_cplx y)
  end.

Definition t_add : Tensor → Tensor → exc Tensor := binop fadd cadd.
Definition t_mul : Tensor → Tensor → exc Tensor := binop fmul cmul.
Definition t_div : Tensor → Tensor → exc Tensor := binop fdiv cdiv.
Definition t_pow : Tensor → Tensor → exc Tensor := binop fpow cpow.

Definition t_neg (x : Tensor) : Tensor :=
  match x with TReal r => TReal (tmap fneg r) | TCplx c => TCplx (tmap cneg c) end.

Definition t_exp (x : Tensor) : Tensor :=
  match x with TReal r => TReal (tmap fexp r) | TCplx c => TCplx (tmap cexp c) end.

(** [x.abs()] is real for either dtype. *)
Definition t_abs (x : Tensor) : tensor F :=
  match x with TReal r => tmap fabs r | TCplx c => tmap cabs c end.

Definition t_ones_like (x : Tensor) : Tensor :=
  match x with
  | TReal r => TReal (tmap (λ _, fone) r)
  | TCplx c => TCplx (tmap (λ _, (fone, fzero)) c)
  end.

(** [n + a] for a Python integer [n]. *)
Definition t_addZ (n : Z) (a : Tensor) : Tensor :=
  match a with
  | TReal r => TReal (tmap (fadd (of_Z n)) r)
  | TCplx c => TCplx (tmap (cadd (of_real (of_Z n))) c)
  end.

(** [x * k] and [k * x] for an [int64] tensor [k]. *)
Definition t_mul_mask (x : Tensor) (k : tensor Z) : exc Tensor :=
  match x with
  | TReal r => TReal <$> tzip (λ v q, fmul v (of_Z q)) r k
  | TCplx c => TCplx <$> tzip (λ z q, cmul z (of_real (of_Z q))) c k
  end.

Definition t_mask_mul (k : tensor Z) (x : Tensor) : exc Tensor :=
  match x with
  | TReal r => TReal <$> tzip (λ q v, fmul (of_Z q) v) k r
  | TCplx c => TCplx <$> tzip (λ q z, cmul (of_real (of_Z q)) z) k c
  end.

(** [(x.abs() >= y.abs()).type(t.int64)] *)
Definition ge_mask (x y : Tensor) : exc (tensor Z) :=
  tmap of_bool <$> tzip fgeb (t_abs x) (t_abs y).

(** [torch.all(k)] *)
Definition t_all (k : tensor Z) : bool :=
  forallb (λ q, negb (q =? 0)%Z) (data k).

(** *** The kernels on one element

    What the complex branches compute at one position, read off the
    tensor code above; the properties section proves that the tensor
    functions are these, applied to every element. *)

(** The element of a tensor at a flat (row-major) position. *)
Inductive scalarv :=
| SReal (r : F)
| SCplx (z : F * F).

Definition elem_at (x : Tensor) (k : nat) : option scalarv :=
  match x with
  | TReal r => SReal <$> data r !! k
  | TCplx c => SCplx <$> data c !! k
  end.

Definition examineQuad_elem (z : F * F) : Z :=
  let examineQuadRight := fgeb z.1 (of_Z 0) && fltb z.2 (of_Z 0) in
  let examineQuadLeft := fgeb z.2 (of_Z 0) && fltb z.1 (of_Z 0) in
  of_bool (examineQuadLeft && examineQuadRight).

Definition isigmoid_elem (z : F * F) : F * F :=
  let PI2 := fdiv (fmul fone fpi) (of_Z 2) in
  let ang := cangle z in
  let xabs := cabs z in
  let re_ge := fgeb z.1 (of_Z 0) in
  let im_ge := fgeb z.2 (of_Z 0) in
  let re_lt := fltb z.1 (of_Z 0) in
  let im_lt := fltb z.2 (of_Z 0) in
  let posQuad := of_bool (re_ge && im_ge) in
  let negQuad := of_bool (re_lt && im_lt) in
  let examineQuadRight := re_ge && im_lt in
  let examineQuadLeft := im_ge && re_lt in
  let examineQuad := examineQuad_elem z in
  let posVal :=
    fmul (of_Z posQuad) (fsigmoid (fmul (of_Z posQuad) xabs)) in
  let negVal :=
    fmul (of_Z negQuad) (fsigmoid (fmul (of_Z negQuad) (fneg xabs))) in
  let rotScalar :=
    fcos (fadd
            (fmul (fmul (of_Z (of_bool examineQuadLeft)) (fsub ang PI2))
               (of_Z 2))
            (fmul (fmul (of_Z (of_bool examineQuadRight)) (fadd ang PI2))
               (of_Z 2))) in
  let examVal :=
    fmul (of_Z examineQuad)
      (fsigmoid (fmul (fmul (of_Z examineQuad) rotScalar) xabs)) in
  let finalSigmoidMag := fadd (fadd posVal negVal) examVal in
  let sigmoidComplexVal := cdiv (fabs z.1, fabs z.2) (of_real xabs) in
  cmul (of_real finalSigmoidMag) sigmoidComplexVal.

Definition icos_elem (z : F * F) : F * F :=
  let i2 := cmul (fzero, fone) (of_real (of_Z 2)) in
  cmul (of_real (fcos (cabs z))) (cexp (cmul i2 (of_real (cangle z)))).

Definition isin_elem (z : F * F) : F * F :=
  cmul (of_real (fsin (cabs z)))
    (cexp (cmul (fzero, fone) (of_real (cangle z)))).
End Math.

Arguments Tensor F : clear implicits.
Arguments TReal {F} t.
Arguments TCplx {F} t.
Arguments scalarv F : clear implicits.
Arguments SReal {F} r.
Arguments SCplx {F} z.

(* ================================================================= *)
(** ** Loops *)

(** A [while] loop: [None] when the fuel runs out before the condition
    turns false, otherwise the final state (or the exception of the body)
    with the number of times the body ran added to [iters]. *)
Fixpoint while_loop {St : Type} (fuel : nat) (cond : St → bool)
    (body : St → exc St) (st : St) (iters : nat) : option (exc (St * nat)) :=
  if cond st then
    match fuel with
    | O => None
    | S fuel' =>
        match body st with
        | Ok st' => while_loop fuel' cond body st' (S iters)
        | Err e => Some (Err e)
        end
    end
  else Some (Ok (st, iters)).

(** [for x in xs: st = body(x, st)] *)
Fixpoint for_each {X St : Type} (xs : list X) (body : X → St → exc St)
    (st : St) : exc St :=
  match xs with
  | [] => Ok st
  | x :: xs' => st' ← body x st; for_each xs' body st'
  end.

(** The state after the body ran [n] times in a row. *)
Fixpoint iter_body {St : Type} (n : nat) (body : St → exc St) (st : St)
  : exc St :=
  match n with
  | O => Ok st
  | S n' => st' ← body st; iter_body n' body st'
  end.

(** [range(lo, hi)] *)
Definition range (lo hi : Z) : list Z :=
  (λ k, lo + Z.of_nat k)%Z <$> seq 0 (Z.to_nat (hi - lo)).

(* ================================================================= *)
(** ** zeta.py *)

Section Zeta.
Context {F : Type} `{HostNum F}.

(** [t.pow(n + a, -s)] *)
Definition __hzetaitr (s a : Tensor F) (n : Z) : exc (Tensor F) :=
  t_pow (t_addZ n a) (t_neg s).

(** The variables the convergence loops carry. *)
Record zstate := mkZ {
  z_delta : Tensor F;
  z_result : Tensor F;
  z_keepGoing : tensor Z;
  z_idx : Z
}.

(** [torch.all(keepGoing) and idx < maxiter] *)
Definition zeta_cond (maxiter : Z) (st : zstate) : bool :=
  t_all (z_keepGoing st) && (z_idx st <? maxiter)%Z.

(** [(keepGoing * (delta + (epsig * result))) + ((1 - keepGoing) * result)] *)
Definition blend (keepGoing : tensor Z) (delta epsig result : Tensor F)
  : exc (Tensor F) :=
  er ← t_mul epsig result;
  upd ← t_add delta er;
  kept ← t_mask_mul keepGoing upd;
  frozen ← t_mask_mul (tmap (λ q, 1 - q)%Z keepGoing) result;
  t_add kept frozen.

Definition hzetae_body (s a epsig aeps : Tensor F) (st : zstate)
  : exc zstate :=
  let keepGoing := z_keepGoing st in
  let idx := z_idx st in
  sk ← t_mul_mask s keepGoing;
  delta ← __hzetaitr sk a idx;
  result ← blend keepGoing delta epsig (z_result st);
  keepGoing' ← ge_mask result aeps;
  mret (mkZ delta result keepGoing' (idx + 1)).

Definition hzetae_init (s a res aeps : Tensor F) : exc (Tensor F * zstate) :=
  epsig ← isigmoid res;
  let idx := 1%Z in
  delta ← __hzetaitr s a 0;
  result ← t_mul (t_ones_like delta) delta;
  keepGoing ← ge_mask result aeps;
  mret (epsig, mkZ delta result keepGoing idx).

(** [hzetae]; the run also reports how many times the loop body ran. *)
Definition hzetae_run (fuel : nat) (s a res aeps : Tensor F) (maxiter : Z)
  : option (exc (Tensor F * nat)) :=
  match hzetae_init s a res aeps with
  | Err e => Some (Err e)
  | Ok (epsig, st0) =>
      fmap (M := exc) (λ '(st, n), (z_result st, n))
        <$> while_loop fuel (zeta_cond maxiter)
              (hzetae_body s a epsig aeps) st0 0
  end.

Definition hzetae (fuel : nat) (s a res aeps : Tensor F) (maxiter : Z)
  : option (exc (Tensor F)) :=
  fmap (M := exc) fst <$> hzetae_run fuel s a res aeps maxiter.

(** *** Lerch transcendent *)

Definition __lerchitr (lam s a : Tensor F) (n : Z) : exc (Tensor F) :=
  (* Modify the hzeta itr with the provided exponent *)
  let pi2n := tmap (λ v, fmul v (of_Z n)) (tmap (fmul (of_Z 2)) pi) in
  hzetaexp ← t_mul (TReal pi2n) lam;
  (* the top of the itr must still be one for convergence *)
  hzetaexp ←
    (if is_complex lam
     then unit ← t_div lam (TReal (t_abs lam));
          t_mul (TReal (t_abs hzetaexp)) unit
     else Ok hzetaexp);
  (* Multiply the numerator of the hzeta itr *)
  rot ← t_mul hzetaexp (TCplx i);
  itr ← __hzetaitr s a n;
  t_mul (t_exp rot) itr.

Definition lerche_body (lam s a epsig aeps : Tensor F) (st : zstate)
  : exc zstate :=
  let keepGoing := z_keepGoing st in
  let idx := z_idx st in
  lk ← t_mul_mask lam keepGoing;
  sk ← t_mul_mask s keepGoing;
  delta ← __lerchitr lk sk a idx;
  result ← blend keepGoing delta epsig (z_result st);
  keepGoing' ← ge_mask result aeps;
  mret (mkZ delta result keepGoing' (idx + 1)).

Definition lerche_init (lam s a res aeps : Tensor F)
  : exc (Tensor F * zstate) :=
  epsig ← isigmoid res;
  let idx := 1%Z in
  delta ← __lerchitr lam s a 0;
  result ← t_mul (t_ones_like delta) delta;
  keepGoing ← ge_mask result aeps;
  mret (epsig, mkZ delta result keepGoing idx).

Definition lerche_run (fuel : nat) (lam s a res aeps : Tensor F)
    (maxiter : Z) : option (exc (Tensor F * nat)) :=
  match lerche_init lam s a res aeps with
  | Err e => Some (Err e)
  | Ok (epsig, st0) =>
      fmap (M := exc) (λ '(st, n), (z_result st, n))
        <$> while_loop fuel (zeta_cond maxiter)
              (lerche_body lam s a epsig aeps) st0 0
  end.

Definition lerche (fuel : nat) (lam s a res aeps : Tensor F) (maxiter : Z)
  : option (exc (Tensor F)) :=
  fmap (M := exc) fst <$> lerche_run fuel lam s a res aeps maxiter.

(** *** The shape of a finished convergence loop *)

(** Every element of the mask is 1: every element is still updated. *)
Definition all_ones (k : tensor Z) : Prop :=
  data k = replicate (length (data k)) 1%Z.

(** The loop returned [r] after [n] iterations from [st0]: all elements
    went through the same [n] runs of the body; before each run the mask
    was all ones, and at the end either some element fell below [aeps] or
    [maxiter] is reached. *)
Definition global_stop (aeps : Tensor F) (maxiter : Z)
    (body : zstate → exc zstate) (st0 : zstate) (r : Tensor F) (n : nat)
  : Prop :=
  ∃ stn,
    iter_body n body st0 = Ok stn
    ∧ r = z_result stn
    ∧ z_idx stn = (1 + Z.of_nat n)%Z
    ∧ ge_mask r aeps = Ok (z_keepGoing stn)
    ∧ (t_all (z_keepGoing stn) = false ∨ (maxiter <= z_idx stn)%Z)
    ∧ ∀ j, j < n →
        ∃ stj, iter_body j body st0 = Ok stj
               ∧ ge_mask (z_result stj) aeps = Ok (z_keepGoing stj)
               ∧ all_ones (z_keepGoing stj).

(** Inputs that broadcast against each other: every one has the shape
    [sh], or is a 0-dim or one-element tensor. *)
Definition inputs_fit (xs : list (Tensor F)) : Prop :=
  ∃ sh, Forall (λ x, fits sh (size x)) xs.

Definition state_fits (sh : list nat) (st : zstate) : Prop :=
  fits sh (size (z_result st)) ∧ fits sh (shape (z_keepGoing st)).

(** *** hzetas *)

(** Modelled from the spec: [toComplex] of [conversions.py], which is not
    among the sources; [tests/conversions_test.py] fixes its behaviour: a
    real tensor gets a zero imaginary part, a complex one is returned as
    it is, the size is kept. *)
Definition toComplex (x : Tensor F) : tensor (F * F) := as_cplx x.

(** [s.unsqueeze(-1) @ t.zeros((1, samples), dtype=s.dtype)]: every
    element of [s] times a row of zeros. *)
Definition outer_zeros (s : Tensor F) (samples : nat) : Tensor F :=
  match s with
  | TReal r =>
      TReal (mkT (shape r ++ [samples])
               (data r ≫= λ v, replicate samples (fmul v fzero)))
  | TCplx c =>
      TCplx (mkT (shape c ++ [samples])
               (data c ≫= λ z, replicate samples (cmul z czero)))
  end.

(** Index assignment drops the leading dimensions of size 1 of the
    assigned value before broadcasting it into the slice. *)
Fixpoint strip_ones (sh : list nat) : list nat :=
  match sh with
  | 1 :: sh' => strip_ones sh'
  | _ => sh
  end.

(** [t[..., j]] *)
Definition get_channel (t : tensor (F * F)) (j : nat)
  : exc (tensor (F * F)) :=
  let sl := removelast (shape t) in
  let n := default 0 (last (shape t)) in
  if j <? n
  then Ok (mkT sl ((λ p, nth (p * n + j) (data t) czero)
                     <$> seq 0 (numel sl)))
  else Err IndexOutOfBounds.

(** What [t[..., j] = v] puts into a slice of shape [sl]: the value cast
    to the dtype of [t], without its leading dimensions of size 1,
    broadcast. *)
Definition slice_value (sl : list nat) (v : Tensor F) : tensor (F * F) :=
  mkT sl (expand_to sl (mkT (strip_ones (size v)) (data (as_cplx v)))).

(** The new element at flat position [k] when channel [j] of [n] is
    overwritten with [vd]. *)
Definition put_channel (n j : nat) (vd : list (F * F)) (k : nat)
    (x : F * F) : F * F :=
  if decide (k mod n = j) then nth (k / n) vd x else x.

(** [t[..., j] = v] *)
Definition set_channel (t : tensor (F * F)) (j : nat) (v : Tensor F)
  : exc (tensor (F * F)) :=
  let sl := removelast (shape t) in
  let n := default 0 (last (shape t)) in
  if j <? n then
    if decide (broadcast_shapes (strip_ones (size v)) sl = Some sl) then
      let vd := data (slice_value sl v) in
      Ok (mkT (shape t) (imap (put_channel n j vd) (data t)))
    else Err ShapeMismatch
  else Err IndexOutOfBounds.

(** *** The recurrence of the sampled zeta function *)

(** The tensors [hzetas] works on: [n] channels over the shape [sl]. *)
Definition channels (sl : list nat) (n : nat) (t : tensor (F * F)) : Prop :=
  shape t = sl ++ [n] ∧ length (data t) = numel sl * n.

(** [__hzetaitr(s, a, n) + (epsig * prev)] as a channel holds it. *)
Definition residual_step (s a epsig : Tensor F) (n : Z)
    (prev : tensor (F * F)) : exc (tensor (F * F)) :=
  itr ← __hzetaitr s a n;
  er ← t_mul epsig (TCplx prev);
  v ← t_add itr er;
  mret (slice_value (size s) v).

(** Channel 0 after [k] blank steps: [(0 + a)^(-s)], then one residual
    step for each of [n = 1 .. k]. *)
Fixpoint blank_channel (s a epsig : Tensor F) (k : nat)
  : exc (tensor (F * F)) :=
  match k with
  | O => slice_value (size s) <$> __hzetaitr s a 0
  | S k' =>
      prev ← blank_channel s a epsig k';
      residual_step s a epsig (Z.of_nat k) prev
  end.

(** The channels [1 .. m] of [result] follow the recurrence with the
    offset [b]: channel [j] is [__hzetaitr(s, a, b + 1 + j)] plus [epsig]
    times channel [j - 1]. *)
Definition recurrence_upto (s a epsig : Tensor F) (b : Z) (m : nat)
    (result : tensor (F * F)) : Prop :=
  ∀ j, 1 ≤ j ≤ m →
    ∃ prev cur,
      get_channel result (j - 1) = Ok prev
      ∧ get_channel result j = Ok cur
      ∧ residual_step s a epsig (b + 1 + Z.of_nat j) prev = Ok cur.

(** [resampleContinuous] of the library's resampling helpers is not
    among the sources; only the [fftformat] path calls it. *)
Variable resampleContinuous : Tensor F → exc (Tensor F).

(** [__hzetaitr(s, a, n) + (epsig * result[..., j])], stored in channel
    [j']. *)
Definition hzetas_store (s a epsig : Tensor F) (n : Z) (j j' : nat)
    (result : tensor (F * F)) : exc (tensor (F * F)) :=
  itr ← __hzetaitr s a n;
  prev ← get_channel result j;
  er ← t_mul epsig (TCplx prev);
  v ← t_add itr er;
  set_channel result j' v.

Definition hzetas (s a res : Tensor F) (blankSamples samples : Z)
    (fftformat : bool) : exc (Tensor F) :=
  if (samples <? 0)%Z then Err NegativeDimension else
  (* the result has the size of the input with the sample channels *)
  let result := toComplex (outer_zeros s (Z.to_nat samples)) in
  (* running parameters *)
  epsig ← isigmoid res;
  let idx := 1%Z in
  (* the first value, without any summation *)
  first ← __hzetaitr s a 0;
  result ← set_channel result 0 first;
  (* ignore the first set of steps *)
  st ← for_each (range 0 blankSamples)
         (λ _ '(result, idx),
            result ← hzetas_store s a epsig idx 0 0 result;
            mret (result, (idx + 1)%Z))
         (result, idx);
  let '(result, idx) := st in
  (* calculate each step and store *)
  result ← for_each (range 1 samples)
             (λ jdx result,
                hzetas_store s a epsig (idx + jdx)
                  (Z.to_nat (jdx - 1)) (Z.to_nat jdx) result)
             result;
  if fftformat then resampleContinuous (TCplx result)
  else Ok (TCplx result).
End Zeta.

Arguments zstate F : clear implicits.

(* ================================================================= *)
(** ** Exact real arithmetic *)

(** The interpretation of the host primitives over the real numbers.  Where
    the host returns [inf] or [nan] (a logarithm of a non-positive number, a
    division by zero, a negative base under a fractional exponent) the
    instance takes a total extension; those values are outside exact
    arithmetic and no statement below depends on them. *)
Module Exact.
Local Open Scope R_scope.

Definition Rgeb (x y : R) : bool := if Rle_dec y x then true else false.
Definition Rltb (x y : R) : bool := if Rlt_dec x y then true else false.

(** [atan2], the angle in (-PI, PI] of the point [(x, y)]. *)
Definition Ratan2 (y x : R) : R :=
  if Rlt_dec 0 x then atan (y / x)
  else if Rlt_dec x 0 then
    (if Rle_dec 0 y then atan (y / x) + PI else atan (y / x) - PI)
  else if Rlt_dec 0 y then PI / 2
  else if Rlt_dec y 0 then - (PI / 2)
  else 0.

Definition Rhypot (x y : R) : R := sqrt (x * x + y * y).

Definition Rsigmoid (x : R) : R := 1 / (1 + exp (- x)).

(** Rounding to the nearest integer, halves to even. *)
Definition Rround (x : R) : R :=
  let n := Int_part x in
  let f := x - IZR n in
  if Rlt_dec f (1 / 2) then IZR n
  else if Rlt_dec (1 / 2) f then IZR (n + 1)
  else if Z.even n then IZR n else IZR (n + 1).

Definition Rpow (x y : R) : R :=
  if Rlt_dec 0 x then Rpower x y
  else if Req_EM_T x 0 then (if Req_EM_T y 0 then 1 else 0)
  else if Req_EM_T (IZR (Int_part y)) y then
    (if Z.even (Int_part y) then Rpower (- x) y else - Rpower (- x) y)
  else 0.

(** The principal branch of [z ^ w]. *)
Definition Rcpow (z w : R * R) : R * R :=
  if Req_EM_T (Rhypot z.1 z.2) 0 then
    (if Req_EM_T (Rhypot w.1 w.2) 0 then (1, 0) else (0, 0))
  else
    let lr := ln (Rhypot z.1 z.2) in
    let th := Ratan2 z.2 z.1 in
    let re := w.1 * lr - w.2 * th in
    let im := w.1 * th + w.2 * lr in
    (exp re * cos im, exp re * sin im).

#[global] Instance RNum : HostNum R := {|
  fzero := 0;
  fone := 1;
  fpi := 3.14159265358979323846264338327950288419716939937510;
  fem := 0.57721566490153286060651209008240243104215933593992;
  of_Z := IZR;
  fadd := Rplus;
  fsub := Rminus;
  fmul := Rmult;
  fdiv := Rdiv;
  fneg := Ropp;
  fabs := Rabs;
  fsqrt := sqrt;
  fexp := exp;
  flog := ln;
  fcos := cos;
  fsin := sin;
  fsigmoid := Rsigmoid;
  fround := Rround;
  fpow := Rpow;
  fhypot := Rhypot;
  fatan2 := Ratan2;
  fgeb := Rgeb;
  fltb := Rltb;
  cpow := Rcpow
|}.
End Exact.

(** *** Sample tensors *)

(** Small tensors over the exact reals, on which the statements of the
    second part are instantiated. *)
Module Samples.
Import Exact.
Local Open Scope R_scope.

(** [[1+0j, 0+1j]] *)
Definition axes : tensor (R * R) := mkT [2%nat] [(1, 0); (0, 1)].

(** [[1-1j, -1+1j]]: both elements lie in a mixed-sign quadrant. *)
Definition mixed : tensor (R * R) := mkT [2%nat] [(1, -1); (-1, 1)].

(** [[1., 2.]], [[1., 3.]], [[1., 1.]] and [[0., 0., 0.]] *)
Definition vec12 : Tensor R := TReal (mkT [2%nat] [1; 2]).
Definition vec13 : Tensor R := TReal (mkT [2%nat] [1; 3]).
Definition vec11 : Tensor R := TReal (mkT [2%nat] [1; 1]).
Definition vec000 : Tensor R := TReal (mkT [3%nat] [0; 0; 0]).

(** [torch.tensor(r)], a 0-dim tensor. *)
Definition num (r : R) : Tensor R := TReal (scalar r).
End Samples.

(* ================================================================= *)
(** ** attention.py *)

Section Attention.
Context {F : Type}.

(** The body of [Turbulence.forward] after its assertion (lines 54 to
    110): FFTs, knots, entanglers and the grid sampling.  [Knot] and
    [Entangle] are not among the sources, so the composed pass is a
    parameter; it stands for the module instance too. *)
Variable forward_pass : Tensor F → Tensor F → string → string → exc (Tensor F).

Definition Turbulence_forward (queries states : Tensor F)
    (inter padding : string) : exc (Tensor F) :=
  let inputSize := size queries in
  (* assert states.size() == inputSize *)
  if decide (size states = inputSize)
  then forward_pass queries states inter padding
  else Err ShapeAssertion.
End Attention.

(* ================================================================= *)
(** ** Calls, objects and indexing: the failing paths *)

(** A Python argument. *)
Inductive pyarg (F : Type) :=
| ATensor (x : Tensor F)
| AInt (n : Z).
Arguments ATensor {F} x.
Arguments AInt {F} n.

(** Binding the arguments of a call to the parameter names of the callee: a
    keyword that names no parameter is refused, as is a parameter bound
    twice or left unbound. *)
Fixpoint bind_keywords {A} (params : list string) (bound : list (string * A))
    (kwargs : list (string * A)) : exc (list (string * A)) :=
  match kwargs with
  | [] => Ok bound
  | (k, v) :: rest =>
      if bool_decide (k ∈ params) then
        if bool_decide (k ∈ bound.*1) then Err ArgumentBinding
        else bind_keywords params (bound ++ [(k, v)]) rest
      else Err (UnexpectedKeyword k)
  end.

Definition bind_call {A} (params : list string) (args : list A)
    (kwargs : list (string * A)) : exc (list (string * A)) :=
  if length params <? length args then Err ArgumentBinding else
  bound ← bind_keywords params (zip params args) kwargs;
  if bool_decide (Forall (λ p, p ∈ bound.*1) params) then Ok bound
  else Err ArgumentBinding.

Definition lookup_arg {A} (name : string) (bound : list (string * A))
  : exc A :=
  match list_find (λ kv, kv.1 = name) bound with
  | Some (_, (_, v)) => Ok v
  | None => Err ArgumentBinding
  end.

(** A Python object as far as [is] can tell: a class, or an instance of a
    class with its own identity. *)
Inductive pyobj :=
| ClassObj (name : string)
| Instance (cls : string) (id : nat).

#[global] Instance pyobj_eq_dec : EqDecision pyobj.
Proof. solve_decision. Defined.

(** [a is b] *)
Definition py_is (a b : pyobj) : bool := bool_decide (a = b).

Section Failing.
Context {F : Type} `{HostNum F}.

(** *** lens.py: PolarLens *)

(** [def isigmoid(x:t.Tensor) -> t.Tensor] *)
Definition isigmoid_params : list string := ["x"].

Definition call_isigmoid (args : list (pyarg F))
    (kwargs : list (string * pyarg F)) : exc (Tensor F) :=
  bound ← bind_call isigmoid_params args kwargs;
  x ← lookup_arg "x" bound;
  match x with
  | ATensor x => isigmoid x
  | AInt _ => Err ArgumentBinding
  end.

Record PolarLens := mkPolarLens {
  lensBasis : Tensor F;
  lensDir : Z;
  signalPadding : Z
}.

(** What [__forward__] does with the soft lens: [tfft.irfft], the product
    with [lensDir] and the call of [lens()].  [irfft] and the helpers of
    [lens()] are not among the sources. *)
Variable lens_of_softlens : PolarLens → Tensor F → Tensor F → exc (Tensor F).

Definition PolarLens__forward__ (self : PolarLens) (x : Tensor F)
  : exc (Tensor F) :=
  (* softlens = isigmoid(self.lensBasis, dim=-1) *)
  softlens ← call_isigmoid [ATensor (lensBasis self)] [("dim", AInt (-1))];
  lens_of_softlens self softlens x.

(** *** knowledge/aggregator.py *)

Definition KnowledgeCollider : pyobj := ClassObj "KnowledgeCollider".

Record Aggregator := mkAggregator { colliders : list pyobj }.

Definition __colliderCaster__ (collider : pyobj) : exc pyobj :=
  (* assert collider is KnowledgeCollider *)
  if py_is collider KnowledgeCollider then Ok collider
  else Err TypeAssertion.

Definition addCollider (self : Aggregator) (collider : pyobj)
  : exc Aggregator :=
  (* Type and value check the arguments *)
  _ ← __colliderCaster__ collider;
  (* Add the collider *)
  Ok (mkAggregator (colliders self ++ [collider])).

(** *** math.py: harmonicdist *)

(** [x.max()]: a 0-dim tensor, and no result on an empty tensor. *)
Definition t_max (x : tensor F) : exc (tensor F) :=
  match data x with
  | [] => Err EmptyReduction
  | v :: vs => Ok (scalar (foldl (λ m w, if fgeb m w then m else w) v vs))
  end.

(** [x[k]] for an integer [k]: a 0-dim tensor has nothing to index. *)
Definition index_first {A} (x : tensor A) (k : nat) : exc (tensor A) :=
  match shape x with
  | [] => Err ZeroDimIndex
  | n :: sh =>
      if k <? n
      then Ok (mkT sh (take (numel sh) (drop (k * numel sh) (data x))))
      else Err IndexOutOfBounds
  end.

(** [x.flatten(0, -1)] *)
Definition flatten {A} (x : tensor A) : tensor A :=
  mkT [length (data x)] (data x).

(** The statements of [harmonicdist] after [maxn] (lines 301 to 305):
    [harmonicvals] is called with the tensor [maxn] where it takes an
    [int]; what follows is never reached. *)
Variable harmonic_tail : tensor F → tensor F → tensor F → exc (tensor F).

Definition harmonicdist (x : tensor F) : exc (tensor F) :=
  (* Gather constants for evaluation *)
  let em := emconst in
  (* the inverse harmonic index of the input values, flattened *)
  shifted ← tzip fsub x em;
  inverse ← tzip fadd (tmap fround (tmap fexp shifted))
              (tmap fexp (tmap fneg em));
  let finv := flatten inverse in
  (* maxn = finv.max()[0] *)
  top ← t_max finv;
  maxn ← index_first top 0;
  harmonic_tail x finv maxn.
End Failing.

(* ================================================================= *)
(** ** math.py: biases, primish values, harmonic values and means *)

(** A Python index into a sequence of [len] elements: a negative index
    counts from the end. *)
Definition py_index (len : nat) (i : Z) : exc nat :=
  if ((0 <=? i) && (i <? Z.of_nat len))%Z then Ok (Z.to_nat i)
  else if ((- Z.of_nat len <=? i) && (i <? 0))%Z
       then Ok (Z.to_nat (Z.of_nat len + i))
       else Err IndexOutOfBounds.

(** The number of elements the slice [[:n]] takes from [len]. *)
Definition py_slice_stop (len : nat) (n : Z) : nat :=
  if (n <? 0)%Z then Z.to_nat (Z.of_nat len + n)
  else Nat.min (Z.to_nat n) len.

(** [x.size()[dim]] *)
Definition size_at (sh : list nat) (dim : Z) : exc nat :=
  k ← py_index (length sh) dim;
  match sh !! k with
  | Some n => Ok n
  | None => Err IndexOutOfBounds
  end.

(** The functions below are compiled by [torch.jit.script], whose [int] is
    a 64-bit integer, as the elements of an [int64] tensor are. *)
Definition wrap64 (z : Z) : Z := ((z + 2 ^ 63) mod 2 ^ 64 - 2 ^ 63)%Z.

(** [t[i]] and [t[i] = v] on a 1-dim tensor, as lists. *)
Definition load {A} (l : list A) (i : Z) : exc A :=
  k ← py_index (length l) i;
  match l !! k with
  | Some v => Ok v
  | None => Err IndexOutOfBounds
  end.

Definition store {A} (l : list A) (i : Z) (v : A) : exc (list A) :=
  k ← py_index (length l) i;
  Ok (<[k := v]> l).

(** *** primishvals *)

Record pstate := mkP { p_result : list Z; p_itr : Z; p_pitr : Z }.

(** [int((itr - 3) / 2) + 1]: the quotient is a float, [int] truncates it
    towards zero.  The float is the exact quotient as long as [itr - 3]
    is one, which holds up to [2 ^ 53]; the statements below on the values
    stay within that range. *)
Definition next_pitr (itr : Z) : Z :=
  wrap64 (Z.quot (wrap64 (itr - 3)) 2 + 1).

Definition primish_cond (n : Z) (st : pstate) : bool := (p_itr st <? n)%Z.

Definition primish_body (gaussApprox : bool) (st : pstate) : exc pstate :=
  let result := p_result st in
  let itr := p_itr st in
  let pitr := p_pitr st in
  result ←
    (if negb (Z.land itr 1 =? 0)%Z then
       if gaussApprox
       then store result itr (wrap64 (wrap64 (4 * pitr) + 1))
       else store result itr (wrap64 (wrap64 (6 * pitr) - 1))
     else
       prev ← load result (itr - 1);
       store result itr (wrap64 (prev + 2)));
  let itr := wrap64 (itr + 1) in
  mret (mkP result itr (next_pitr itr)).

(** The value the loop writes at position [itr]. *)
Definition primish_value (g : bool) (result : list Z) (itr pitr : Z) : Z :=
  if negb (Z.land itr 1 =? 0)%Z then
    if g then wrap64 (wrap64 (4 * pitr) + 1)
    else wrap64 (wrap64 (6 * pitr) - 1)
  else wrap64 (nth (Z.to_nat (itr - 1)) result 0%Z + 2).

(** What the loop keeps: the length [N], the prefix [pre] of [blen]
    elements taken from the base, and the value of every position it has
    written. *)
Definition primish_inv (g : bool) (pre : list Z) (blen N : nat)
    (st : pstate) : Prop :=
  length (p_result st) = N
  ∧ (Z.of_nat blen <= p_itr st <= Z.of_nat N)%Z
  ∧ p_pitr st = next_pitr (p_itr st)
  ∧ take blen (p_result st) = pre
  ∧ ∀ j, blen ≤ j → (Z.of_nat j < p_itr st)%Z →
      p_result st !! j
      = Some (primish_value g (p_result st) (Z.of_nat j)
                (next_pitr (Z.of_nat j))).

(** [primishvals] for a [base] of dtype [int64]. *)
Definition primishvals (fuel : nat) (n : Z) (base : tensor Z)
    (gaussApprox : bool) : option (exc (tensor Z)) :=
  (* base.size()[-1] *)
  match size_at (shape base) (-1) with
  | Err e => Some (Err e)
  | Ok blen =>
      (* Not in the 6x -+ 1 domain, or starting domain *)
      let base :=
        if blen <? 3 then
          let b := replicate 3 1%Z in
          let b := <[1 := wrap64 (nth 1 b 0 + nth 0 b 0)%Z]> b in
          let b := <[2 := wrap64 (nth 2 b 0 + nth 1 b 0)%Z]> b in
          mkT [3] b
        else base in
      match size_at (shape base) (-1) with
      | Err e => Some (Err e)
      | Ok blen =>
          if (n <=? Z.of_nat blen)%Z then
            (* return base[:n] *)
            let rest := tail (shape base) in
            let stop := py_slice_stop (default 0 (head (shape base))) n in
            Some (Ok (mkT (stop :: rest) (take (stop * numel rest) (data base))))
          else
            (* Construct the output values *)
            let result := replicate (Z.to_nat n) 0%Z in
            (* result[:base.size()[-1]] = base *)
            if decide (broadcast_shapes (strip_ones (shape base)) [blen]
                       = Some [blen]) then
              let result :=
                expand_to [blen] (mkT (strip_ones (shape base)) (data base))
                  ++ drop blen result in
              (* Compute every needed 6x -+ 1 value *)
              let itr := Z.of_nat blen in
              fmap (M := exc) (λ '(st, _), mkT [Z.to_nat n] (p_result st))
                <$> while_loop fuel (primish_cond n) (primish_body gaussApprox)
                      (mkP result itr (next_pitr itr)) 0
            else Some (Err ShapeMismatch)
      end
  end.

Section Harmonic.
Context {F : Type} `{HostNum F}.

(** *** xbias, latticeParams *)

Definition xbias (n bias : Z) : exc (tensor F) :=
  if (n <? 0)%Z then Err NegativeDimension else
  (* composer = t.zeros((n)).add(bias) *)
  let composer := replicate (Z.to_nat n) (fadd fzero (of_Z bias)) in
  composer ← for_each (range 0 n)
                (λ i composer,
                   (* composer[i].add_(i) *)
                   v ← load composer i;
                   store composer i (fadd v (of_Z i)))
                composer;
  mret (mkT [Z.to_nat n] composer).

Definition latticeParams (dims : Z) (basisParam : tensor F)
  : exc (tensor F) :=
  powers ← xbias dims 0;
  (* basisParam ** (-powers) *)
  tzip fpow basisParam (tmap fneg powers).

(** *** Sums and two-dimensional products *)

(** The flat position of element [j] along dimension [d] in the fiber
    that the flat position [o] of the reduced tensor stands for. *)
Definition fiber_pos (sh : list nat) (d : nat) (o j : nat) : nat :=
  let n := nth d sh 1 in
  let inner := numel (drop (S d) sh) in
  (o / inner) * (n * inner) + j * inner + o mod inner.

(** [x.sum(dim=dim)] *)
Definition sum_dim {A} (add : A → A → A) (zero : A) (x : tensor A) (dim : Z)
  : exc (tensor A) :=
  d ← norm_dim (length (shape x)) dim;
  let sh := shape x in
  let out := take d sh ++ drop (S d) sh in
  mret (mkT out
          ((λ o, foldl add zero
                   ((λ j, nth (fiber_pos sh d o j) (data x) zero)
                      <$> seq 0 (nth d sh 1)))
             <$> seq 0 (numel out))).

(** [a @ b] for [a] of shape [(p, q)] and [b] of shape [(q', r)]. *)
Definition matmul2 (a b : tensor F) : exc (tensor F) :=
  match shape a, shape b with
  | [p; q], [q'; r] =>
      if decide (q = q') then
        Ok (mkT [p; r]
              ((λ k, fsum ((λ m, fmul (nth (k / r * q + m) (data a) fzero)
                                   (nth (m * r + k mod r) (data b) fzero))
                             <$> seq 0 q))
                 <$> seq 0 (p * r)))
      else Err ShapeMismatch
  | _, _ => Err ShapeMismatch
  end.

(** [t.triu(x, diagonal=0)] of a 2-dim tensor. *)
Definition triu2 (x : tensor F) : exc (tensor F) :=
  match shape x with
  | [p; q] =>
      Ok (mkT [p; q]
            (imap (λ k v, if (k / q) <=? (k mod q) then v else fzero)
               (data x)))
  | _ => Err ShapeMismatch
  end.

(** [x.transpose(-1, -2)] of a 2-dim tensor. *)
Definition transpose2 (x : tensor F) : exc (tensor F) :=
  match shape x with
  | [p; q] =>
      Ok (mkT [q; p]
            ((λ k, nth (k mod p * q + k / p) (data x) fzero)
               <$> seq 0 (q * p)))
  | _ => Err ShapeMismatch
  end.

(** *** hmean *)

Definition hmean (x : Tensor F) (dim : Z) : exc (Tensor F) :=
  (* Turn all the values to their -1 power *)
  let invx := match x with
              | TReal r => TReal (tmap (fdiv fone) r)
              | TCplx c => TCplx (tmap (cdiv (fone, fzero)) c)
              end in
  (* Find the amount of values for the mean *)
  vals ← size_at (size x) dim;
  (* Calculate the harmonic mean *)
  match invx with
  | TReal r =>
      s ← sum_dim fadd fzero r dim;
      mret (TReal (tmap (fdiv (of_Z (Z.of_nat vals))) s))
  | TCplx c =>
      s ← sum_dim cadd czero c dim;
      mret (TCplx (tmap (cdiv (of_real (of_Z (Z.of_nat vals)))) s))
  end.

(** *** harmonicvals *)

Definition harmonicvals (n : Z) (nosum addzero : bool)
  : exc (tensor F) :=
  (* Quick error checking: assert n >= 1 *)
  if (n <? 1)%Z then Err ShapeAssertion else
  (* Find all of the 1/n values to be summed *)
  let zeroint := of_bool addzero in
  xb ← xbias (n + zeroint) (1 - zeroint);
  let factors := tmap (fdiv fone) xb in
  if nosum then Ok factors else
  (* factors.unsqueeze_(0) *)
  let factors := mkT (1 :: shape factors) (data factors) in
  (* Turn the values into a big triangle *)
  prod ← matmul2 (full [Z.to_nat n; 1] fone) factors;
  composition ← triu2 prod;
  (* Sum the triangle together *)
  tr ← transpose2 composition;
  sum_dim fadd fzero tr (-1).
End Harmonic.

(** *** More sample tensors *)

Module MoreSamples.
Import Exact.
Local Open Scope R_scope.

(** [t.zeros(0, dtype=t.int64)], the default [base] of [primishvals]. *)
Definition no_base : tensor Z := mkT [0%nat] [].

(** [[2, 3, 5, 7]] *)
Definition base2357 : tensor Z := mkT [4%nat] [2; 3; 5; 7]%Z.

(** [[1., 2.]] *)
Definition pair12 : tensor R := mkT [2%nat] [1; 2].

(** A host on integer tensors: it answers the tests on the last
    dimension, the only host calls [primishvals] makes on a base that is
    long enough. *)
Definition size_test (name : string) (ints : list Z)
    (args : list (tensor Z)) : bool :=
  match ints, args with
  | [k], [x] =>
      let d := Z.of_nat (default 0%nat (last (shape x))) in
      if decide (name = "size_last_lt") then (d <? k)%Z
      else if decide (name = "size_last_ge") then (k <=? d)%Z
      else false
  | _, _ => false
  end.
End MoreSamples.

(* ================================================================= *)
(** ** zeta.py: lerchs *)

Section Lerchs.
Context {F : Type} `{HostNum F}.

(** [__lerchitr(lam, s, a, n) + (epsig * prev)] as a channel holds it. *)
Definition lerch_step (lam s a epsig : Tensor F) (n : Z)
    (prev : tensor (F * F)) : exc (tensor (F * F)) :=
  itr ← __lerchitr lam s a n;
  er ← t_mul epsig (TCplx prev);
  v ← t_add itr er;
  mret (slice_value (size s) v).

(** Channel 0 after [k] blank steps: the iterate of [n = 0], then one
    step for each of [n = 1 .. k]. *)
Fixpoint lerch_blank_channel (lam s a epsig : Tensor F) (k : nat)
  : exc (tensor (F * F)) :=
  match k with
  | O => slice_value (size s) <$> __lerchitr lam s a 0
  | S k' =>
      prev ← lerch_blank_channel lam s a epsig k';
      lerch_step lam s a epsig (Z.of_nat k) prev
  end.

(** The channels [1 .. m] of [result] follow the recurrence with the
    offset [b]: channel [j] is [__lerchitr(lam, s, a, b + 1 + j)] plus
    [epsig] times channel [j - 1]. *)
Definition lerch_recurrence_upto (lam s a epsig : Tensor F) (b : Z)
    (m : nat) (result : tensor (F * F)) : Prop :=
  ∀ j, 1 ≤ j ≤ m →
    ∃ prev cur,
      get_channel result (j - 1) = Ok prev
      ∧ get_channel result j = Ok cur
      ∧ lerch_step lam s a epsig (b + 1 + Z.of_nat j) prev = Ok cur.

(** [resampleContinuous], as for [hzetas]: only the [fftloss] path calls
    it. *)
Variable resampleContinuous : Tensor F → exc (Tensor F).

(** [__lerchitr(lam, s, a, n) + (epsig * result[..., j])], stored in
    channel [j']. *)
Definition lerchs_store (lam s a epsig : Tensor F) (n : Z) (j j' : nat)
    (result : tensor (F * F)) : exc (tensor (F * F)) :=
  itr ← __lerchitr lam s a n;
  prev ← get_channel result j;
  er ← t_mul epsig (TCplx prev);
  v ← t_add itr er;
  set_channel result j' v.

Definition lerchs (lam s a res : Tensor F) (blankSamples samples : Z)
    (fftloss : bool) : exc (Tensor F) :=
  if (samples <? 0)%Z then Err NegativeDimension else
  (* the result has the size of the input with the sample channels *)
  let result := toComplex (outer_zeros s (Z.to_nat samples)) in
  (* running parameters *)
  epsig ← isigmoid res;
  let idx := 1%Z in
  (* the first sample *)
  first ← __lerchitr lam s a 0;
  result ← set_channel result 0 first;
  (* ignore the first blank steps *)
  st ← for_each (range 0 blankSamples)
         (λ _ '(result, idx),
            result ← lerchs_store lam s a epsig idx 0 0 result;
            mret (result, (idx + 1)%Z))
         (result, idx);
  let '(result, idx) := st in
  (* calculate each step then store *)
  result ← for_each (range 1 samples)
             (λ jdx result,
                lerchs_store lam s a epsig (idx + jdx)
                  (Z.to_nat (jdx - 1)) (Z.to_nat jdx) result)
             result;
  if fftloss then resampleContinuous (TCplx result)
  else Ok (TCplx result).
End Lerchs.

(* ================================================================= *)
(** ** Storage: views and in-place operations *)

(** The same functions once more, now as the sequence of host calls they
    make on tensor objects.  A tensor object is a handle on a storage; a
    host operation reads its operands and allocates a fresh storage for its
    result, a view shares the storage of its base, an in-place operation
    writes the storage of its target.  What the host computes is left
    open: [host_op], [host_test], [view_get] and [view_put] are arbitrary. *)
Module Eff.
Section Storage.
(** What a storage holds: the elements with their shape and dtype. *)
Context {V : Type}.

Definition vstep : Type := string * list Z.

Record handle := mkH { sid : nat; path : list vstep }.

Variable host_op : string → list Z → list V → exc V.
Variable host_test : string → list Z → list V → bool.
Variable view_get : vstep → V → V.
Variable view_put : vstep → V → V → V.

(** A computation on the store: [None] when a loop ran out of fuel. *)
Definition M (A : Type) : Type := list V → option (exc A) * list V.

#[global] Instance M_ret : MRet M := λ A a σ, (Some (Ok a), σ).
#[global] Instance M_bind : MBind M := λ A B k m σ,
  match m σ with
  | (Some (Ok a), σ') => k a σ'
  | (Some (Err e), σ') => (Some (Err e), σ')
  | (None, σ') => (None, σ')
  end.

Definition raise {A} (e : error) : M A := λ σ, (Some (Err e), σ).
Definition lift {A} (r : exc A) : M A := λ σ, (Some r, σ).
Definition out_of_fuel {A} : M A := λ σ, (None, σ).
Definition raise_if (b : bool) (e : error) : M () :=
  if b then raise e else mret ().
Definition when (b : bool) (m : M ()) : M () :=
  if b then m else mret ().

(** Reading and writing through a chain of views, newest first. *)
Definition get_path (p : list vstep) (v : V) : V := foldr view_get v p.

Fixpoint put_path (p : list vstep) (new old : V) : V :=
  match p with
  | [] => new
  | st :: p' => put_path p' (view_put st new (get_path p' old)) old
  end.

Definition read (h : handle) : M V := λ σ,
  match σ !! sid h with
  | Some v => (Some (Ok (get_path (path h) v)), σ)
  | None => (Some (Err IndexOutOfBounds), σ)
  end.

Definition write (h : handle) (new : V) : M () := λ σ,
  match σ !! sid h with
  | Some old => (Some (Ok ()), <[sid h := put_path (path h) new old]> σ)
  | None => (Some (Err IndexOutOfBounds), σ)
  end.

Definition alloc (v : V) : M handle := λ σ,
  (Some (Ok (mkH (length σ) [])), σ ++ [v]).

Fixpoint read_all (hs : list handle) : M (list V) :=
  match hs with
  | [] => mret []
  | h :: hs' => v ← read h; vs ← read_all hs'; mret (v :: vs)
  end.

(** [name(ints, *args)]: a fresh tensor. *)
Definition op (name : string) (ints : list Z) (args : list handle)
  : M handle :=
  vs ← read_all args; v ← lift (host_op name ints vs); alloc v.

(** [target.name_(ints, *args)]: written into the target. *)
Definition inplace (name : string) (ints : list Z) (target : handle)
    (args : list handle) : M () :=
  vs ← read_all (target :: args);
  v ← lift (host_op name ints vs);
  write target v.

(** [base.name]: a tensor on the storage of its base. *)
Definition view_of (name : string) (ints : list Z) (base : handle)
  : M handle :=
  mret (mkH (sid base) ((name, ints) :: path base)).

(** A conversion that returns its argument when there is nothing to
    convert ([.type], [.to]); [others] are the tensors whose dtype it
    reads. *)
Definition convert (name : string) (ints : list Z) (x : handle)
    (others : list handle) : M handle :=
  vs ← read_all (x :: others);
  if host_test name ints vs then mret x else op name ints (x :: others).

(** Modelled from the spec: the helpers of [sizing.py] and
    [conversions.py] ([paddim], [weightedResample], [resampleContinuous])
    are not among the sources.  The specification describes them as plain
    building blocks of a library whose contract is pure numerical
    transforms: a helper reads its operands and returns a new tensor. *)
Definition helper (name : string) (ints : list Z) (args : list handle)
  : M handle := op name ints args.

(** Modelled from the spec: [toComplex] of [conversions.py];
    [tests/conversions_test.py] has it return a complex tensor equal to
    a complex argument, which may be the argument itself. *)
Definition toComplex (x : handle) : M handle :=
  convert "toComplex" [] x [].

Definition test (name : string) (ints : list Z) (args : list handle)
  : M bool :=
  vs ← read_all args; mret (host_test name ints vs).

Fixpoint for_each_m {X St} (xs : list X) (body : X → St → M St) (st : St)
  : M St :=
  match xs with
  | [] => mret st
  | x :: xs' => st' ← body x st; for_each_m xs' body st'
  end.

Fixpoint while_m {St} (fuel : nat) (cond : St → M bool)
    (body : St → M St) (st : St) : M St :=
  c ← cond st;
  if c : bool then
    match fuel with
    | O => out_of_fuel
    | S fuel' => st' ← body st; while_m fuel' cond body st'
    end
  else mret st.

Local Open Scope Z_scope.

(** *** math.py *)

Definition pi : M handle :=
  one ← op "ones" [1] [];
  p ← op "mul_float:3.14159265358979323846264338327950288419716939937510" [] [one];
  view_of "detach" [] p.

Definition i : M handle :=
  z ← op "zeros" [1] [];
  o ← op "ones" [1] [];
  st ← op "stack" [-1] [z; o];
  c ← view_of "view_as_complex" [] st;
  view_of "detach" [] c.

Definition isoftmax (x : handle) (dim : Z) : M handle :=
  c ← test "is_complex" [] [x];
  if negb c then op "softmax" [dim] [x] else
  angle ← op "angle" [] [x];
  magnitude ← op "abs" [] [x];
  softMagnitude ← op "softmax" [dim] [magnitude];
  ca ← op "cos" [] [angle];
  newReal ← op "mul" [] [softMagnitude; ca];
  sa ← op "sin" [] [angle];
  newImag ← op "mul" [] [softMagnitude; sa];
  st ← op "stack" [-1] [newReal; newImag];
  view_of "view_as_complex" [] st.

Definition nsoftmax (x : handle) (dims : list Z) : M handle :=
  result ← op "ones_like" [] [x];
  (* exponent = 1. / len(dims) *)
  _ ← raise_if (bool_decide (dims = [])) ZeroDivision;
  _ ← for_each_m dims (λ dim _,
        sm ← isoftmax x dim;
        nroot ← op "pow_float:1/len" [Z.of_nat (length dims)] [sm];
        inplace "mul_" [] result [nroot]) ();
  mret result.

Definition isigmoid (x : handle) : M handle :=
  c ← test "is_complex" [] [x];
  if negb c then op "sigmoid" [] [x] else
  p ← pi;
  PI2 ← op "div" [2] [p];
  ang ← op "angle" [] [x];
  xabs ← op "abs" [] [x];
  let real := view_of "real" [] x in
  let imag := view_of "imag" [] x in
  let ge0 (m : M handle) := (v ← m; op "ge" [0] [v]) in
  let lt0 (m : M handle) := (v ← m; op "lt" [0] [v]) in
  let and_ (a b : M handle) := (u ← a; v ← b; op "logical_and" [] [u; v]) in
  let uint8 (h : handle) := convert "type:uint8" [] h [] in
  let mul (a b : handle) := op "mul" [] [a; b] in
  posQuad ← and_ (ge0 real) (ge0 imag) ≫= uint8;
  negQuad ← and_ (lt0 real) (lt0 imag) ≫= uint8;
  examineQuadRight ← and_ (ge0 real) (lt0 imag);
  examineQuadLeft ← and_ (ge0 imag) (lt0 real);
  examineQuad ← op "logical_and" [] [examineQuadLeft; examineQuadRight] ≫= uint8;
  posArg ← mul posQuad xabs;
  posSig ← op "sigmoid" [] [posArg];
  posVal ← mul posQuad posSig;
  nabs ← op "neg" [] [xabs];
  negArg ← mul negQuad nabs;
  negSig ← op "sigmoid" [] [negArg];
  negVal ← mul negQuad negSig;
  eql ← uint8 examineQuadLeft;
  angLo ← op "sub" [] [ang; PI2];
  rl ← mul eql angLo;
  rotLeft ← op "mul" [2] [rl];
  eqr ← uint8 examineQuadRight;
  angHi ← op "add" [] [ang; PI2];
  rr ← mul eqr angHi;
  rotRight ← op "mul" [2] [rr];
  rot ← op "add" [] [rotLeft; rotRight];
  rotScalar ← op "cos" [] [rot];
  examRot ← mul examineQuad rotScalar;
  examArg ← mul examRot xabs;
  examSig ← op "sigmoid" [] [examArg];
  examVal ← mul examineQuad examSig;
  posNeg ← op "add" [] [posVal; negVal];
  finalSigmoidMag ← op "add" [] [posNeg; examVal];
  ra ← (v ← real; op "abs" [] [v]);
  ia ← (v ← imag; op "abs" [] [v]);
  st ← op "stack" [-1] [ra; ia];
  xabs_e ← view_of "view_as_complex" [] st;
  sigmoidComplexVal ← op "div" [] [xabs_e; xabs];
  mul finalSigmoidMag sigmoidComplexVal.

Definition icos (x : handle) : M handle :=
  c ← test "is_complex" [] [x];
  if negb c then op "cos" [] [x] else
  xabs ← op "abs" [] [x];
  cx ← op "cos" [] [xabs];
  ii ← i;
  i2 ← op "mul_float:2." [] [ii];
  ang ← op "angle" [] [x];
  arg ← op "mul" [] [i2; ang];
  e ← op "exp" [] [arg];
  op "mul" [] [cx; e].

Definition isin (x : handle) : M handle :=
  c ← test "is_complex" [] [x];
  if negb c then op "sin" [] [x] else
  xabs ← op "abs" [] [x];
  sx ← op "sin" [] [xabs];
  ii ← i;
  ang ← op "angle" [] [x];
  arg ← op "mul" [] [ii; ang];
  e ← op "exp" [] [arg];
  op "mul" [] [sx; e].

(** *** math.py: the prime distances *)

Definition realprimishdist (x : handle) (relative gaussApprox : bool)
  : M handle :=
  (* assert not t.is_complex(x) *)
  c ← test "is_complex" [] [x];
  _ ← raise_if c TypeAssertion;
  let int64 (h : handle) := convert "type:int64" [] h [] in
  let guess (shift scale : string) :=
    (u ← op shift [] [x]; v ← op scale [] [u]; int64 v) in
  (* Collect inverse values *)
  iprimeGuessTop ← (if gaussApprox then guess "sub_float:3." "div_float:4."
                    else guess "sub_float:1." "div_float:6.");
  iprimeGuessBot ← (if gaussApprox then guess "add_float:3." "div_float:4."
                    else guess "add_float:1." "div_float:6.");
  topNext ← op "add" [1] [iprimeGuessTop];
  iprimeGuessTop ← op "stack" [-1] [iprimeGuessTop; topNext];
  botNext ← op "add" [1] [iprimeGuessBot];
  iprimeGuessBot ← op "stack" [-1] [iprimeGuessBot; botNext];
  (* Compute nearest values *)
  let scaled (h : handle) (k c : Z) :=
    (u ← op "mul" [k] [h]; op "add" [c] [u]) in
  primishTop ← (if gaussApprox then scaled iprimeGuessTop 4 3
                else scaled iprimeGuessTop 6 1);
  primishBot ← (if gaussApprox then scaled iprimeGuessBot 4 (-3)
                else scaled iprimeGuessBot 6 (-1));
  (* Collect the primes, add the special primes, sort *)
  primish ← op "cat" [-1] [primishTop; primishBot];
  ol ← op "ones_like" [] [primish];
  ol4 ← view_of "slice_last" [0; 4] ol;
  sp ← op "tensor" [-1; 1; 2; 3] [];
  specialPrimes ← op "mul" [] [ol4; sp];
  primish ← op "cat" [-1] [primish; specialPrimes];
  primish ← op "sort_values" [-1] [primish];
  (* Find the closest prime approximates *)
  ol ← op "ones_like" [] [primish];
  xu ← view_of "unsqueeze" [-1] x;
  xish ← op "mul" [] [ol; xu];
  ge ← op "ge" [] [xish; primish];
  lowidx ← convert "type_as" [] ge [x];
  lt ← op "lt" [] [xish; primish];
  highidx ← convert "type_as" [] lt [x];
  let nearest (idx : handle) (edge : Z) (pick : string) :=
    (pa ← op "mul" [] [primish; idx];
     ni ← op "rsub" [1] [idx];
     e ← view_of "select_last" [edge] primish;
     eu ← view_of "unsqueeze" [-1] e;
     pb ← op "mul" [] [ni; eu];
     sm ← op "add" [] [pa; pb];
     op pick [-1] [sm]) in
  low ← nearest lowidx 0 "max_values";
  high ← nearest highidx (-1) "min_values";
  (* Calculate approach distance to nearest primes *)
  lowDist ← op "sub" [] [x; low];
  highDist ← op "sub" [] [high; x];
  highLower ← op "lt" [] [highDist; lowDist];
  (* Turn into one tensor *)
  hl ← int64 highLower;
  ra ← op "mul" [] [hl; highDist];
  hl' ← int64 highLower;
  nh ← op "rsub" [1] [hl'];
  rb ← op "mul" [] [nh; lowDist];
  result ← op "add" [] [ra; rb];
  _ ← when (relative && negb gaussApprox)
        (d ← op "sub" [] [high; low];
         totalDistance ← op "div" [2] [d];
         inplace "div_" [] result [totalDistance]);
  mret result.

Definition gaussianprimishdist (x : handle) (relative : bool) : M handle :=
  (* Force complex type *)
  c ← test "is_complex" [] [x];
  x ← (if negb c then toComplex x else mret x);
  (* Extract values to compute against *)
  real ← view_of "real" [] x;
  imag ← view_of "imag" [] x;
  let square (m : M handle) := (u ← m; v ← m; op "mul" [] [u; v]) in
  rr ← square (view_of "real" [] x);
  ii ← square (view_of "imag" [] x);
  gauss ← op "add" [] [rr; ii];
  (* Simple first distance calculation for the magnitude *)
  gd ← realprimishdist gauss relative false;
  gaussdist ← op "sqrt" [] [gd];
  (* Calculate the other distances *)
  rdgauss ← realprimishdist real true true;
  idgauss ← realprimishdist imag true true;
  ia ← op "abs" [] [imag];
  rdgaussi ← op "div" [2] [ia];
  ra ← op "abs" [] [real];
  idgaussi ← op "div" [2] [ra];
  (* Raw distance function *)
  let composite (u v : handle) :=
    (uu ← op "mul" [] [u; u]; vv ← op "mul" [] [v; v];
     sm ← op "add" [] [uu; vv]; op "sqrt" [] [sm]) in
  rdcomposite ← composite rdgauss rdgaussi;
  idcomposite ← composite idgauss idgaussi;
  (* Take the minimum distance *)
  magnitudePerc ← op "min" [] [rdcomposite; idcomposite];
  op "min" [] [magnitudePerc; gaussdist].

Definition iprimishdist (x : handle) (relative : bool) : M handle :=
  c ← test "is_complex" [] [x];
  if negb c then realprimishdist x relative false
  else gaussianprimishdist x relative.

(** *** zeta.py *)

Definition __hzetaitr (s a : handle) (n : Z) : M handle :=
  na ← op "add" [n] [a];
  ns ← op "neg" [] [s];
  op "pow" [] [na; ns].

(** [(result.abs() >= aeps.abs()).type(t.int64)] *)
Definition ge_mask (result aeps : handle) : M handle :=
  ra ← op "abs" [] [result];
  aa ← op "abs" [] [aeps];
  ge ← op "ge" [] [ra; aa];
  convert "type:int64" [] ge [].

(** [(keepGoing * (delta + (epsig * result))) + ((1 - keepGoing) * result)] *)
Definition blend (keepGoing delta epsig result : handle) : M handle :=
  er ← op "mul" [] [epsig; result];
  upd ← op "add" [] [delta; er];
  kept ← op "mul" [] [keepGoing; upd];
  nk ← op "rsub" [1] [keepGoing];
  frozen ← op "mul" [] [nk; result];
  op "add" [] [kept; frozen].

Record zstate := mkZ {
  z_delta : handle;
  z_result : handle;
  z_keepGoing : handle;
  z_idx : Z
}.

(** [torch.all(keepGoing) and idx < maxiter] *)
Definition zeta_cond (maxiter : Z) (st : zstate) : M bool :=
  all ← test "all" [] [z_keepGoing st];
  mret (all && (z_idx st <? maxiter)).

Definition hzetae (fuel : nat) (s a res aeps : handle) (maxiter : Z)
  : M handle :=
  epsig ← isigmoid res;
  delta ← __hzetaitr s a 0;
  ol ← op "ones_like" [] [delta];
  result ← op "mul" [] [ol; delta];
  keepGoing ← ge_mask result aeps;
  st ← while_m fuel (zeta_cond maxiter)
         (λ st,
            sk ← op "mul" [] [s; z_keepGoing st];
            delta ← __hzetaitr sk a (z_idx st);
            result ← blend (z_keepGoing st) delta epsig (z_result st);
            keepGoing ← ge_mask result aeps;
            mret (mkZ delta result keepGoing (z_idx st + 1)))
         (mkZ delta result keepGoing 1);
  mret (z_result st).

(** [__hzetaitr(s, a, n) + (epsig * result[..., j])], assigned to
    [result[..., j']]. *)
Definition hzetas_store (s a epsig : handle) (n j j' : Z)
    (result : handle) : M () :=
  v ← __hzetaitr s a n;
  prev ← view_of "select_last" [j] result;
  er ← op "mul" [] [epsig; prev];
  v ← op "add" [] [v; er];
  target ← view_of "select_last" [j'] result;
  inplace "copy_" [] target [v].

Definition hzetas (s a res : handle) (blankSamples samples : Z)
    (fftformat : bool) : M handle :=
  (* the result has the size of the input with the sample channels *)
  us ← view_of "unsqueeze" [-1] s;
  z ← op "zeros" [1; samples] [s];
  mm ← op "matmul" [] [us; z];
  result ← toComplex mm;
  (* running parameters *)
  epsig ← isigmoid res;
  (* the first value, without any summation *)
  first ← __hzetaitr s a 0;
  target ← view_of "select_last" [0] result;
  _ ← inplace "copy_" [] target [first];
  (* ignore the first set of steps *)
  idx ← for_each_m (range 0 blankSamples)
          (λ _ idx, _ ← hzetas_store s a epsig idx 0 0 result;
                    mret (idx + 1))
          1;
  (* calculate each step and store *)
  _ ← for_each_m (range 1 samples)
        (λ jdx _, hzetas_store s a epsig (idx + jdx) (jdx - 1) jdx result)
        ();
  if fftformat then helper "resampleContinuous" [-1; -1] [result]
  else mret result.

Definition __lerchitr (lam s a : handle) (n : Z) : M handle :=
  p ← pi;
  h1 ← op "rmul" [2] [p];
  h2 ← op "mul" [n] [h1];
  hzetaexp ← op "mul" [] [h2; lam];
  c ← test "is_complex" [] [lam];
  hzetaexp ← (if c : bool then
                ha ← op "abs" [] [hzetaexp];
                la ← op "abs" [] [lam];
                u ← op "div" [] [lam; la];
                op "mul" [] [ha; u]
              else mret hzetaexp);
  ii ← i;
  rot ← op "mul" [] [hzetaexp; ii];
  e ← op "exp" [] [rot];
  itr ← __hzetaitr s a n;
  op "mul" [] [e; itr].

Definition lerche (fuel : nat) (lam s a res aeps : handle) (maxiter : Z)
  : M handle :=
  epsig ← isigmoid res;
  delta ← __lerchitr lam s a 0;
  ol ← op "ones_like" [] [delta];
  result ← op "mul" [] [ol; delta];
  keepGoing ← ge_mask result aeps;
  st ← while_m fuel (zeta_cond maxiter)
         (λ st,
            lk ← op "mul" [] [lam; z_keepGoing st];
            sk ← op "mul" [] [s; z_keepGoing st];
            delta ← __lerchitr lk sk a (z_idx st);
            result ← blend (z_keepGoing st) delta epsig (z_result st);
            keepGoing ← ge_mask result aeps;
            mret (mkZ delta result keepGoing (z_idx st + 1)))
         (mkZ delta result keepGoing 1);
  mret (z_result st).

(** *** lens.py *)

Definition lens (x lens : handle) (padding dim : Z) : M handle :=
  (* Cast the lens to having something of circular padding *)
  l1 ← op "add_float:1." [] [lens];
  lensSquish ← op "div_float:2." [] [l1];
  lensCast ← convert "to:int64" [] lensSquish [];
  la ← op "abs" [] [lens];
  gt ← op "gt" [1] [la];
  lensClip ← convert "to:int64" [] gt [];
  lensSign ← op "sign" [] [lens];
  (* Apply the clipping *)
  cc ← op "mul" [] [lensCast; lensClip];
  ccs ← op "mul" [] [cc; lensSign];
  d ← op "sub" [] [lensSquish; ccs];
  d2 ← op "mul_float:2." [] [d];
  clippedIntrinsics ← op "sub_float:1." [] [d2];
  (* Add padding to the input signal *)
  xpad ← helper "paddim:circular" [padding; padding; dim] [x];
  (* lensScalar = x.size(dim) / (x.size(dim) + (2. * padding)) *)
  padIntrinsics ← op "mul_size_ratio" [dim; padding] [x; clippedIntrinsics];
  (* Apply the lens through a weighted resample *)
  helper "weightedResample" [dim] [xpad; padIntrinsics].

(** *** math.py and zeta.py: the remaining functions *)

(** A number the host reads off its operands: a size. *)
Variable host_int : string → list Z → list V → Z.

Definition query (name : string) (ints : list Z) (args : list handle)
  : M Z :=
  vs ← read_all args; mret (host_int name ints vs).

Definition xbias (n bias : Z) : M handle :=
  z ← op "zeros" [n] [];
  composer ← op "add_int" [bias] [z];
  _ ← for_each_m (range 0 n)
        (λ i _,
           (* composer[i].add_(i) *)
           e ← view_of "select" [i] composer;
           inplace "add_int_" [i] e [])
        ();
  mret composer.

Definition latticeParams (dims : Z) (basisParam : handle) : M handle :=
  powers ← xbias dims 0;
  np ← op "neg" [] [powers];
  op "pow" [] [basisParam; np].

Definition primishvals (fuel : nat) (n : Z) (base : handle)
    (gaussApprox : bool) : M handle :=
  (* Not in the 6x -+ 1 domain, or starting domain *)
  short ← test "size_last_lt" [3] [base];
  base ← (if short : bool then
            b ← op "ones_of_dtype" [3] [base];
            b1 ← view_of "select" [1] b;
            b0 ← view_of "select" [0] b;
            _ ← inplace "add_" [] b1 [b0];
            b2 ← view_of "select" [2] b;
            _ ← inplace "add_" [] b2 [b1];
            mret b
          else mret base);
  enough ← test "size_last_ge" [n] [base];
  if enough : bool then view_of "slice_to" [n] base else
  (* Construct the output values *)
  z ← op "zeros:int64" [n] [];
  result ← view_of "detach" [] z;
  blen ← query "size_last" [] [base];
  target ← view_of "slice_to" [blen] result;
  _ ← inplace "copy_" [] target [base];
  (* Compute every needed 6x -+ 1 value *)
  _ ← while_m fuel (λ st : Z * Z, mret (st.1 <? n))
        (λ st,
           let itr := st.1 in
           let pitr := st.2 in
           target ← view_of "select" [itr] result;
           _ ← (if negb (Z.land itr 1 =? 0) then
                  if gaussApprox
                  then inplace "fill_" [wrap64 (wrap64 (4 * pitr) + 1)]
                         target []
                  else inplace "fill_" [wrap64 (wrap64 (6 * pitr) - 1)]
                         target []
                else
                  prev ← view_of "select" [itr - 1] result;
                  v ← op "add_int" [2] [prev];
                  inplace "copy_" [] target [v]);
           let itr := wrap64 (itr + 1) in
           mret (itr, next_pitr itr))
        (blen, next_pitr blen);
  mret result.

Definition hmean (x : handle) (dim : Z) : M handle :=
  (* Turn all the values to their -1 power *)
  invx ← op "rdiv_float:1." [] [x];
  (* vals = x.size()[dim] *)
  indexed ← test "size_has_index" [dim] [x];
  _ ← raise_if (negb indexed) IndexOutOfBounds;
  (* Calculate the harmonic mean *)
  sm ← op "sum" [dim] [invx];
  op "rdiv_size" [dim] [x; sm].

Definition harmonicvals (n : Z) (nosum addzero : bool) : M handle :=
  _ ← raise_if (n <? 1) ShapeAssertion;
  let zeroint := of_bool addzero in
  xb ← xbias (n + zeroint) (1 - zeroint);
  factors ← op "rdiv_float:1." [] [xb];
  if nosum then mret factors else
  _ ← inplace "unsqueeze_" [0] factors [];
  (* Turn the values into a big triangle *)
  ones ← op "ones" [n; 1] [];
  mm ← op "matmul" [] [ones; factors];
  composition ← op "triu" [0] [mm];
  (* Sum the triangle together *)
  tr ← view_of "transpose" [-1; -2] composition;
  op "sum" [-1] [tr].

(** [__lerchitr(lam, s, a, n) + (epsig * result[..., j])], assigned to
    [result[..., j']]. *)
Definition lerchs_store (lam s a epsig : handle) (n j j' : Z)
    (result : handle) : M () :=
  v ← __lerchitr lam s a n;
  prev ← view_of "select_last" [j] result;
  er ← op "mul" [] [epsig; prev];
  v ← op "add" [] [v; er];
  target ← view_of "select_last" [j'] result;
  inplace "copy_" [] target [v].

Definition lerchs (lam s a res : handle) (blankSamples samples : Z)
    (fftloss : bool) : M handle :=
  (* the result has the size of the input with the sample channels *)
  us ← view_of "unsqueeze" [-1] s;
  z ← op "zeros" [1; samples] [s];
  mm ← op "matmul" [] [us; z];
  result ← toComplex mm;
  (* running parameters *)
  epsig ← isigmoid res;
  (* the first sample *)
  first ← __lerchitr lam s a 0;
  target ← view_of "select_last" [0] result;
  _ ← inplace "copy_" [] target [first];
  (* ignore the first blank steps *)
  idx ← for_each_m (range 0 blankSamples)
          (λ _ idx, _ ← lerchs_store lam s a epsig idx 0 0 result;
                    mret (idx + 1))
          1;
  (* calculate each step then store *)
  _ ← for_each_m (range 1 samples)
        (λ jdx _, lerchs_store lam s a epsig (idx + jdx) (jdx - 1) jdx
                    result)
        ();
  if fftloss then helper "resampleContinuous" [-1; -1] [result]
  else mret result.

(** *** Frames *)

(** Every storage below [n] is in [σ'] what it is in [σ]. *)
Definition frame (n : nat) (σ σ' : list V) : Prop :=
  (length σ ≤ length σ')%nat ∧ ∀ k, (k < n)%nat → σ' !! k = σ !! k.

(** A tensor on a storage allocated at or after [n]. *)
Definition fresh (n : nat) (h : handle) : Prop := (n ≤ sid h)%nat.

(** [m] leaves the storages below [n] alone, and its result satisfies
    [Q]. *)
Definition safe {A} (n : nat) (m : M A) (Q : A → Prop) : Prop :=
  ∀ σ, (n ≤ length σ)%nat →
       frame n σ (m σ).2 ∧ ∀ a, (m σ).1 = Some (Ok a) → Q a.

(** [m] changes no storage that exists when it starts: the contents and
    the shape of every tensor the caller holds stay as they are. *)
Definition pure_on_store {A} (m : M A) : Prop :=
  ∀ σ k, (k < length σ)%nat → (m σ).2 !! k = σ !! k.

(** The tensor [m] returns lives on a storage allocated during the call:
    it shares no storage with a tensor the caller held before. *)
Definition returns_fresh (m : M handle) : Prop :=
  ∀ σ h, (m σ).1 = Some (Ok h) → (length σ ≤ sid h)%nat.
End Storage.
End Eff.

(* ================================================================= *)
(** * Properties *)

(** ** Shapes and broadcasting *)

Lemma numel_cons n sh : numel (n :: sh) = n * numel sh.
Proof. reflexivity. Qed.

Lemma numel_app a b : numel (a ++ b) = numel a * numel b.
Proof. induction a as [|n a IH]; simpl; [lia | rewrite IH; lia]. Qed.

Lemma numel_replicate_1 k : numel (replicate k 1) = 1.
Proof. induction k; simpl; lia. Qed.

Lemma numel_lift1 sh : numel (lift1 sh) = numel sh.
Proof. by destruct sh. Qed.

Lemma lift1_idemp sh : lift1 (lift1 sh) = lift1 sh.
Proof. by destruct sh. Qed.

Lemma lift1_cons n sh : lift1 (n :: sh) = n :: sh.
Proof. done. Qed.

Lemma bdim_diag x : bdim x x = Some x.
Proof. unfold bdim. by rewrite Nat.eqb_refl. Qed.

Lemma bdim_one_r x : bdim x 1 = Some x.
Proof.
  unfold bdim. destruct (x =? 1) eqn:E; [done|]. by rewrite Nat.eqb_refl.
Qed.

Lemma bdim_one_l x : bdim 1 x = Some x.
Proof.
  unfold bdim. destruct (1 =? x) eqn:E.
  - apply Nat.eqb_eq in E. by subst.
  - by rewrite Nat.eqb_refl.
Qed.

Lemma bshape_rev_nil_r a : bshape_rev a [] = Some a.
Proof. by destruct a. Qed.

Lemma bshape_rev_diag a : bshape_rev a a = Some a.
Proof. induction a as [|x a IH]; simpl; [done|]. by rewrite bdim_diag, IH. Qed.

Lemma broadcast_shapes_diag a : broadcast_shapes a a = Some a.
Proof.
  unfold broadcast_shapes. rewrite bshape_rev_diag. simpl.
  by rewrite reverse_involutive.
Qed.

Lemma broadcast_shapes_nil_l a : broadcast_shapes [] a = Some a.
Proof.
  unfold broadcast_shapes. simpl. by rewrite reverse_involutive.
Qed.

Lemma broadcast_shapes_nil_r a : broadcast_shapes a [] = Some a.
Proof.
  unfold broadcast_shapes. change (reverse []) with (@nil nat).
  rewrite bshape_rev_nil_r. simpl. by rewrite reverse_involutive.
Qed.

Lemma broadcast_shapes_one_r a : broadcast_shapes a [1] = Some (lift1 a).
Proof.
  destruct (reverse a) as [|y b] eqn:E.
  - apply (f_equal reverse) in E. rewrite reverse_involutive in E. by subst.
  - unfold broadcast_shapes. rewrite E. change (reverse [1]) with [1].
    simpl. rewrite bdim_one_r, bshape_rev_nil_r. simpl.
    rewrite <- E, reverse_involutive.
    destruct a; [done|done].
Qed.

Lemma broadcast_shapes_one_l a : broadcast_shapes [1] a = Some (lift1 a).
Proof.
  destruct (reverse a) as [|y b] eqn:E.
  - apply (f_equal reverse) in E. rewrite reverse_involutive in E. by subst.
  - unfold broadcast_shapes. rewrite E. change (reverse [1]) with [1].
    simpl. rewrite bdim_one_l. simpl.
    rewrite <- E, reverse_involutive.
    destruct a; [done|done].
Qed.

Lemma broadcast_shapes_lift1_r a : broadcast_shapes a (lift1 a) = Some (lift1 a).
Proof. destruct a; [done|]. apply broadcast_shapes_diag. Qed.

Lemma broadcast_shapes_lift1_l a : broadcast_shapes (lift1 a) a = Some (lift1 a).
Proof. destruct a; [done|]. apply broadcast_shapes_diag. Qed.

(** Shapes that fit a common shape always broadcast, and the result fits. *)
Lemma fits_broadcast sh x y :
  fits sh x → fits sh y → ∃ z, broadcast_shapes x y = Some z ∧ fits sh z.
Proof.
  unfold fits.
  intros [->|[->|[->| ->]]] [->|[->|[->| ->]]];
    rewrite ?broadcast_shapes_diag, ?broadcast_shapes_nil_l,
      ?broadcast_shapes_nil_r, ?broadcast_shapes_one_l,
      ?broadcast_shapes_one_r, ?broadcast_shapes_lift1_l,
      ?broadcast_shapes_lift1_r, ?lift1_idemp;
    eexists; (split; [reflexivity|]); simpl; auto.
Qed.

(* ================================================================= *)
(** ** Expansion and element-wise pairing *)

Lemma chunks_concat {A} k n (d : list A) :
  length d = n * k → concat (chunks k n d) = d.
Proof.
  revert d. induction n as [|n IH]; intros d Hd; simpl.
  - by destruct d.
  - rewrite IH; [apply take_drop|]. rewrite length_drop. lia.
Qed.

Lemma chunks_length {A} k n (d : list A) :
  length d = n * k → Forall (λ c, length c = k) (chunks k n d).
Proof.
  revert d. induction n as [|n IH]; intros d Hd; simpl; constructor.
  - rewrite length_take. lia.
  - apply IH. rewrite length_drop. lia.
Qed.

Lemma expand_same {A} sh (d : list A) :
  length d = numel sh → expand sh sh d = d.
Proof.
  revert d. induction sh as [|n sh IH]; intros d Hd; simpl; [done|].
  rewrite Nat.eqb_refl. rewrite numel_cons in Hd.
  rewrite <- (chunks_concat (numel sh) n d) at 2 by done.
  f_equal. rewrite <- (list_fmap_id (chunks _ _ _)) at 2.
  apply Forall_fmap_ext_1. eapply Forall_impl; [by apply chunks_length|].
  simpl. intros c Hc. by apply IH.
Qed.

Lemma concat_replicate_replicate {A} m k (p : A) :
  concat (replicate m (replicate k p)) = replicate (m * k) p.
Proof.
  induction m as [|m IH]; simpl; [done|]. by rewrite IH, replicate_add.
Qed.

Lemma expand_ones {A} sh bs (p : A) :
  Forall (λ n, n = 1) sh → length sh = length bs →
  expand sh bs [p] = replicate (numel bs) p.
Proof.
  revert bs. induction sh as [|n sh IH]; intros [|m bs] Hall Hlen;
    simplify_eq/=; [done|].
  apply Forall_cons in Hall as [-> Hall].
  assert (numel sh = 1) as Hn.
  { clear -Hall. induction Hall; simpl; [done|]. subst. lia. }
  destruct (1 =? m) eqn:E.
  - apply Nat.eqb_eq in E. subst m. rewrite Hn. simpl.
    rewrite app_nil_r, IH by done. f_equal. lia.
  - rewrite IH by done. apply concat_replicate_replicate.
Qed.

(** A tensor whose elements already lie as the broadcast shape wants them. *)
Lemma expand_to_same {A} sh (d : list A) :
  length d = numel sh → expand_to sh (mkT sh d) = d.
Proof.
  intros Hw. unfold expand_to. simpl. rewrite Nat.sub_diag. simpl.
  by apply expand_same.
Qed.

Lemma expand_to_lift1 {A} sh (d : list A) :
  length d = numel sh → expand_to (lift1 sh) (mkT sh d) = d.
Proof.
  intros Hw. destruct sh as [|n sh].
  - unfold expand_to. simpl. by apply (expand_same [1]).
  - by apply expand_to_same.
Qed.

Lemma expand_to_single {A} bs sh (p : A) :
  sh = [] ∨ sh = [1] → bs ≠ [] ∨ sh = [] →
  expand_to bs (mkT sh [p]) = replicate (numel bs) p.
Proof.
  intros Hsh Hbs. unfold expand_to. simpl. apply expand_ones.
  - apply Forall_app. split; [apply Forall_replicate; done|].
    destruct Hsh as [-> | ->]; repeat constructor.
  - rewrite length_app, length_replicate.
    destruct Hsh as [-> | ->]; simpl; [lia|].
    destruct Hbs as [Hbs|?]; [|done]. destruct bs; [done|]. simpl. lia.
Qed.

(** ** Elementwise operations *)

Lemma tzip_eq {A B C} (f : A → B → C) a b bs :
  broadcast_shapes (shape a) (shape b) = Some bs →
  tzip f a b = Ok (mkT bs (zip_with f (expand_to bs a) (expand_to bs b))).
Proof. unfold tzip. by intros ->. Qed.

(** Tensors over the elements of one tensor of shape [sh]: their shape is
    [sh], or [lift1 sh] once a one-element constant took part. *)

Lemma tzip_over {A B C} (f : A → B → C) sh b1 b2 d1 d2 :
  length d1 = numel sh → length d2 = numel sh →
  tzip f (mkT (sh_of sh b1) d1) (mkT (sh_of sh b2) d2)
  = Ok (mkT (sh_of sh (b1 || b2)) (zip_with f d1 d2)).
Proof.
  intros H1 H2.
  destruct b1, b2; simpl.
  - erewrite tzip_eq by apply broadcast_shapes_diag.
    by rewrite !expand_to_same by (by rewrite numel_lift1).
  - erewrite tzip_eq by apply broadcast_shapes_lift1_l.
    rewrite expand_to_same by (by rewrite numel_lift1).
    by rewrite expand_to_lift1.
  - erewrite tzip_eq by apply broadcast_shapes_lift1_r.
    rewrite expand_to_same by (by rewrite numel_lift1).
    by rewrite expand_to_lift1.
  - erewrite tzip_eq by apply broadcast_shapes_diag.
    by rewrite !expand_to_same.
Qed.

Lemma expand_to_sh_of {A} sh b (d : list A) :
  length d = numel sh → expand_to (lift1 sh) (mkT (sh_of sh b) d) = d.
Proof.
  intros Hd. destruct b; simpl.
  - apply expand_to_same. by rewrite numel_lift1.
  - by apply expand_to_lift1.
Qed.

Lemma lift1_sh_of sh b : lift1 (sh_of sh b) = lift1 sh.
Proof. destruct b; simpl; [apply lift1_idemp|done]. Qed.

Lemma tzip_over_const_r {A B C} (f : A → B → C) sh b1 d1 p :
  length d1 = numel sh →
  tzip f (mkT (sh_of sh b1) d1) (mkT [1] [p])
  = Ok (mkT (lift1 sh) ((λ v, f v p) <$> d1)).
Proof.
  intros H1.
  unfold tzip. cbn [shape]. rewrite broadcast_shapes_one_r, lift1_sh_of.
  rewrite expand_to_sh_of by done.
  rewrite expand_to_single; [|by right|left; by destruct sh].
  rewrite numel_lift1. by rewrite zip_with_replicate_r_eq.
Qed.

Lemma tzip_over_const_l {A B C} (f : A → B → C) sh b2 d2 p :
  length d2 = numel sh →
  tzip f (mkT [1] [p]) (mkT (sh_of sh b2) d2)
  = Ok (mkT (lift1 sh) (f p <$> d2)).
Proof.
  intros H2.
  unfold tzip. cbn [shape]. rewrite broadcast_shapes_one_l, lift1_sh_of.
  rewrite expand_to_sh_of by done.
  rewrite expand_to_single; [|by right|left; by destruct sh].
  rewrite numel_lift1. by rewrite zip_with_replicate_l by lia.
Qed.

Lemma zip_with_fmap_diag {A B C D} (f : B → C → D) (g : A → B) (h : A → C) l :
  zip_with f (g <$> l) (h <$> l) = (λ v, f (g v) (h v)) <$> l.
Proof. induction l; simpl; [done|]. by f_equal. Qed.

(* ================================================================= *)
(** ** The activation kernels, element by element *)

Lemma bind_Ok {A B} (a : A) (k : A → exc B) : (Ok a ≫= k) = k a.
Proof. reflexivity. Qed.

Lemma fmap_Ok {A B} (f : A → B) (a : A) : f <$> Ok a = Ok (f a).
Proof. reflexivity. Qed.

Lemma tmap_mkT {A B} (f : A → B) sh d : tmap f (mkT sh d) = mkT sh (f <$> d).
Proof. reflexivity. Qed.

Lemma tzip_same {A B C} (f : A → B → C) sh d1 d2 :
length d1 = numel sh → length d2 = numel sh →
tzip f (mkT sh d1) (mkT sh d2) = Ok (mkT sh (zip_with f d1 d2)).
Proof. apply (tzip_over f sh false false). Qed.

Lemma tzip_lift_r {A B C} (f : A → B → C) sh d1 d2 :
length d1 = numel sh → length d2 = numel sh →
tzip f (mkT sh d1) (mkT (lift1 sh) d2) = Ok (mkT (lift1 sh) (zip_with f d1 d2)).
Proof. apply (tzip_over f sh false true). Qed.

Lemma tzip_lift_l {A B C} (f : A → B → C) sh d1 d2 :
length d1 = numel sh → length d2 = numel sh →
tzip f (mkT (lift1 sh) d1) (mkT sh d2) = Ok (mkT (lift1 sh) (zip_with f d1 d2)).
Proof. apply (tzip_over f sh true false). Qed.

Lemma tzip_lift_lift {A B C} (f : A → B → C) sh d1 d2 :
length d1 = numel sh → length d2 = numel sh →
tzip f (mkT (lift1 sh) d1) (mkT (lift1 sh) d2)
= Ok (mkT (lift1 sh) (zip_with f d1 d2)).
Proof. apply (tzip_over f sh true true). Qed.

Lemma tzip_const_r {A B C} (f : A → B → C) sh d1 p :
length d1 = numel sh →
tzip f (mkT sh d1) (mkT [1] [p]) = Ok (mkT (lift1 sh) ((λ v, f v p) <$> d1)).
Proof. apply (tzip_over_const_r f sh false). Qed.

Lemma tzip_const_l {A B C} (f : A → B → C) sh d2 p :
length d2 = numel sh →
tzip f (mkT [1] [p]) (mkT sh d2) = Ok (mkT (lift1 sh) (f p <$> d2)).
Proof. apply (tzip_over_const_l f sh false). Qed.

Lemma view_as_complex_same {A} sh (d1 d2 : list A) :
view_as_complex (mkT sh d1) (mkT sh d2) = Ok (mkT sh (zip_with pair d1 d2)).
Proof. unfold view_as_complex. simpl. by rewrite decide_True. Qed.

Lemma fmap_fmap {A B C} (f : B → C) (g : A → B) (l : list A) :
f <$> (g <$> l) = (λ v, f (g v)) <$> l.
Proof. by rewrite <- list_fmap_compose. Qed.

Ltac len := rewrite ?length_fmap, ?length_imap, ?length_fmap; assumption.

Ltac tensor_step :=
first
  [ rewrite bind_Ok
  | rewrite fmap_Ok
  | rewrite tmap_mkT
  | rewrite list_fmap_singleton
  | rewrite fmap_fmap
  | rewrite zip_with_fmap_diag
  | rewrite view_as_complex_same
  | rewrite tzip_same by len
  | rewrite tzip_lift_lift by len
  | rewrite tzip_lift_r by len
  | rewrite tzip_lift_l by len
  | rewrite tzip_const_r by len
  | rewrite tzip_const_l by len ].

Section MathProps.
Context {F : Type} `{HostNum F}.

Lemma isigmoid_complex_spec sh (l : list (F * F)) :
  length l = numel sh →
  isigmoid_complex (mkT sh l) = Ok (mkT (lift1 sh) (isigmoid_elem <$> l)).
Proof.
  intros Hl. unfold isigmoid_complex, pi, t_sigmoid, t_cos.
  repeat tensor_step. reflexivity.
Qed.

Lemma isigmoid_spec_complex sh (l : list (F * F)) :
  length l = numel sh →
  isigmoid (TCplx (mkT sh l))
  = Ok (TCplx (mkT (lift1 sh) (isigmoid_elem <$> l))).
Proof. intros Hl. unfold isigmoid. by rewrite isigmoid_complex_spec. Qed.

Lemma icos_spec_complex sh (l : list (F * F)) :
  length l = numel sh →
  icos (TCplx (mkT sh l)) = Ok (TCplx (mkT (lift1 sh) (icos_elem <$> l))).
Proof.
  intros Hl. unfold icos, i, t_cos. repeat tensor_step. reflexivity.
Qed.

Lemma isin_spec_complex sh (l : list (F * F)) :
  length l = numel sh →
  isin (TCplx (mkT sh l)) = Ok (TCplx (mkT (lift1 sh) (isin_elem <$> l))).
Proof.
  intros Hl. unfold isin, i, t_sin. repeat tensor_step. reflexivity.
Qed.

(** Each complex activation is one function applied at every position. *)
Lemma pointwise_elem (f : Tensor F → exc (Tensor F)) (g : F → F)
    (h : F * F → F * F) (x y : Tensor F) (k : nat) :
  (∀ r, f (TReal r) = Ok (TReal (tmap g r))) →
  (∀ sh l, length l = numel sh →
     f (TCplx (mkT sh l)) = Ok (TCplx (mkT (lift1 sh) (h <$> l)))) →
  is_complex x = is_complex y → wfT x → wfT y →
  elem_at x k = elem_at y k →
  ∃ fx fy, f x = Ok fx ∧ f y = Ok fy ∧ elem_at fx k = elem_at fy k.
Proof.
  intros Hr Hc Hd Hx Hy Hk.
  destruct x as [[sx lx]|[sx lx]], y as [[sy ly]|[sy ly]]; try done;
    simpl in *.
  - rewrite !Hr. do 2 eexists. split; [done|]. split; [done|]. simpl.
    rewrite !list_lookup_fmap.
    destruct (lx !! k), (ly !! k); simplify_eq/=; done.
  - rewrite !Hc by done. do 2 eexists. split; [done|]. split; [done|].
    simpl. rewrite !list_lookup_fmap.
    destruct (lx !! k), (ly !! k); simplify_eq/=; done.
Qed.

(** C8: [icos], [isin] and [isigmoid] are elementwise: tensors of one
    dtype that agree at a position have results that agree there. *)
Theorem activations_elementwise (x y : Tensor F) (k : nat) :
  size x = size y → is_complex x = is_complex y → wfT x → wfT y →
  elem_at x k = elem_at y k →
  (∃ cx cy, icos x = Ok cx ∧ icos y = Ok cy ∧ elem_at cx k = elem_at cy k)
  ∧ (∃ sx sy, isin x = Ok sx ∧ isin y = Ok sy
              ∧ elem_at sx k = elem_at sy k)
  ∧ (∃ gx gy, isigmoid x = Ok gx ∧ isigmoid y = Ok gy
              ∧ elem_at gx k = elem_at gy k).
Proof.
  intros _ Hd Hx Hy Hk. repeat split.
  - by apply (pointwise_elem icos fcos icos_elem);
      [done|apply icos_spec_complex|..].
  - by apply (pointwise_elem isin fsin isin_elem);
      [done|apply isin_spec_complex|..].
  - by apply (pointwise_elem isigmoid fsigmoid isigmoid_elem);
      [done|apply isigmoid_spec_complex|..].
Qed.
End MathProps.

(* ================================================================= *)
(** ** Broadcasting keeps tensors well formed *)

Lemma bdim_stretches x y d :
  bdim x y = Some d → stretches x d ∧ stretches y d.
Proof.
  unfold bdim, stretches. destruct (x =? y) eqn:E1.
  { apply Nat.eqb_eq in E1. intros [= <-]. subst. auto. }
  destruct (x =? 1) eqn:E2.
  { apply Nat.eqb_eq in E2. intros [= <-]. auto. }
  destruct (y =? 1) eqn:E3; [|done].
  apply Nat.eqb_eq in E3. intros [= <-]. auto.
Qed.

Lemma Forall2_stretches_refl a : Forall2 stretches a a.
Proof. induction a; constructor; [by left|done]. Qed.

Lemma Forall2_stretches_ones k b :
  k = length b → Forall2 stretches (replicate k 1) b.
Proof.
  intros ->. induction b; simpl; constructor; [by right|done].
Qed.

Lemma bshape_rev_stretches a b r :
  bshape_rev a b = Some r →
  Forall2 stretches (a ++ replicate (length r - length a) 1) r
  ∧ Forall2 stretches (b ++ replicate (length r - length b) 1) r.
Proof.
  revert b r. induction a as [|x a IH]; intros b r; simpl.
  - intros [= <-]. rewrite Nat.sub_0_r, Nat.sub_diag, app_nil_r. split.
    + by apply Forall2_stretches_ones.
    + apply Forall2_stretches_refl.
  - destruct b as [|y b].
    + intros [= <-]. simpl. rewrite Nat.sub_diag, app_nil_r. split.
      * apply Forall2_stretches_refl.
      * by apply (Forall2_stretches_ones (S (length a)) (x :: a)).
    + destruct (bdim x y) as [d|] eqn:Ed; [|done].
      destruct (bshape_rev a b) as [r'|] eqn:Er; [|done].
      intros [= <-]. apply bdim_stretches in Ed as [Hx Hy].
      destruct (IH _ _ Er) as [Ha Hb]. simpl. split; by constructor.
Qed.

Lemma Forall2_reverse_intro {A B} (P : A → B → Prop) l k :
  Forall2 P l k → Forall2 P (reverse l) (reverse k).
Proof.
  induction 1 as [|x y l k Hxy Hlk IH]; [constructor|].
  rewrite !reverse_cons. apply Forall2_app; [done|]. by repeat constructor.
Qed.

Lemma reverse_replicate {A} k (x : A) :
  reverse (replicate k x) = replicate k x.
Proof.
  induction k as [|k IH]; [done|]. simpl. rewrite reverse_cons, IH.
  clear. induction k; simpl; [done|]. by f_equal.
Qed.

(** The shapes that [broadcast_shapes] accepts stretch to its result. *)
Lemma broadcast_shapes_stretches a b bs :
  broadcast_shapes a b = Some bs →
  Forall2 stretches (replicate (length bs - length a) 1 ++ a) bs
  ∧ Forall2 stretches (replicate (length bs - length b) 1 ++ b) bs.
Proof.
  unfold broadcast_shapes.
  destruct (bshape_rev (reverse a) (reverse b)) as [r|] eqn:Er; [|done].
  simpl. intros [= <-]. apply bshape_rev_stretches in Er as [Ha Hb].
  rewrite !length_reverse in *.
  apply Forall2_reverse_intro in Ha, Hb.
  by rewrite reverse_app, reverse_replicate, reverse_involutive in Ha, Hb.
Qed.

Lemma length_concat_uniform {A} (ls : list (list A)) c :
  Forall (λ l, length l = c) ls → length (concat ls) = length ls * c.
Proof.
  induction 1 as [|l ls Hl Hls IH]; simpl; [done|].
  rewrite length_app, IH, Hl. lia.
Qed.

Lemma length_chunks {A} k n (d : list A) : length (chunks k n d) = n.
Proof. revert d. induction n; intros d; simpl; [done|]. by rewrite IHn. Qed.

Lemma expand_length {A} sh bs (d : list A) :
  Forall2 stretches sh bs → length d = numel sh →
  length (expand sh bs d) = numel bs.
Proof.
  intros Hs. revert d. induction Hs as [|n m sh bs Hnm Hs IH]; intros d Hd;
    simpl in *; [done|].
  destruct (n =? m) eqn:E.
  - apply Nat.eqb_eq in E. subst m.
    rewrite (length_concat_uniform _ (numel bs)).
    + by rewrite length_fmap, length_chunks.
    + apply Forall_fmap. eapply Forall_impl; [by apply chunks_length|].
      simpl. intros c Hc. by apply IH.
  - destruct Hnm as [->| ->]; [by rewrite Nat.eqb_refl in E|].
    rewrite (length_concat_uniform _ (numel bs)).
    + by rewrite length_replicate.
    + apply Forall_replicate. apply IH. lia.
Qed.

Lemma expand_to_length {A} bs (t : tensor A) other :
  (broadcast_shapes (shape t) other = Some bs
   ∨ broadcast_shapes other (shape t) = Some bs) →
  wf t → length (expand_to bs t) = numel bs.
Proof.
  intros Hbs Hw. unfold expand_to. apply expand_length.
  - destruct Hbs as [Hbs|Hbs];
      apply broadcast_shapes_stretches in Hbs as [? ?]; done.
  - rewrite numel_app, numel_replicate_1. unfold wf in Hw. lia.
Qed.

Lemma tzip_wf {A B C} (f : A → B → C) a b c :
  wf a → wf b → tzip f a b = Ok c → wf c.
Proof.
  intros Ha Hb. unfold tzip.
  destruct (broadcast_shapes (shape a) (shape b)) as [bs|] eqn:E; [|done].
  intros [= <-]. unfold wf. simpl. rewrite length_zip_with.
  rewrite (expand_to_length bs a (shape b)), (expand_to_length bs b (shape a));
    auto. lia.
Qed.

Lemma tzip_shape {A B C} (f : A → B → C) a b c :
  tzip f a b = Ok c → broadcast_shapes (shape a) (shape b) = Some (shape c).
Proof.
  unfold tzip. destruct (broadcast_shapes _ _); [|done]. by intros [= <-].
Qed.

(* ================================================================= *)
(** ** Channels: [t[..., j]] and [t[..., j] = v] *)

Section Channels.
Context {F : Type} `{HostNum F}.

Lemma removelast_snoc {A} (l : list A) x : removelast (l ++ [x]) = l.
Proof. apply removelast_last. Qed.

Lemma get_channel_eq sl n (d : list (F * F)) j :
  j < n →
  get_channel (mkT (sl ++ [n]) d) j
  = Ok (mkT sl ((λ p, nth (p * n + j) d czero) <$> seq 0 (numel sl))).
Proof.
  intros Hj. unfold get_channel. cbn [shape data].
  rewrite last_snoc, removelast_snoc. simpl.
  apply Nat.ltb_lt in Hj. by rewrite Hj.
Qed.

Lemma set_channel_eq sl n (d : list (F * F)) j v :
  j < n → broadcast_shapes (strip_ones (size v)) sl = Some sl →
  set_channel (mkT (sl ++ [n]) d) j v
  = Ok (mkT (sl ++ [n]) (imap (put_channel n j (data (slice_value sl v))) d)).
Proof.
  intros Hj Hb. unfold set_channel. cbv zeta. cbn [shape data].
  rewrite last_snoc, removelast_snoc. simpl.
  destruct (Nat.ltb_spec j n); [|lia]. by rewrite decide_True.
Qed.

Lemma channel_index p n j len :
  j < n → p < len → p * n + j < len * n.
Proof. intros Hj Hp. nia. Qed.

Lemma nth_put_same n j vd (d : list (F * F)) p :
  j < n → p < length vd → p * n + j < length d →
  nth (p * n + j) (imap (put_channel n j vd) d) czero = nth p vd czero.
Proof.
  intros Hj Hp Hd. rewrite !nth_lookup, list_lookup_imap.
  destruct (lookup_lt_is_Some_2 d (p * n + j) Hd) as [x ->].
  destruct (lookup_lt_is_Some_2 vd p Hp) as [y Hy]. simpl.
  unfold put_channel.
  assert ((p * n + j) mod n = j) as Hm.
  { rewrite Nat.add_comm, Nat.Div0.mod_add. by apply Nat.mod_small. }
  assert ((p * n + j) / n = p) as Hq.
  { rewrite Nat.add_comm, Nat.div_add by lia.
    rewrite Nat.div_small by done. lia. }
  rewrite decide_True by done. by rewrite Hq, nth_lookup, Hy.
Qed.

Lemma nth_put_other n j j' vd (d : list (F * F)) p :
  j' < n → j' ≠ j →
  nth (p * n + j') (imap (put_channel n j vd) d) czero
  = nth (p * n + j') d czero.
Proof.
  intros Hj Hne. rewrite !nth_lookup, list_lookup_imap.
  destruct (d !! (p * n + j')) as [x|]; [|done]. simpl.
  unfold put_channel.
  assert ((p * n + j') mod n = j') as Hm.
  { rewrite Nat.add_comm, Nat.Div0.mod_add. by apply Nat.mod_small. }
  by rewrite decide_False by lia.
Qed.

Lemma fmap_nth_seq (l : list (F * F)) :
  (λ p, nth p l czero) <$> seq 0 (length l) = l.
Proof.
  apply list_eq. intros p. rewrite list_lookup_fmap.
  destruct (decide (p < length l)) as [Hp|Hp].
  - rewrite lookup_seq_lt by done. simpl.
    destruct (lookup_lt_is_Some_2 l p Hp) as [y Hy].
    by rewrite nth_lookup, Hy.
  - rewrite lookup_seq_ge by lia. simpl. symmetry.
    apply lookup_ge_None. lia.
Qed.

(** Reading the channel that was just assigned gives the assigned value. *)
Lemma get_put_same sl n j vd (d : list (F * F)) :
  j < n → length vd = numel sl → length d = numel sl * n →
  (λ p, nth (p * n + j) (imap (put_channel n j vd) d) czero)
    <$> seq 0 (numel sl)
  = vd.
Proof.
  intros Hj Hv Hd. etrans; [|apply (fmap_nth_seq vd)]. rewrite Hv.
  apply list_fmap_ext. intros k p Hp.
  apply lookup_seq in Hp as [-> Hp]. simpl.
  apply nth_put_same; [done|lia|]. rewrite Hd. by apply channel_index.
Qed.

(** The other channels keep what they held. *)
Lemma get_put_other sl n j j' vd (d : list (F * F)) :
  j' < n → j' ≠ j →
  (λ p, nth (p * n + j') (imap (put_channel n j vd) d) czero)
    <$> seq 0 (numel sl)
  = (λ p, nth (p * n + j') d czero) <$> seq 0 (numel sl).
Proof.
  intros Hj Hne. apply list_fmap_ext. intros k p _.
  by apply nth_put_other.
Qed.
End Channels.

(* ================================================================= *)
(** ** Loops *)

Section WhileLoop.
Context {St : Type} (cond : St → bool) (body : St → exc St).

(** A loop whose body lowers a measure that is positive whenever the
    condition holds finishes within that many iterations. *)
Lemma while_loop_terminates (μ : St → nat) fuel st n :
  (∀ st, cond st = true → 0 < μ st) →
  (∀ st st', cond st = true → body st = Ok st' → μ st' < μ st) →
  μ st ≤ fuel →
  ∃ r, while_loop fuel cond body st n = Some r
       ∧ ∀ st' n', r = Ok (st', n') → n' ≤ n + μ st.
Proof.
  intros Hpos Hdec. revert st n.
  induction fuel as [|fuel IH]; intros st n Hfuel; simpl.
  - destruct (cond st) eqn:Hc.
    + specialize (Hpos _ Hc). lia.
    + eexists. split; [done|]. intros ?? [= <- <-]. lia.
  - destruct (cond st) eqn:Hc.
    + destruct (body st) as [st'|e] eqn:Hb.
      * specialize (Hdec _ _ Hc Hb).
        destruct (IH st' (S n)) as (r & Hr & Hn); [lia|].
        exists r. split; [done|]. intros st'' n' ->.
        specialize (Hn _ _ eq_refl). lia.
      * eexists. split; [done|]. done.
    + eexists. split; [done|]. intros ?? [= <- <-]. lia.
Qed.

(** What a finished loop went through: the body ran [k] times in a row,
    the condition held before each run and fails at the end. *)
Lemma while_loop_trace fuel st0 n0 st n :
  while_loop fuel cond body st0 n0 = Some (Ok (st, n)) →
  ∃ k, n = n0 + k
       ∧ iter_body k body st0 = Ok st
       ∧ cond st = false
       ∧ ∀ j, j < k → ∃ stj, iter_body j body st0 = Ok stj ∧ cond stj = true.
Proof.
  revert st0 n0. induction fuel as [|fuel IH]; intros st0 n0; simpl.
  - destruct (cond st0) eqn:Hc; [done|]. intros [= <- <-].
    exists 0. repeat split; [lia|done|]. intros j Hj. lia.
  - destruct (cond st0) eqn:Hc.
    + destruct (body st0) as [st1|e] eqn:Hb; [|done]. intros Hrun.
      destruct (IH _ _ Hrun) as (k & -> & Hit & Hend & Hpre).
      exists (S k). repeat split; [lia| |done|].
      * simpl. by rewrite Hb.
      * intros [|j] Hj; [by exists st0|].
        destruct (Hpre j) as (stj & Hj1 & Hj2); [lia|].
        exists stj. simpl. by rewrite Hb.
    + intros [= <- <-]. exists 0. repeat split; [lia|done|].
      intros j Hj. lia.
Qed.

(** A body that keeps an invariant and cannot fail under it makes the
    loop finish without an exception. *)
Lemma while_loop_ok (Inv : St → Prop) fuel st n r :
  (∀ st, Inv st → ∃ st', body st = Ok st' ∧ Inv st') →
  Inv st →
  while_loop fuel cond body st n = Some r →
  ∃ st' n', r = Ok (st', n').
Proof.
  intros Hinv. revert st n. induction fuel as [|fuel IH]; intros st n Hst;
    simpl.
  - destruct (cond st); [done|]. intros [= <-]. eauto.
  - destruct (cond st); [|intros [= <-]; eauto].
    destruct (Hinv _ Hst) as (st' & -> & Hst'). by apply IH.
Qed.

Lemma iter_body_inv (Inv : St → Prop) k st st' :
  (∀ st st', Inv st → body st = Ok st' → Inv st') →
  Inv st → iter_body k body st = Ok st' → Inv st'.
Proof.
  intros Hinv. revert st. induction k as [|k IH]; intros st Hst; simpl.
  - by intros [= <-].
  - destruct (body st) as [st1|] eqn:Hb; [|done]. simpl.
    apply IH. by eapply Hinv.
Qed.
End WhileLoop.

(* ================================================================= *)
(** ** zeta.py: the convergence loops *)

(** Splitting a successful sequence of binds into its steps. *)
Ltac bind_inv H :=
  repeat match type of H with
         | (?m ≫= _) = Ok _ =>
             let E := fresh "E" in
             destruct m eqn:E; [cbn [mbind exc_bind] in H|discriminate H]
         | (_ <$> ?m) = Ok _ =>
             let E := fresh "E" in
             destruct m eqn:E; [cbn [fmap exc_fmap] in H|discriminate H]
         | mret _ = Ok _ => injection H as H
         | Ok _ = Ok _ => injection H as H
         end.

Section ZetaLoops.
Context {F : Type} `{HostNum F}.

Lemma hzetae_body_idx s a epsig aeps st st' :
  hzetae_body s a epsig aeps st = Ok st' →
  z_idx st' = (z_idx st + 1)%Z
  ∧ ge_mask (z_result st') aeps = Ok (z_keepGoing st').
Proof.
  unfold hzetae_body. intros Hb. bind_inv Hb. by subst.
Qed.

Lemma lerche_body_idx lam s a epsig aeps st st' :
  lerche_body lam s a epsig aeps st = Ok st' →
  z_idx st' = (z_idx st + 1)%Z
  ∧ ge_mask (z_result st') aeps = Ok (z_keepGoing st').
Proof.
  unfold lerche_body. intros Hb. bind_inv Hb. by subst.
Qed.

Lemma hzetae_init_idx s a res aeps epsig st0 :
  hzetae_init s a res aeps = Ok (epsig, st0) →
  z_idx st0 = 1%Z ∧ ge_mask (z_result st0) aeps = Ok (z_keepGoing st0).
Proof.
  unfold hzetae_init. intros Hb. bind_inv Hb. by simplify_eq.
Qed.

Lemma lerche_init_idx lam s a res aeps epsig st0 :
  lerche_init lam s a res aeps = Ok (epsig, st0) →
  z_idx st0 = 1%Z ∧ ge_mask (z_result st0) aeps = Ok (z_keepGoing st0).
Proof.
  unfold lerche_init. intros Hb. bind_inv Hb. by simplify_eq.
Qed.

Lemma zeta_cond_idx maxiter (st : zstate F) :
  zeta_cond maxiter st = true → (z_idx st < maxiter)%Z.
Proof.
  unfold zeta_cond. intros [_ Hlt]%andb_true_iff. by apply Z.ltb_lt.
Qed.

(** Any loop over [zeta_cond] whose body advances [idx] by one finishes
    within [maxiter - idx] iterations. *)
Lemma zeta_loop_terminates (body : zstate F → exc (zstate F)) maxiter fuel
    st0 :
  (∀ st st', body st = Ok st' → z_idx st' = (z_idx st + 1)%Z) →
  Z.to_nat (maxiter - z_idx st0) ≤ fuel →
  ∃ r, while_loop fuel (zeta_cond maxiter) body st0 0 = Some r
       ∧ ∀ st n, r = Ok (st, n) → n ≤ Z.to_nat (maxiter - z_idx st0).
Proof.
  intros Hidx Hfuel.
  destruct (while_loop_terminates (zeta_cond maxiter) body
              (λ st, Z.to_nat (maxiter - z_idx st)) fuel st0 0)
    as (r & Hr & Hn); [..|done|by exists r].
  - intros st Hc%zeta_cond_idx. lia.
  - intros st st' Hc%zeta_cond_idx Hb%Hidx. lia.
Qed.

Lemma zeta_loops_bounded (lam s a res aeps : Tensor F) (maxiter : Z)
    (fuel : nat) :
  Z.to_nat (maxiter - 1) ≤ fuel →
  (∃ r, hzetae_run fuel s a res aeps maxiter = Some r
        ∧ ∀ t n, r = Ok (t, n) → n ≤ Z.to_nat (maxiter - 1))
  ∧ (∃ r, lerche_run fuel lam s a res aeps maxiter = Some r
          ∧ ∀ t n, r = Ok (t, n) → n ≤ Z.to_nat (maxiter - 1)).
Proof.
  intros Hfuel. split.
  - unfold hzetae_run.
    destruct (hzetae_init s a res aeps) as [[epsig st0]|e] eqn:Hinit;
      [|by eexists].
    apply hzetae_init_idx in Hinit as [Hidx _].
    destruct (zeta_loop_terminates (hzetae_body s a epsig aeps) maxiter fuel
                st0) as (r & -> & Hn).
    { intros st st' Hb. by apply hzetae_body_idx in Hb as [? _]. }
    { by rewrite Hidx. }
    eexists. split; [done|]. intros t n.
    destruct r as [[st k]|]; [|done]. intros [= <- <-].
    rewrite <- Hidx. by eapply Hn.
  - unfold lerche_run.
    destruct (lerche_init lam s a res aeps) as [[epsig st0]|e] eqn:Hinit;
      [|by eexists].
    apply lerche_init_idx in Hinit as [Hidx _].
    destruct (zeta_loop_terminates (lerche_body lam s a epsig aeps) maxiter
                fuel st0) as (r & -> & Hn).
    { intros st st' Hb. by apply lerche_body_idx in Hb as [? _]. }
    { by rewrite Hidx. }
    eexists. split; [done|]. intros t n.
    destruct r as [[st k]|]; [|done]. intros [= <- <-].
    rewrite <- Hidx. by eapply Hn.
Qed.

(** A mask of comparisons that [torch.all] accepts is all ones. *)
Lemma ge_mask_all_ones (x y : Tensor F) k :
  ge_mask x y = Ok k → t_all k = true → all_ones k.
Proof.
  unfold ge_mask, t_all, all_ones.
  destruct (tzip fgeb (t_abs x) (t_abs y)) as [t|] eqn:E; [|done].
  simpl. intros [= <-] Hall. simpl in *. rewrite length_fmap.
  induction (data t) as [|b l IH]; simpl in *; [done|].
  apply andb_true_iff in Hall as [Hb Hl].
  destruct b; [|done]. simpl. f_equal. by apply IH.
Qed.

Lemma zeta_loop_global_stop (body : zstate F → exc (zstate F)) aeps maxiter
    fuel st0 st n :
  (∀ st st', body st = Ok st' →
     z_idx st' = (z_idx st + 1)%Z
     ∧ ge_mask (z_result st') aeps = Ok (z_keepGoing st')) →
  z_idx st0 = 1%Z →
  ge_mask (z_result st0) aeps = Ok (z_keepGoing st0) →
  while_loop fuel (zeta_cond maxiter) body st0 0 = Some (Ok (st, n)) →
  global_stop aeps maxiter body st0 (z_result st) n.
Proof.
  intros Hbody Hidx0 Hmask0 Hrun.
  apply while_loop_trace in Hrun as (k & -> & Hit & Hend & Hpre).
  assert (∀ j stj, iter_body j body st0 = Ok stj →
            z_idx stj = (1 + Z.of_nat j)%Z
            ∧ ge_mask (z_result stj) aeps = Ok (z_keepGoing stj)) as Hinv.
  { intros j. induction j as [|j IH] using nat_ind; intros stj.
    - simpl. intros [= <-]. split; [lia|done].
    - assert (∀ m (s0 : zstate F) sx, iter_body (S m) body s0 = Ok sx →
                ∃ sm, iter_body m body s0 = Ok sm ∧ body sm = Ok sx) as Hsnoc.
      { clear. intros m. induction m as [|m IHm]; intros s0 sx; simpl.
        - destruct (body s0) eqn:E; [|done]. simpl. intros [= <-]. eauto.
        - destruct (body s0) as [s1|] eqn:E; [|done]. simpl. intros Hx.
          destruct (IHm s1 sx) as (sm & Hm1 & Hm2); [done|]. eauto. }
      intros (sm & Hm1 & Hm2)%Hsnoc.
      destruct (IH _ Hm1) as [Hi _]. destruct (Hbody _ _ Hm2) as [Hi' Hk'].
      split; [lia|done]. }
  exists st. simpl. destruct (Hinv _ _ Hit) as [Hi Hk].
  repeat split; [done|done|done| |].
  - unfold zeta_cond in Hend. apply andb_false_iff in Hend as [?|Hlt];
      [by left|right]. by apply Z.ltb_ge.
  - intros j Hj. destruct (Hpre j Hj) as (stj & Hj1 & Hj2).
    exists stj. destruct (Hinv _ _ Hj1) as [_ Hkj].
    repeat split; [done|done|]. eapply ge_mask_all_ones; [done|].
    unfold zeta_cond in Hj2. by apply andb_true_iff in Hj2 as [? _].
Qed.

(** C10: the loops of [hzetae] and [lerche] stop globally: every
    iteration that runs has the mask all ones, and the first state where
    some element is below [aeps] is returned as it is, for all elements. *)
Theorem zeta_loops_stop_globally (lam s a res aeps : Tensor F) (maxiter : Z)
    (fuel : nat) (r : Tensor F) (n : nat) :
  (hzetae_run fuel s a res aeps maxiter = Some (Ok (r, n)) →
   ∃ epsig st0,
     hzetae_init s a res aeps = Ok (epsig, st0)
     ∧ global_stop aeps maxiter (hzetae_body s a epsig aeps) st0 r n)
  ∧ (lerche_run fuel lam s a res aeps maxiter = Some (Ok (r, n)) →
     ∃ epsig st0,
       lerche_init lam s a res aeps = Ok (epsig, st0)
       ∧ global_stop aeps maxiter (lerche_body lam s a epsig aeps) st0 r n).
Proof.
  split.
  - unfold hzetae_run.
    destruct (hzetae_init s a res aeps) as [[epsig st0]|e] eqn:Hinit;
      [|done].
    destruct (while_loop _ _ _ _ _) as [[[st k]|]|] eqn:Hrun; [|done..].
    simpl. intros [= <- <-]. exists epsig, st0. split; [done|].
    apply hzetae_init_idx in Hinit as [Hidx Hk].
    eapply zeta_loop_global_stop; [|done..]. apply hzetae_body_idx.
  - unfold lerche_run.
    destruct (lerche_init lam s a res aeps) as [[epsig st0]|e] eqn:Hinit;
      [|done].
    destruct (while_loop _ _ _ _ _) as [[[st k]|]|] eqn:Hrun; [|done..].
    simpl. intros [= <- <-]. exists epsig, st0. split; [done|].
    apply lerche_init_idx in Hinit as [Hidx Hk].
    eapply zeta_loop_global_stop; [|done..]. apply lerche_body_idx.
Qed.
End ZetaLoops.

(* ================================================================= *)
(** ** Inputs that broadcast: no exception *)

Section Fits.
Context {F : Type} `{HostNum F}.

Lemma fits_refl sh : fits sh sh.
Proof. by left. Qed.

Lemma fits_one sh : fits sh [1].
Proof. unfold fits. auto. Qed.

Lemma fits_lift1 sh x : fits sh x → fits sh (lift1 x).
Proof.
  unfold fits. intros [->|[->|[->| ->]]]; rewrite ?lift1_idemp; simpl; auto.
Qed.

Lemma tzip_fits {A B C} sh (f : A → B → C) a b :
  fits sh (shape a) → fits sh (shape b) →
  ∃ c, tzip f a b = Ok c ∧ fits sh (shape c).
Proof.
  intros Ha Hb. destruct (fits_broadcast _ _ _ Ha Hb) as (z & Hz & Hf).
  unfold tzip. rewrite Hz. eauto.
Qed.

Lemma size_as_cplx (x : Tensor F) : shape (as_cplx x) = size x.
Proof. by destruct x. Qed.

Lemma binop_fits sh fr fc (x y : Tensor F) :
  fits sh (size x) → fits sh (size y) →
  ∃ z, binop fr fc x y = Ok z ∧ fits sh (size z).
Proof.
  intros Hx Hy. unfold binop.
  destruct x as [a|a], y as [b|b]; simpl in *.
  - destruct (tzip_fits sh fr a b) as (c & -> & Hc); [done..|]. by eexists.
  - destruct (tzip_fits sh fc (tmap of_real a) b) as (c & -> & Hc);
      [done..|]. by eexists.
  - destruct (tzip_fits sh fc a (tmap of_real b)) as (c & -> & Hc);
      [done..|]. by eexists.
  - destruct (tzip_fits sh fc a b) as (c & -> & Hc); [done..|]. by eexists.
Qed.

Lemma size_t_addZ n (a : Tensor F) : size (t_addZ n a) = size a.
Proof. by destruct a. Qed.

Lemma size_t_neg (a : Tensor F) : size (t_neg a) = size a.
Proof. by destruct a. Qed.

Lemma size_t_exp (a : Tensor F) : size (t_exp a) = size a.
Proof. by destruct a. Qed.

Lemma size_t_ones_like (a : Tensor F) : size (t_ones_like a) = size a.
Proof. by destruct a. Qed.

Lemma shape_t_abs (a : Tensor F) : shape (t_abs a) = size a.
Proof. by destruct a. Qed.

Lemma t_mul_mask_fits sh (x : Tensor F) k :
  fits sh (size x) → fits sh (shape k) →
  ∃ z, t_mul_mask x k = Ok z ∧ fits sh (size z).
Proof.
  intros Hx Hk. destruct x as [a|a]; simpl in *.
  - destruct (tzip_fits sh (λ v q, fmul v (of_Z q)) a k) as (c & -> & Hc);
      [done..|]. by eexists.
  - destruct (tzip_fits sh (λ z q, cmul z (of_real (of_Z q))) a k)
      as (c & -> & Hc); [done..|]. by eexists.
Qed.

Lemma t_mask_mul_fits sh k (x : Tensor F) :
  fits sh (shape k) → fits sh (size x) →
  ∃ z, t_mask_mul k x = Ok z ∧ fits sh (size z).
Proof.
  intros Hk Hx. destruct x as [a|a]; simpl in *.
  - destruct (tzip_fits sh (λ q v, fmul (of_Z q) v) k a) as (c & -> & Hc);
      [done..|]. by eexists.
  - destruct (tzip_fits sh (λ q z, cmul (of_real (of_Z q)) z) k a)
      as (c & -> & Hc); [done..|]. by eexists.
Qed.

Lemma ge_mask_fits sh (x y : Tensor F) :
  fits sh (size x) → fits sh (size y) →
  ∃ k, ge_mask x y = Ok k ∧ fits sh (shape k).
Proof.
  intros Hx Hy. unfold ge_mask.
  destruct (tzip_fits sh fgeb (t_abs x) (t_abs y)) as (c & -> & Hc);
    [by rewrite shape_t_abs..|]. by eexists.
Qed.

Lemma isigmoid_fits sh (x : Tensor F) :
  wfT x → fits sh (size x) → ∃ e, isigmoid x = Ok e ∧ fits sh (size e).
Proof.
  intros Hw Hx. destruct x as [[s l]|[s l]]; simpl in *.
  - by eexists.
  - rewrite isigmoid_complex_spec by done. eexists. split; [done|].
    simpl. by apply fits_lift1.
Qed.

Ltac fits_step sh :=
  match goal with
  | |- context [binop ?fr ?fc ?x ?y] =>
      let Hz := fresh "Hz" in
      destruct (binop_fits sh fr fc x y) as (? & -> & Hz);
      [cbn [size];
       rewrite ?size_t_addZ, ?size_t_neg, ?size_t_exp, ?size_t_ones_like,
         ?shape_t_abs;
       (assumption || apply fits_one)..|];
      cbn [mbind exc_bind]
  | |- context [t_mul_mask ?x ?k] =>
      let Hz := fresh "Hz" in
      destruct (t_mul_mask_fits sh x k) as (? & -> & Hz); [assumption..|];
      cbn [mbind exc_bind]
  | |- context [t_mask_mul ?k ?x] =>
      let Hz := fresh "Hz" in
      destruct (t_mask_mul_fits sh k x) as (? & -> & Hz); [assumption..|];
      cbn [mbind exc_bind]
  | |- context [ge_mask ?x ?y] =>
      let Hz := fresh "Hz" in
      destruct (ge_mask_fits sh x y) as (? & -> & Hz); [assumption..|];
      cbn [mbind exc_bind]
  end.

Lemma hzetaitr_fits sh (s a : Tensor F) n :
  fits sh (size s) → fits sh (size a) →
  ∃ d, __hzetaitr s a n = Ok d ∧ fits sh (size d).
Proof.
  intros Hs Ha. unfold __hzetaitr, t_pow. fits_step sh. eauto.
Qed.

Lemma blend_fits sh k (delta epsig result : Tensor F) :
  fits sh (shape k) → fits sh (size delta) → fits sh (size epsig) →
  fits sh (size result) →
  ∃ r, blend k delta epsig result = Ok r ∧ fits sh (size r).
Proof.
  intros Hk Hd He Hr. unfold blend, t_mul, t_add.
  assert (fits sh (shape (tmap (λ q, (1 - q)%Z) k))) by done.
  repeat fits_step sh. eauto.
Qed.

Ltac fits_itr sh :=
  match goal with
  | |- context [__hzetaitr ?x ?y ?n] =>
      let Hz := fresh "Hz" in
      destruct (hzetaitr_fits sh x y n) as (? & -> & Hz); [assumption..|];
      cbn [mbind exc_bind]
  end.

Lemma lerchitr_fits sh (lam s a : Tensor F) n :
  fits sh (size lam) → fits sh (size s) → fits sh (size a) →
  ∃ d, __lerchitr lam s a n = Ok d ∧ fits sh (size d).
Proof.
  intros Hl Hs Ha. unfold __lerchitr, t_mul, t_div. cbv zeta.
  fits_step sh.
  destruct (is_complex lam); repeat (fits_step sh || fits_itr sh); eauto.
Qed.

Lemma hzetae_init_fits sh (s a res aeps : Tensor F) :
  fits sh (size s) → fits sh (size a) → fits sh (size res) →
  fits sh (size aeps) → wfT res →
  ∃ epsig st0, hzetae_init s a res aeps = Ok (epsig, st0)
               ∧ fits sh (size epsig) ∧ state_fits sh st0.
Proof.
  intros Hs Ha Hr He Hw. unfold hzetae_init.
  destruct (isigmoid_fits sh res) as (epsig & -> & Hep); [done..|].
  cbn [mbind exc_bind].
  destruct (hzetaitr_fits sh s a 0) as (d & -> & Hd); [done..|].
  cbn [mbind exc_bind]. unfold t_mul. repeat fits_step sh.
  do 2 eexists. split; [done|]. by split.
Qed.

Lemma hzetae_body_fits sh (s a epsig aeps : Tensor F) st :
  fits sh (size s) → fits sh (size a) → fits sh (size epsig) →
  fits sh (size aeps) → state_fits sh st →
  ∃ st', hzetae_body s a epsig aeps st = Ok st' ∧ state_fits sh st'.
Proof.
  intros Hs Ha Hep He [Hr Hk]. unfold hzetae_body.
  fits_step sh.
  match goal with
  | |- context [__hzetaitr ?x ?y ?n] =>
      destruct (hzetaitr_fits sh x y n) as (d & -> & Hd); [done..|]
  end.
  cbn [mbind exc_bind].
  destruct (blend_fits sh (z_keepGoing st) d epsig (z_result st))
    as (r & -> & Hr'); [done..|].
  cbn [mbind exc_bind]. fits_step sh. eexists. split; [done|]. by split.
Qed.

Lemma lerche_init_fits sh (lam s a res aeps : Tensor F) :
  fits sh (size lam) → fits sh (size s) → fits sh (size a) →
  fits sh (size res) → fits sh (size aeps) → wfT res →
  ∃ epsig st0, lerche_init lam s a res aeps = Ok (epsig, st0)
               ∧ fits sh (size epsig) ∧ state_fits sh st0.
Proof.
  intros Hl Hs Ha Hr He Hw. unfold lerche_init.
  destruct (isigmoid_fits sh res) as (epsig & -> & Hep); [done..|].
  cbn [mbind exc_bind].
  destruct (lerchitr_fits sh lam s a 0) as (d & -> & Hd); [done..|].
  cbn [mbind exc_bind]. unfold t_mul. repeat fits_step sh.
  do 2 eexists. split; [done|]. by split.
Qed.

Lemma lerche_body_fits sh (lam s a epsig aeps : Tensor F) st :
  fits sh (size lam) → fits sh (size s) → fits sh (size a) →
  fits sh (size epsig) → fits sh (size aeps) → state_fits sh st →
  ∃ st', lerche_body lam s a epsig aeps st = Ok st' ∧ state_fits sh st'.
Proof.
  intros Hl Hs Ha Hep He [Hr Hk]. unfold lerche_body.
  do 2 fits_step sh.
  match goal with
  | |- context [__lerchitr ?l ?x ?y ?n] =>
      destruct (lerchitr_fits sh l x y n) as (d & -> & Hd); [done..|]
  end.
  cbn [mbind exc_bind].
  destruct (blend_fits sh (z_keepGoing st) d epsig (z_result st))
    as (r & -> & Hr'); [done..|].
  cbn [mbind exc_bind]. fits_step sh. eexists. split; [done|]. by split.
Qed.

(** On inputs that broadcast, a run with enough fuel returns a tensor. *)
Lemma hzetae_run_returns (s a res aeps : Tensor F) (maxiter : Z)
    (fuel : nat) :
  Z.to_nat (maxiter - 1) ≤ fuel →
  inputs_fit [s; a; res; aeps] → wfT res →
  ∃ t n, hzetae_run fuel s a res aeps maxiter = Some (Ok (t, n)).
Proof.
  intros Hfuel (sh & Hfit) Hw.
  destruct (zeta_loops_bounded s s a res aeps maxiter fuel Hfuel)
    as [(r & Hr & _) _].
  apply Forall_cons in Hfit as [Hs Hfit].
  apply Forall_cons in Hfit as [Ha Hfit].
  apply Forall_cons in Hfit as [Hres Hfit].
  apply Forall_cons in Hfit as [Haeps _].
  rewrite Hr. unfold hzetae_run in Hr.
  destruct (hzetae_init_fits sh s a res aeps)
    as (epsig & st0 & Hinit & Hep & Hst0); [done..|].
  rewrite Hinit in Hr.
  destruct (while_loop _ _ _ _ _) as [w|] eqn:Hrun; [|done].
  eapply (while_loop_ok _ _ (state_fits sh)) in Hrun
      as (st' & n' & ->); [| |done].
  - simpl in Hr. injection Hr as <-. eauto.
  - intros st Hst. by apply hzetae_body_fits.
Qed.

Lemma lerche_run_returns (lam s a res aeps : Tensor F) (maxiter : Z)
    (fuel : nat) :
  Z.to_nat (maxiter - 1) ≤ fuel →
  inputs_fit [lam; s; a; res; aeps] → wfT res →
  ∃ t n, lerche_run fuel lam s a res aeps maxiter = Some (Ok (t, n)).
Proof.
  intros Hfuel (sh & Hfit) Hw.
  destruct (zeta_loops_bounded lam s a res aeps maxiter fuel Hfuel)
    as [_ (r & Hr & _)].
  apply Forall_cons in Hfit as [Hl Hfit].
  apply Forall_cons in Hfit as [Hs Hfit].
  apply Forall_cons in Hfit as [Ha Hfit].
  apply Forall_cons in Hfit as [Hres Hfit].
  apply Forall_cons in Hfit as [Haeps _].
  rewrite Hr. unfold lerche_run in Hr.
  destruct (lerche_init_fits sh lam s a res aeps)
    as (epsig & st0 & Hinit & Hep & Hst0); [done..|].
  rewrite Hinit in Hr.
  destruct (while_loop _ _ _ _ _) as [w|] eqn:Hrun; [|done].
  eapply (while_loop_ok _ _ (state_fits sh)) in Hrun
      as (st' & n' & ->); [| |done].
  - simpl in Hr. injection Hr as <-. eauto.
  - intros st Hst. by apply lerche_body_fits.
Qed.

(** C4: the loops of [hzetae] and [lerche] finish: fuel for [maxiter - 1]
    iterations is enough for every input, no run takes more iterations
    than that, and on inputs that broadcast the run returns a tensor. *)
Theorem zeta_loops_terminate (lam s a res aeps : Tensor F) (maxiter : Z)
    (fuel : nat) :
  Z.to_nat (maxiter - 1) ≤ fuel →
  (∃ r, hzetae_run fuel s a res aeps maxiter = Some r
        ∧ (∀ t n, r = Ok (t, n) → n ≤ Z.to_nat (maxiter - 1))
        ∧ (inputs_fit [s; a; res; aeps] → wfT res →
           ∃ t n, r = Ok (t, n)))
  ∧ (∃ r, lerche_run fuel lam s a res aeps maxiter = Some r
          ∧ (∀ t n, r = Ok (t, n) → n ≤ Z.to_nat (maxiter - 1))
          ∧ (inputs_fit [lam; s; a; res; aeps] → wfT res →
             ∃ t n, r = Ok (t, n))).
Proof.
  intros Hfuel.
  destruct (zeta_loops_bounded lam s a res aeps maxiter fuel Hfuel)
    as [(r & Hr & Hn) (r' & Hr' & Hn')].
  split.
  - exists r. repeat split; [done|done|]. intros Hfit Hw.
    destruct (hzetae_run_returns s a res aeps maxiter fuel)
      as (t & n & Ht); [done..|].
    rewrite Hr in Ht. injection Ht as ->. eauto.
  - exists r'. repeat split; [done|done|]. intros Hfit Hw.
    destruct (lerche_run_returns lam s a res aeps maxiter fuel)
      as (t & n & Ht); [done..|].
    rewrite Hr' in Ht. injection Ht as ->. eauto.
Qed.
End Fits.

(* ================================================================= *)
(** ** zeta.py: hzetas *)

Section Hzetas.
Context {F : Type} `{HostNum F}.

Lemma wf_as_cplx (x : Tensor F) : wfT x → wf (as_cplx x).
Proof.
  destruct x as [r|c]; simpl; [|done]. unfold wf. simpl.
  by rewrite length_fmap.
Qed.

Lemma binop_wf fr fc (x y z : Tensor F) :
  wfT x → wfT y → binop fr fc x y = Ok z → wfT z.
Proof.
  intros Hx Hy. unfold binop.
  destruct x as [a|a], y as [b|b]; simpl in *;
    match goal with
    | |- (_ <$> tzip ?f ?u ?v) = _ → _ =>
        destruct (tzip f u v) as [c|] eqn:E; [|done];
        intros [= <-]; simpl; eapply tzip_wf; [| |exact E]
    end; try done; unfold wf; simpl; by rewrite length_fmap.
Qed.

Lemma binop_size fr fc (x y z : Tensor F) :
  binop fr fc x y = Ok z →
  broadcast_shapes (size x) (size y) = Some (size z).
Proof.
  unfold binop.
  destruct x as [a|a], y as [b|b]; simpl in *;
    match goal with
    | |- (_ <$> tzip ?f ?u ?v) = _ → _ =>
        destruct (tzip f u v) as [c|] eqn:E; [|done];
        intros [= <-]; simpl; by apply tzip_shape in E
    end.
Qed.

Lemma binop_ok fr fc (x y : Tensor F) bs :
  broadcast_shapes (size x) (size y) = Some bs →
  ∃ z, binop fr fc x y = Ok z ∧ size z = bs.
Proof.
  intros Hbs. unfold binop, tzip.
  destruct x as [a|a], y as [b|b]; simpl in *; rewrite Hbs; simpl;
    by eexists.
Qed.

Lemma wfT_t_addZ n (a : Tensor F) : wfT a → wfT (t_addZ n a).
Proof.
  destruct a; unfold wfT, wf, t_addZ, tmap; cbn [shape data];
    by rewrite length_fmap.
Qed.

Lemma wfT_t_neg (a : Tensor F) : wfT a → wfT (t_neg a).
Proof.
  destruct a; unfold wfT, wf, t_neg, tmap; cbn [shape data];
    by rewrite length_fmap.
Qed.

(** On tensors of one shape [__hzetaitr] gives a tensor of that shape. *)
Lemma hzetaitr_same_shape (s a : Tensor F) n :
  wfT s → wfT a → size a = size s →
  ∃ itr, __hzetaitr s a n = Ok itr ∧ size itr = size s ∧ wfT itr.
Proof.
  intros Hs Ha Hsz. unfold __hzetaitr, t_pow.
  destruct (binop_ok fpow cpow (t_addZ n a) (t_neg s) (size s))
    as (itr & Hitr & Hsize).
  { rewrite size_t_addZ, size_t_neg, Hsz. apply broadcast_shapes_diag. }
  exists itr. repeat split; [done..|].
  eapply binop_wf; [| |done]; [by apply wfT_t_addZ|by apply wfT_t_neg].
Qed.

Lemma strip_ones_spec sh :
  ∃ k, sh = replicate k 1 ++ strip_ones sh.
Proof.
  induction sh as [|x sh [k IH]]; [by exists 0|].
  destruct x as [|[|x]]; [by exists 0| |by exists 0].
  exists (S k). simpl. by f_equal.
Qed.

Lemma numel_strip_ones sh : numel (strip_ones sh) = numel sh.
Proof.
  destruct (strip_ones_spec sh) as [k Hk]. rewrite Hk at 2.
  rewrite numel_app, numel_replicate_1. lia.
Qed.

Lemma bshape_rev_app a c : bshape_rev a (a ++ c) = Some (a ++ c).
Proof.
  induction a as [|x a IH]; simpl; [done|]. by rewrite bdim_diag, IH.
Qed.

Lemma broadcast_strip_ones sh :
  broadcast_shapes (strip_ones sh) sh = Some sh.
Proof.
  destruct (strip_ones_spec sh) as [k Hk]. unfold broadcast_shapes.
  rewrite Hk at 2. rewrite reverse_app, reverse_replicate, bshape_rev_app.
  simpl. rewrite <- (reverse_replicate k 1), <- reverse_app, <- Hk.
  by rewrite reverse_involutive.
Qed.

(** A residual factor that fits the shape of [s] can be multiplied into a
    channel, added to an iterate and assigned back. *)
Lemma fits_assignable sh e :
  fits sh e →
  ∃ b, broadcast_shapes e sh = Some b
       ∧ broadcast_shapes sh b = Some b
       ∧ broadcast_shapes (strip_ones b) sh = Some sh.
Proof.
  intros [->|[->|[->| ->]]].
  - exists sh. rewrite broadcast_shapes_diag.
    by rewrite broadcast_strip_ones.
  - exists (lift1 sh).
    rewrite broadcast_shapes_lift1_l, broadcast_shapes_lift1_r.
    repeat split. destruct sh; [done|]. apply broadcast_strip_ones.
  - exists sh. rewrite broadcast_shapes_nil_l, broadcast_shapes_diag.
    by rewrite broadcast_strip_ones.
  - exists (lift1 sh).
    rewrite broadcast_shapes_one_l, broadcast_shapes_lift1_r.
    repeat split. destruct sh; [done|]. apply broadcast_strip_ones.
Qed.

Lemma slice_value_length sl (v : Tensor F) :
  wfT v → broadcast_shapes (strip_ones (size v)) sl = Some sl →
  length (data (slice_value sl v)) = numel sl.
Proof.
  intros Hv Hb. unfold slice_value. cbn [data].
  apply (expand_to_length sl _ sl); [by left|].
  unfold wf. cbn [shape data]. rewrite numel_strip_ones.
  apply wf_as_cplx in Hv. unfold wf in Hv. by rewrite size_as_cplx in Hv.
Qed.

Lemma get_channel_ok sl n t j :
  channels sl n t → j < n →
  ∃ c, get_channel t j = Ok c ∧ shape c = sl ∧ wf c.
Proof.
  intros [Hsh Hlen] Hj. destruct t as [sh d]. simpl in *. subst sh.
  rewrite get_channel_eq by done. eexists. split; [done|].
  split; [done|]. unfold wf. simpl. by rewrite length_fmap, length_seq.
Qed.

Section Store.
Variables (s a epsig : Tensor F) (n : nat).
Hypothesis Hs : wfT s.
Hypothesis Ha : wfT a.
Hypothesis He : wfT epsig.
Hypothesis Hsize : size a = size s.
Hypothesis Hfit : fits (size s) (size epsig).

(** One step of the recurrence on a channel: it succeeds, and the value
    it stores is the residual step of the channel read. *)
Lemma residual_step_ok k prev :
  shape prev = size s → wf prev →
  ∃ v cur, (itr ← __hzetaitr s a k;
            er ← t_mul epsig (TCplx prev);
            t_add itr er) = Ok v
           ∧ residual_step s a epsig k prev = Ok cur
           ∧ cur = slice_value (size s) v
           ∧ wfT v
           ∧ broadcast_shapes (strip_ones (size v)) (size s) = Some (size s).
Proof using Hs Ha He Hsize Hfit.
  intros Hp Hwp. unfold residual_step.
  destruct (hzetaitr_same_shape s a k) as (itr & -> & Hisz & Hiw);
    [done..|].
  cbn [mbind exc_bind].
  destruct (fits_assignable _ _ Hfit) as (b & Hb1 & Hb2 & Hb3).
  unfold t_mul, t_add.
  destruct (binop_ok fmul cmul epsig (TCplx prev) b) as (er & Her & Hersz).
  { simpl. by rewrite Hp. }
  rewrite Her. cbn [mbind exc_bind].
  destruct (binop_ok fadd cadd itr er b) as (v & Hv & Hvsz).
  { by rewrite Hisz, Hersz. }
  rewrite Hv. cbn [mbind exc_bind mret exc_ret].
  exists v. eexists. repeat split; [|by rewrite Hvsz].
  eapply binop_wf; [| |exact Hv]; [done|].
  eapply binop_wf; [| |exact Her]; done.
Qed.

Lemma hzetas_store_spec k j j' result :
  channels (size s) n result → j < n → j' < n →
  ∃ prev cur result',
    get_channel result j = Ok prev
    ∧ residual_step s a epsig k prev = Ok cur
    ∧ hzetas_store s a epsig k j j' result = Ok result'
    ∧ channels (size s) n result'
    ∧ get_channel result' j' = Ok cur
    ∧ ∀ i, i ≠ j' → i < n → get_channel result' i = get_channel result i.
Proof using Hs Ha He Hsize Hfit.
  intros Hch Hj Hj'.
  destruct (get_channel_ok _ _ _ _ Hch Hj) as (prev & Hprev & Hpsh & Hpw).
  destruct (residual_step_ok k prev Hpsh Hpw)
    as (v & cur & Hv & Hcur & -> & Hvw & Hvb).
  destruct Hch as [Hsh Hlen]. destruct result as [sh d]. simpl in *.
  subst sh. exists prev. eexists. eexists.
  split; [done|]. split; [done|].
  unfold hzetas_store.
  destruct (__hzetaitr s a k) as [itr|] eqn:Hitr; [|done].
  cbn [mbind exc_bind] in *. rewrite Hprev. cbn [mbind exc_bind].
  destruct (t_mul epsig (TCplx prev)) as [er|] eqn:Her; [|done].
  cbn [mbind exc_bind] in *. rewrite Hv. cbn [mbind exc_bind].
  rewrite set_channel_eq by done.
  split; [done|]. split.
  { split; [done|]. simpl. by rewrite length_imap. }
  split.
  - rewrite get_channel_eq by done. do 2 f_equal.
    rewrite get_put_same; [done|done| |done].
    by apply slice_value_length.
  - intros i Hi Hin. rewrite !get_channel_eq by done. do 2 f_equal.
    by apply get_put_other.
Qed.

(** The blank loop: after [t] more runs channel 0 is [t] residual steps
    further, and [idx] with it. *)
Lemma blank_loop_spec (xs : list Z) result t :
  channels (size s) n result → 0 < n →
  get_channel result 0 = blank_channel s a epsig t →
  is_ok (blank_channel s a epsig t) = true →
  ∃ result',
    for_each xs
      (λ _ '(result, idx),
         result ← hzetas_store s a epsig idx 0 0 result;
         mret (result, (idx + 1)%Z))
      (result, (1 + Z.of_nat t)%Z)
    = Ok (result', (1 + Z.of_nat (t + length xs))%Z)
    ∧ channels (size s) n result'
    ∧ get_channel result' 0 = blank_channel s a epsig (t + length xs)
    ∧ is_ok (blank_channel s a epsig (t + length xs)) = true.
Proof using Hs Ha He Hsize Hfit.
  intros Hch Hn. revert result t Hch.
  induction xs as [|x xs IH]; intros result t Hch H0 Hok.
  - exists result. simpl. rewrite Nat.add_0_r. done.
  - destruct (hzetas_store_spec (1 + Z.of_nat t) 0 0 result Hch Hn Hn)
      as (prev & cur & result' & Hprev & Hcur & Hst & Hch' & Hget & _).
    assert (blank_channel s a epsig (S t) = Ok cur) as Hblank.
    { cbn [blank_channel]. rewrite <- H0, Hprev. cbn [mbind exc_bind].
      rewrite <- Hcur. f_equal. lia. }
    destruct (IH result' (S t)) as (r2 & Hr2 & Hch2 & Hget2 & Hok2).
    { done. }
    { by rewrite Hblank. }
    { by rewrite Hblank. }
    exists r2. cbn [for_each]. rewrite Hst. cbn [mbind exc_bind mret exc_ret].
    replace (1 + Z.of_nat t + 1)%Z with (1 + Z.of_nat (S t))%Z by lia.
    rewrite Hr2. cbn [length].
    replace (t + S (length xs)) with (S t + length xs) by lia. done.
Qed.

Lemma sample_loop_spec (b : Z) k m result :
  m + k < n →
  channels (size s) n result → recurrence_upto s a epsig b m result →
  ∃ result',
    for_each ((λ i, (1 + Z.of_nat i)%Z) <$> seq m k)
      (λ jdx result,
         hzetas_store s a epsig (1 + b + jdx) (Z.to_nat (jdx - 1))
           (Z.to_nat jdx) result)
      result
    = Ok result'
    ∧ channels (size s) n result'
    ∧ recurrence_upto s a epsig b (m + k) result'
    ∧ get_channel result' 0 = get_channel result 0.
Proof using Hs Ha He Hsize Hfit.
  revert m result. induction k as [|k IH]; intros m result Hmk Hch Hrec.
  - exists result. simpl. by rewrite Nat.add_0_r.
  - cbn [seq fmap list_fmap for_each].
    replace (Z.to_nat (1 + Z.of_nat m - 1)) with m by lia.
    replace (Z.to_nat (1 + Z.of_nat m)) with (S m) by lia.
    destruct (hzetas_store_spec (1 + b + (1 + Z.of_nat m)) m (S m) result)
      as (prev & cur & r1 & Hprev & Hcur & Hst & Hch1 & Hget & Hother);
      [done|lia|lia|].
    rewrite Hst. cbn [mbind exc_bind].
    destruct (IH (S m) r1) as (r2 & Hr2 & Hch2 & Hrec2 & H02); [lia|done| |].
    { intros j Hj. destruct (decide (j = S m)) as [->|Hne].
      - exists prev, cur. replace (S m - 1) with m by lia.
        rewrite Hother by lia. repeat split; [done..|].
        rewrite <- Hcur. f_equal. lia.
      - destruct (Hrec j) as (p & c & Hp & Hc & Hr); [lia|].
        exists p, c. rewrite !Hother by lia. done. }
    exists r2. split; [done|]. split; [done|]. split.
    + by replace (m + S k) with (S m + k) by lia.
    + rewrite H02. apply Hother; lia.
Qed.
End Store.

Lemma length_bind_replicate {A B} (l : list A) (f : A → B) k :
  length (l ≫= λ v, replicate k (f v)) = length l * k.
Proof.
  induction l as [|x l IH]; [done|].
  rewrite bind_cons, length_app, length_replicate, IH. simpl. lia.
Qed.

Lemma channels_toComplex_zeros (s : Tensor F) n :
  wfT s → channels (size s) n (toComplex (outer_zeros s n)).
Proof.
  intros Hs.
  destruct s as [[sh d]|[sh d]]; unfold channels, toComplex, outer_zeros,
    wfT, wf in *; cbn [as_cplx tmap shape data size] in *.
  - rewrite length_fmap, length_bind_replicate. by rewrite Hs.
  - rewrite length_bind_replicate. by rewrite Hs.
Qed.

Lemma wfT_isigmoid (x e : Tensor F) : wfT x → isigmoid x = Ok e → wfT e.
Proof.
  destruct x as [[sh d]|[sh d]]; unfold wfT, wf; cbn [shape data].
  - intros Hx [= <-]. unfold t_sigmoid, tmap. cbn [shape data].
    by rewrite length_fmap.
  - intros Hx. rewrite isigmoid_spec_complex by done. intros [= <-].
    cbn [shape data]. by rewrite length_fmap, numel_lift1.
Qed.

Variable resampleContinuous : Tensor F → exc (Tensor F).

(** C5: without resampling [hzetas] returns a complex tensor of shape
    [s.size() + (samples,)] built by the residual recurrence: channel 0 is
    [(0 + a)^(-s)] followed by [blankSamples] residual steps, and channel
    [j] is [(blankSamples + 1 + j + a)^(-s)] plus [isigmoid(res)] times
    channel [j - 1]. *)
Theorem hzetas_recurrence (s a res : Tensor F) (blankSamples samples : Z) :
  wfT s → wfT a → wfT res → size a = size s →
  fits (size s) (size res) →
  (1 <= samples)%Z → (0 <= blankSamples)%Z →
  ∃ epsig result c0,
    isigmoid res = Ok epsig
    ∧ hzetas resampleContinuous s a res blankSamples samples false
      = Ok (TCplx result)
    ∧ shape result = size s ++ [Z.to_nat samples]
    ∧ wf result
    ∧ get_channel result 0 = Ok c0
    ∧ blank_channel s a epsig (Z.to_nat blankSamples) = Ok c0
    ∧ recurrence_upto s a epsig blankSamples (Z.to_nat samples - 1) result.
Proof.
  intros Hs Ha Hres Hsize Hfit Hsamples Hblank.
  destruct (isigmoid_fits (size s) res Hres Hfit) as (epsig & Hep & Hefit).
  pose proof (wfT_isigmoid _ _ Hres Hep) as Hew.
  set (n := Z.to_nat samples). assert (0 < n) as Hn by lia.
  unfold hzetas. destruct (samples <? 0)%Z eqn:Hneg; [lia|]. clear Hneg.
  rewrite Hep. cbn [mbind exc_bind].
  destruct (hzetaitr_same_shape s a 0) as (itr & Hitr & Hisz & Hiw);
    [done..|].
  rewrite Hitr. cbn [mbind exc_bind].
  pose proof (channels_toComplex_zeros s n Hs) as Hch0. fold n.
  destruct (toComplex (outer_zeros s n)) as [sh0 d0] eqn:Hr0.
  destruct Hch0 as [Hsh0 Hlen0]. simpl in Hsh0, Hlen0. subst sh0.
  assert (broadcast_shapes (strip_ones (size itr)) (size s) = Some (size s))
    as Hb0 by (rewrite Hisz; apply broadcast_strip_ones).
  rewrite set_channel_eq by done. cbn [mbind exc_bind].
  set (r1 := mkT (size s ++ [n]) _).
  assert (channels (size s) n r1) as Hch1.
  { split; [done|]. simpl. by rewrite length_imap. }
  assert (get_channel r1 0 = blank_channel s a epsig 0) as H10.
  { unfold r1. rewrite get_channel_eq by done. cbn [blank_channel].
    rewrite Hitr. cbn [fmap exc_fmap]. do 2 f_equal.
    rewrite get_put_same; [done|done| |done].
    by apply slice_value_length. }
  assert (is_ok (blank_channel s a epsig 0) = true) as Hok0.
  { cbn [blank_channel]. by rewrite Hitr. }
  destruct (blank_loop_spec s a epsig n Hs Ha Hew Hsize Hefit
              (range 0 blankSamples) r1 0 Hch1 Hn H10 Hok0)
    as (r2 & Hr2 & Hch2 & H20 & Hok2).
  change (1 + Z.of_nat 0)%Z with 1%Z in Hr2. rewrite Hr2.
  cbn [mbind exc_bind].
  assert (length (range 0 blankSamples) = Z.to_nat blankSamples) as Hlen.
  { unfold range. rewrite length_fmap, length_seq. f_equal. lia. }
  rewrite Hlen in *. simpl in H20, Hok2.
  replace (1 + Z.of_nat (0 + Z.to_nat blankSamples))%Z
    with (1 + blankSamples)%Z by lia.
  destruct (sample_loop_spec s a epsig n Hs Ha Hew Hsize Hefit blankSamples
              (Z.to_nat (samples - 1)) 0 r2)
    as (r3 & Hr3 & Hch3 & Hrec3 & H30); [lia|done| |].
  { intros j Hj. lia. }
  unfold range at 1. rewrite Hr3. cbn [mbind exc_bind].
  destruct (blank_channel s a epsig (Z.to_nat blankSamples)) as [c0|] eqn:Hc0;
    [|discriminate Hok2].
  exists epsig, r3, c0. destruct Hch3 as [Hsh3 Hlen3].
  split; [done|]. split; [done|]. split; [done|]. split.
  { unfold wf. rewrite Hsh3, numel_app. simpl. lia. }
  split; [by rewrite H30, H20|]. split; [done|].
  replace (n - 1) with (0 + Z.to_nat (samples - 1)) by lia. done.
Qed.
End Hzetas.

(* ================================================================= *)
(** ** Dispatch on dtype, assertions and failing calls *)

Section Dispatch.
Context {F : Type} `{HostNum F}.

(** C3: on a real tensor the activations are the host's own: [isoftmax]
    is [softmax], [isigmoid] is [sigmoid], [icos] is [cos] and [isin] is
    [sin]. *)
Theorem real_activations_are_standard (x : tensor F) (dim : Z) :
  isoftmax (TReal x) dim = TReal <$> t_softmax x dim
  ∧ isigmoid (TReal x) = Ok (TReal (t_sigmoid x))
  ∧ icos (TReal x) = Ok (TReal (t_cos x))
  ∧ isin (TReal x) = Ok (TReal (t_sin x)).
Proof. repeat split. Qed.

(** C6: [Turbulence.forward] raises the shape assertion exactly when the
    sizes differ, and otherwise is the composed forward pass. *)
Theorem Turbulence_forward_assertion
    (forward_pass : Tensor F → Tensor F → string → string → exc (Tensor F))
    (queries states : Tensor F) (inter padding : string) :
  (size states ≠ size queries →
   Turbulence_forward forward_pass queries states inter padding
   = Err ShapeAssertion)
  ∧ (size states = size queries →
     Turbulence_forward forward_pass queries states inter padding
     = forward_pass queries states inter padding).
Proof.
  unfold Turbulence_forward. split; intros Hs.
  - by rewrite decide_False.
  - by rewrite decide_True.
Qed.

Lemma call_isigmoid_dim (x : Tensor F) (n : Z) :
  call_isigmoid [ATensor x] [("dim", AInt n)] = Err (UnexpectedKeyword "dim").
Proof. reflexivity. Qed.

Lemma harmonicdist_fails
    (harmonic_tail : tensor F → tensor F → tensor F → exc (tensor F))
    (x : tensor F) :
  harmonicdist harmonic_tail x = Err EmptyReduction
  ∨ harmonicdist harmonic_tail x = Err ZeroDimIndex.
Proof.
  unfold harmonicdist, emconst, tzip. cbn [shape].
  rewrite broadcast_shapes_one_r. cbn [mbind exc_bind tmap shape data].
  rewrite broadcast_shapes_one_r. cbn [mbind exc_bind].
  unfold t_max, flatten. cbn [data].
  destruct (zip_with _ _ _); [by left|by right].
Qed.

(** C1: three public operations fail in ways the specification excludes.
    [PolarLens.__forward__] passes [isigmoid] a keyword it does not have,
    [Aggregator.addCollider] asserts that an instance is its class, and
    [harmonicdist] indexes a 0-dim tensor (or reduces an empty one): every
    call raises, and never with a shape or convergence failure. *)
Theorem failures_outside_the_spec :
  (∀ lens_of_softlens (self : PolarLens) (x : Tensor F),
     PolarLens__forward__ lens_of_softlens self x
     = Err (UnexpectedKeyword "dim")
     ∧ spec_allowed (UnexpectedKeyword "dim") = false)
  ∧ (∀ (self : Aggregator) (cls : string) (id : nat),
       addCollider self (Instance cls id) = Err TypeAssertion
       ∧ spec_allowed TypeAssertion = false)
  ∧ (∀ harmonic_tail (x : tensor F),
       ∃ e, harmonicdist harmonic_tail x = Err e ∧ spec_allowed e = false).
Proof.
  repeat split.
  - intros harmonic_tail x.
    destruct (harmonicdist_fails harmonic_tail x) as [-> | ->];
      by eexists.
Qed.
End Dispatch.

(* ================================================================= *)
(** ** Exact arithmetic *)

Import Exact.
Section ExactProps.
Local Open Scope R_scope.

Lemma Rgeb_true x y : Rgeb x y = true ↔ y <= x.
Proof. unfold Rgeb. destruct (Rle_dec y x); split; (done || lra). Qed.

Lemma Rltb_true x y : Rltb x y = true ↔ x < y.
Proof. unfold Rltb. destruct (Rlt_dec x y); split; (done || lra). Qed.

(** [x >= 0] and [x < 0] never hold together. *)
Lemma Rgeb_Rltb_excl x y : Rgeb x y && Rltb x y = false.
Proof.
  unfold Rgeb, Rltb. destruct (Rle_dec y x), (Rlt_dec x y); try done. lra.
Qed.

Lemma examineQuad_never (z : R * R) : examineQuad_elem z = 0%Z.
Proof.
  unfold examineQuad_elem. simpl.
  pose proof (Rgeb_Rltb_excl z.1 0) as H1.
  destruct (Rgeb z.2 0), (Rltb z.1 0), (Rgeb z.1 0), (Rltb z.2 0);
    simpl in *; done.
Qed.

Lemma isigmoid_elem_mixed (z : R * R) :
  (0 <= z.1 ∧ z.2 < 0) ∨ (z.1 < 0 ∧ 0 <= z.2) →
  isigmoid_elem z = (0, 0).
Proof.
  intros Hq. unfold isigmoid_elem. rewrite examineQuad_never. simpl.
  assert (Rgeb z.1 0 && Rgeb z.2 0 = false) as ->.
  { apply andb_false_iff. destruct Hq as [[? ?]|[? ?]].
    - right. apply not_true_is_false. rewrite Rgeb_true. lra.
    - left. apply not_true_is_false. rewrite Rgeb_true. lra. }
  assert (Rltb z.1 0 && Rltb z.2 0 = false) as ->.
  { apply andb_false_iff. destruct Hq as [[? ?]|[? ?]].
    - left. apply not_true_is_false. rewrite Rltb_true. lra.
    - right. apply not_true_is_false. rewrite Rltb_true. lra. }
  unfold cmul, of_real. simpl. f_equal; ring.
Qed.
End ExactProps.

(* ================================================================= *)
(** ** Polar form in exact arithmetic *)

Section Polar.
Local Open Scope R_scope.

Lemma Rhypot_polar m t : 0 <= m → Rhypot (m * cos t) (m * sin t) = m.
Proof.
  intros Hm. unfold Rhypot. apply sqrt_lem_1; [|done|].
  - nra.
  - pose proof (sin2_cos2 t) as Hsc. unfold Rsqr in Hsc.
    replace (m * cos t * (m * cos t) + m * sin t * (m * sin t))
      with (m * m * (sin t * sin t + cos t * cos t)) by ring.
    rewrite Hsc. ring.
Qed.

Lemma cos_atan_pos t : 0 < cos (atan t).
Proof. apply cos_gt_0; pose proof (atan_bound t); lra. Qed.

Lemma tan_ratio m a : m ≠ 0 → cos a ≠ 0 → m * sin a / (m * cos a) = tan a.
Proof. intros Hm Hc. unfold tan. field. done. Qed.

Lemma sin_atan_sign t : (0 <= t → 0 <= sin (atan t)) ∧ (t < 0 → sin (atan t) < 0)
                        ∧ (0 < t → 0 < sin (atan t)).
Proof.
  pose proof (atan_bound t) as Hb.
  assert (0 < PI) by apply PI_RGT_0.
  repeat split; intros Ht.
  - destruct (Req_dec t 0) as [->|]; [rewrite atan_0, sin_0; lra|].
    apply Rlt_le, sin_gt_0; [|lra].
    rewrite <- atan_0. apply atan_increasing. lra.
  - apply sin_lt_0_var; [lra|].
    rewrite <- atan_0. apply atan_increasing. lra.
  - apply sin_gt_0; [|lra].
    rewrite <- atan_0. apply atan_increasing. lra.
Qed.

(** A positive multiple of the unit vector at the angle of [(x, y)] has
    that angle again. *)
Lemma Ratan2_polar m x y :
  0 < m →
  Ratan2 (m * sin (Ratan2 y x)) (m * cos (Ratan2 y x)) = Ratan2 y x.
Proof.
  intros Hm. assert (0 < PI) by apply PI_RGT_0.
  unfold Ratan2 at 2 3 4.
  destruct (Rlt_dec 0 x) as [Hx|Hx].
  { (* right half plane *)
    pose proof (cos_atan_pos (y / x)) as Hc.
    unfold Ratan2. destruct (Rlt_dec 0 (m * cos (atan (y / x)))) as [_|Hn].
    - rewrite tan_ratio by lra. by rewrite tan_atan.
    - exfalso. apply Hn. nra. }
  destruct (Rlt_dec x 0) as [Hx'|Hx'].
  { pose proof (cos_atan_pos (y / x)) as Hc.
    pose proof (sin_atan_sign (y / x)) as (Hs0 & Hs1 & Hs2).
    destruct (Rle_dec 0 y) as [Hy|Hy].
    - (* second quadrant *)
      assert (y / x <= 0) as Ht.
      { unfold Rdiv. assert (/ x < 0) by (by apply Rinv_lt_0_compat).
        nra. }
      rewrite neg_sin, neg_cos.
      assert (sin (atan (y / x)) <= 0) as Hs.
      { destruct (Req_dec (y / x) 0) as [->|];
          [rewrite atan_0, sin_0; lra|]. apply Rlt_le, Hs1. lra. }
      unfold Ratan2.
      destruct (Rlt_dec 0 (m * - cos (atan (y / x)))); [nra|].
      destruct (Rlt_dec (m * - cos (atan (y / x))) 0); [|nra].
      destruct (Rle_dec 0 (m * - sin (atan (y / x)))); [|nra].
      replace (m * - sin (atan (y / x)) / (m * - cos (atan (y / x))))
        with (m * sin (atan (y / x)) / (m * cos (atan (y / x))))
        by (field; lra).
      rewrite tan_ratio by lra. by rewrite tan_atan.
    - (* third quadrant *)
      assert (0 < y / x) as Ht.
      { unfold Rdiv. assert (/ x < 0) by (by apply Rinv_lt_0_compat).
        nra. }
      specialize (Hs2 Ht).
      replace (atan (y / x) - PI) with (- (PI - atan (y / x))) by ring.
      rewrite sin_neg, cos_neg, sin_PI_x, Rtrigo_facts.cos_pi_minus.
      unfold Ratan2.
      destruct (Rlt_dec 0 (m * - cos (atan (y / x)))); [nra|].
      destruct (Rlt_dec (m * - cos (atan (y / x))) 0); [|nra].
      destruct (Rle_dec 0 (m * - sin (atan (y / x)))); [nra|].
      replace (m * - sin (atan (y / x)) / (m * - cos (atan (y / x))))
        with (m * sin (atan (y / x)) / (m * cos (atan (y / x))))
        by (field; lra).
      rewrite tan_ratio by lra. rewrite tan_atan. ring. }
  destruct (Rlt_dec 0 y) as [Hy|Hy].
  { rewrite sin_PI2, cos_PI2. unfold Ratan2.
    repeat match goal with
           | |- context [Rlt_dec ?a ?b] => destruct (Rlt_dec a b)
           end; lra. }
  destruct (Rlt_dec y 0) as [Hy'|Hy'].
  { rewrite sin_neg, cos_neg, sin_PI2, cos_PI2. unfold Ratan2.
    repeat match goal with
           | |- context [Rlt_dec ?a ?b] => destruct (Rlt_dec a b)
           end; lra. }
  rewrite sin_0, cos_0. unfold Ratan2.
  destruct (Rlt_dec 0 (m * 1)); [|lra].
  replace (m * 0 / (m * 1)) with 0 by (field; lra). apply atan_0.
Qed.

Lemma fsum_nonneg (l : list R) : Forall (λ v, 0 <= v) l → 0 <= fsum l.
Proof.
  unfold fsum. simpl. intros Hl.
  assert (∀ acc, 0 <= acc → 0 <= foldl Rplus acc l) as Hgen.
  { induction Hl as [|v l Hv Hl IH]; intros acc Hacc; simpl; [done|].
    apply IH. lra. }
  apply Hgen. lra.
Qed.

Lemma Rdiv_nonneg a b : 0 <= a → 0 <= b → 0 <= a / b.
Proof.
  intros Ha Hb. destruct (Req_dec b 0) as [->|Hne].
  - unfold Rdiv. rewrite Rinv_0. lra.
  - apply Rle_mult_inv_pos; lra.
Qed.
End Polar.

(* ================================================================= *)
(** ** Complex softmax and sigmoid in exact arithmetic *)

Section ExactTheorems.
Local Open Scope R_scope.

Lemma norm_dim_valid ndim dim :
  (- Z.of_nat (Nat.max ndim 1) <= dim < Z.of_nat (Nat.max ndim 1))%Z →
  ∃ d, norm_dim ndim dim = Ok d.
Proof.
  intros [Hlo Hhi]. unfold norm_dim.
  apply Z.leb_le in Hlo. apply Z.ltb_lt in Hhi. rewrite Hlo, Hhi. simpl.
  eauto.
Qed.

Lemma softmax_elem_nonneg (sh : list nat) d k (l : list R) v :
  0 <= exp v / fsum ((λ j, exp (nth j l 0)) <$> fiber sh d k).
Proof.
  apply Rdiv_nonneg; [left; apply exp_pos|].
  apply fsum_nonneg, Forall_fmap, Forall_forall. intros j _. simpl.
  left. apply exp_pos.
Qed.

(** C2: on a complex tensor [isoftmax] is the softmax of the polar
    decomposition: every output magnitude is the softmax of the input
    magnitudes along [dim], and an output of non-zero magnitude keeps the
    angle of its input. *)
Theorem isoftmax_polar (x : tensor (R * R)) (dim : Z) :
  wf x →
  (- Z.of_nat (Nat.max (length (shape x)) 1) <= dim
   < Z.of_nat (Nat.max (length (shape x)) 1))%Z →
  ∃ y sm,
    isoftmax (TCplx x) dim = Ok (TCplx y)
    ∧ t_softmax (tmap cabs x) dim = Ok sm
    ∧ shape y = shape x
    ∧ length (data y) = length (data x)
    ∧ ∀ k z, data x !! k = Some z →
        ∃ w m, data y !! k = Some w ∧ data sm !! k = Some m
               ∧ cabs w = m ∧ (cabs w ≠ 0 → cangle w = cangle z).
Proof.
  destruct x as [sh l]. unfold wf. simpl. intros Hl Hdim.
  destruct (norm_dim_valid _ _ Hdim) as [d Hd].
  unfold isoftmax, t_softmax, t_cos, t_sin. cbn [shape data tmap].
  rewrite Hd. repeat tensor_step.
  do 2 eexists. split; [reflexivity|]. split; [reflexivity|].
  split; [done|]. split.
  { cbn [data]. rewrite !length_zip_with, !length_imap, !length_fmap. by rewrite !Nat.min_id. }
  intros k z Hk. cbn [data] in *. do 2 eexists.
  rewrite !lookup_zip_with, !list_lookup_imap, !list_lookup_fmap, Hk.
  simpl. split; [reflexivity|]. split; [reflexivity|].
  match goal with |- context [exp ?a / ?b] => set (m := exp a / b) end.
  assert (0 <= m) as Hm by apply softmax_elem_nonneg.
  cbn [fst snd]. split.
  - by apply Rhypot_polar.
  - rewrite Rhypot_polar by done. intros Hne.
    apply Ratan2_polar. lra.
Qed.

(** C9: in a mixed-sign quadrant [isigmoid] is exactly zero: the mask
    [examineQuad] is false everywhere, and so are the masks of the two
    other branches at such an element. *)
Theorem isigmoid_mixed_quadrant_zero (x : tensor (R * R)) (k : nat)
    (z : R * R) :
  wf x → data x !! k = Some z →
  (0 <= z.1 ∧ z.2 < 0) ∨ (z.1 < 0 ∧ 0 <= z.2) →
  (∀ w : R * R, examineQuad_elem w = 0%Z)
  ∧ ∃ y, isigmoid (TCplx x) = Ok (TCplx y) ∧ data y !! k = Some (0, 0).
Proof.
  destruct x as [sh l]. unfold wf. simpl. intros Hl Hk Hq.
  split; [apply examineQuad_never|].
  eexists. split; [by apply isigmoid_spec_complex|]. simpl.
  rewrite list_lookup_fmap, Hk. simpl. f_equal.
  by apply isigmoid_elem_mixed.
Qed.
End ExactTheorems.

(* ================================================================= *)
(** ** Storage: what the functions write *)

Module EffProps.
Import Eff.
Section Frames.
Context {V : Type}.
Variable host_op : string → list Z → list V → exc V.
Variable host_test : string → list Z → list V → bool.
Variable view_get : vstep → V → V.
Variable view_put : vstep → V → V → V.

Local Abbreviation M := (@M V).
Local Abbreviation op := (op host_op view_get).
Local Abbreviation test := (test host_test view_get).
Local Abbreviation read := (read view_get).
Local Abbreviation read_all := (read_all view_get).
Local Abbreviation write := (write view_get view_put).
Local Abbreviation inplace := (inplace host_op view_get view_put).
Local Abbreviation convert := (convert host_op host_test view_get).

Lemma frame_refl n (σ : list V) : frame n σ σ.
Proof. by split. Qed.

Lemma frame_trans n (σ1 σ2 σ3 : list V) :
  frame n σ1 σ2 → frame n σ2 σ3 → frame n σ1 σ3.
Proof.
  intros [Hl1 H1] [Hl2 H2]. split; [lia|]. intros k Hk.
  by rewrite H2, H1.
Qed.

Lemma safe_ret {A} n (a : A) (Q : A → Prop) : Q a → safe n (mret a : M A) Q.
Proof.
  intros Ha σ Hσ. split; [apply frame_refl|]. by intros a' [= <-].
Qed.

Lemma safe_bind {A B} n (m : M A) (k : A → M B) (Q : A → Prop)
    (R : B → Prop) :
  safe n m Q → (∀ a, Q a → safe n (k a) R) → safe n (m ≫= k) R.
Proof.
  intros Hm Hk σ Hσ. destruct (Hm σ Hσ) as [Hf HQ].
  unfold mbind, M_bind. destruct (m σ) as [[[a|e]|] σ'] eqn:E; simpl in *;
    [|by split..].
  destruct Hf as [Hl Hf].
  destruct (Hk a (HQ a eq_refl) σ') as [Hf' HR]; [lia|].
  split; [|done]. by eapply frame_trans.
Qed.

Lemma safe_mono {A} n (m : M A) (Q R : A → Prop) :
  safe n m Q → (∀ a, Q a → R a) → safe n m R.
Proof.
  intros Hm HQR σ Hσ. destruct (Hm σ Hσ) as [Hf HQ]. split; [done|].
  intros a Ha. by apply HQR, HQ.
Qed.

Lemma safe_raise {A} n e (Q : A → Prop) : safe n (raise e : M A) Q.
Proof. intros σ Hσ. split; [apply frame_refl|done]. Qed.

Lemma safe_out_of_fuel {A} n (Q : A → Prop) : safe n (out_of_fuel : M A) Q.
Proof. intros σ Hσ. split; [apply frame_refl|done]. Qed.

Lemma safe_lift {A} n (r : exc A) : safe n (lift r : M A) (λ _, True).
Proof. intros σ Hσ. split; [apply frame_refl|done]. Qed.

Lemma safe_read n h : safe n (read h) (λ _, True).
Proof.
  intros σ Hσ. unfold Eff.read. destruct (σ !! sid h); simpl;
    (split; [apply frame_refl|done]).
Qed.

Lemma safe_read_all n hs : safe n (read_all hs) (λ _, True).
Proof.
  induction hs as [|h hs IH]; simpl; [by apply safe_ret|].
  eapply safe_bind; [apply safe_read|]. intros v _.
  eapply safe_bind; [apply IH|]. intros vs _. by apply safe_ret.
Qed.

Lemma safe_alloc n v : safe n (alloc v : M handle) (fresh n).
Proof.
  intros σ Hσ. unfold alloc. simpl. split.
  - split; [rewrite length_app; lia|]. intros k Hk.
    apply lookup_app_l. lia.
  - intros a [= <-]. unfold fresh. simpl. lia.
Qed.

Lemma safe_op n name ints args : safe n (op name ints args) (fresh n).
Proof.
  unfold Eff.op. eapply safe_bind; [apply safe_read_all|]. intros vs _.
  eapply safe_bind; [apply safe_lift|]. intros v _. apply safe_alloc.
Qed.

Lemma safe_view_of n name ints base :
  safe n (view_of name ints base : M handle) (λ h, sid h = sid base).
Proof. by apply safe_ret. Qed.

Lemma safe_write n h v : fresh n h → safe n (write h v) (λ _, True).
Proof.
  intros Hh σ Hσ. unfold Eff.write. destruct (σ !! sid h) eqn:E; simpl;
    [|split; [apply frame_refl|done]].
  split; [|done]. split; [by rewrite length_insert|].
  intros k Hk. apply list_lookup_insert_ne. unfold fresh in Hh. lia.
Qed.

Lemma safe_inplace n name ints target args :
  fresh n target → safe n (inplace name ints target args) (λ _, True).
Proof.
  intros Hh. unfold Eff.inplace.
  eapply safe_bind; [apply safe_read_all|]. intros vs _.
  eapply safe_bind; [apply safe_lift|]. intros v _. by apply safe_write.
Qed.

Lemma safe_test n name ints args : safe n (test name ints args) (λ _, True).
Proof.
  unfold Eff.test. eapply safe_bind; [apply safe_read_all|]. intros vs _.
  by apply safe_ret.
Qed.

Lemma safe_convert n name ints x others :
  safe n (convert name ints x others) (λ h, sid h = sid x ∨ fresh n h).
Proof.
  unfold Eff.convert. eapply safe_bind; [apply safe_read_all|].
  intros vs _. destruct (host_test _ _ _).
  - apply safe_ret. by left.
  - eapply safe_mono; [apply safe_op|]. intros h Hh. by right.
Qed.

Lemma safe_raise_if n b e : safe n (raise_if b e : M ()) (λ _, True).
Proof. destruct b; [apply safe_raise|by apply safe_ret]. Qed.

Lemma safe_when n b (m : M ()) :
  safe n m (λ _, True) → safe n (when b m) (λ _, True).
Proof. intros Hm. destruct b; [done|by apply safe_ret]. Qed.

Lemma safe_for_each_m {X St} n (xs : list X) (body : X → St → M St)
    (Inv : St → Prop) st :
  (∀ x st, Inv st → safe n (body x st) Inv) →
  Inv st → safe n (for_each_m xs body st) Inv.
Proof.
  intros Hbody. revert st. induction xs as [|x xs IH]; intros st Hst; simpl.
  - by apply safe_ret.
  - eapply safe_bind; [by apply Hbody|]. intros st' Hst'. by apply IH.
Qed.

Lemma safe_while_m {St} n fuel (cond : St → M bool) (body : St → M St)
    (Inv : St → Prop) st :
  (∀ st, safe n (cond st) (λ _, True)) →
  (∀ st, Inv st → safe n (body st) Inv) →
  Inv st → safe n (while_m fuel cond body st) Inv.
Proof.
  intros Hcond Hbody. revert st.
  induction fuel as [|fuel IH]; intros st Hst; simpl.
  - eapply safe_bind; [apply Hcond|]. intros [] _;
      [apply safe_out_of_fuel|by apply safe_ret].
  - eapply safe_bind; [apply Hcond|]. intros [] _; [|by apply safe_ret].
    eapply safe_bind; [by apply Hbody|]. intros st' Hst'. by apply IH.
Qed.

Lemma safe_pure {A} (m : M A) (Q : A → Prop) :
  (∀ n, safe n m Q) → pure_on_store m.
Proof.
  intros Hm σ k Hk. destruct (Hm (length σ) σ) as [[_ Hf] _]; [done|].
  by apply Hf.
Qed.

Lemma safe_view_of_fresh n name ints base :
  fresh n base → safe n (view_of name ints base : M handle) (fresh n).
Proof.
  intros Hb. eapply safe_mono; [apply safe_view_of|].
  unfold fresh in *. intros h ->. done.
Qed.

Lemma safe_convert_fresh n name ints x others :
  fresh n x → safe n (convert name ints x others) (fresh n).
Proof.
  intros Hb. eapply safe_mono; [apply safe_convert|].
  unfold fresh in *. intros h [-> | ?]; done.
Qed.

Lemma safe_helper n name ints args :
  safe n (helper host_op view_get name ints args) (fresh n).
Proof. apply safe_op. Qed.
End Frames.

Create HintDb safe.

Ltac fresh_solve :=
  unfold fresh in *; simpl in *;
  repeat match goal with H : _ ∨ _ |- _ => destruct H end;
  solve [lia | congruence | done].

Ltac safe_prim :=
  first
    [ apply safe_op
    | apply safe_helper
    | apply safe_test
    | apply safe_raise_if
    | apply safe_raise
    | apply safe_inplace; fresh_solve
    | apply safe_view_of_fresh; fresh_solve
    | apply safe_view_of
    | apply safe_convert_fresh; fresh_solve
    | apply safe_convert
    | solve [eauto with safe] ].

Ltac safe_all :=
  lazymatch goal with
  | |- safe _ (mbind _ _) _ =>
      eapply safe_bind; [safe_all | intros ? ?; safe_all]
  | |- safe _ (if ?c then _ else _) _ => destruct c; safe_all
  | |- safe _ (when _ _) _ => apply safe_when; safe_all
  | |- safe _ (mret _) _ => apply safe_ret; first [exact I | fresh_solve]
  | |- safe _ _ _ =>
      first [ safe_prim
            | eapply safe_mono;
              [safe_prim | intros; first [exact I | fresh_solve]] ]
  end.

Section Kernels.
Context {V : Type}.
Variable host_op : string → list Z → list V → exc V.
Variable host_test : string → list Z → list V → bool.
Variable view_get : vstep → V → V.
Variable view_put : vstep → V → V → V.

Local Abbreviation pi := (pi host_op view_get).
Local Abbreviation i := (i host_op view_get).
Local Abbreviation isoftmax := (isoftmax host_op host_test view_get).
Local Abbreviation nsoftmax := (nsoftmax host_op host_test view_get view_put).
Local Abbreviation isigmoid := (isigmoid host_op host_test view_get).
Local Abbreviation icos := (icos host_op host_test view_get).
Local Abbreviation isin := (isin host_op host_test view_get).

Lemma pi_safe n : safe n pi (fresh n).
Proof. unfold Eff.pi. safe_all. Qed.

Lemma i_safe n : safe n i (fresh n).
Proof. unfold Eff.i. safe_all. Qed.

Hint Resolve pi_safe i_safe : safe.

Lemma isoftmax_safe n x dim : safe n (isoftmax x dim) (λ _, True).
Proof. unfold Eff.isoftmax. safe_all. Qed.

Hint Resolve isoftmax_safe : safe.

Lemma nsoftmax_safe n x dims : safe n (nsoftmax x dims) (λ _, True).
Proof.
  unfold Eff.nsoftmax.
  eapply safe_bind; [apply safe_op|]. intros result Hr.
  eapply safe_bind; [apply safe_raise_if|]. intros _ _.
  eapply safe_bind; [|intros; by apply safe_ret].
  apply (safe_for_each_m _ _ _ (λ _, True)); [|done].
  intros dim _ _. safe_all.
Qed.

Lemma isigmoid_safe n x : safe n (isigmoid x) (λ _, True).
Proof. unfold Eff.isigmoid. cbv zeta. safe_all. Qed.

Lemma icos_safe n x : safe n (icos x) (λ _, True).
Proof. unfold Eff.icos. safe_all. Qed.

Lemma isin_safe n x : safe n (isin x) (λ _, True).
Proof. unfold Eff.isin. safe_all. Qed.

Hint Resolve isigmoid_safe : safe.

Local Abbreviation toComplex := (toComplex host_op host_test view_get).
Local Abbreviation realprimishdist :=
  (realprimishdist host_op host_test view_get view_put).
Local Abbreviation gaussianprimishdist :=
  (gaussianprimishdist host_op host_test view_get view_put).
Local Abbreviation iprimishdist :=
  (iprimishdist host_op host_test view_get view_put).
Local Abbreviation __hzetaitr := (__hzetaitr host_op view_get).
Local Abbreviation ge_mask := (ge_mask host_op host_test view_get).
Local Abbreviation blend := (blend host_op view_get).
Local Abbreviation hzetae := (hzetae host_op host_test view_get).
Local Abbreviation hzetas := (hzetas host_op host_test view_get view_put).
Local Abbreviation hzetas_store := (hzetas_store host_op view_get view_put).
Local Abbreviation __lerchitr := (__lerchitr host_op host_test view_get).
Local Abbreviation lerche := (lerche host_op host_test view_get).
Local Abbreviation lens := (lens host_op host_test view_get).

Lemma toComplex_safe n x :
  safe n (toComplex x) (λ h, sid h = sid x ∨ fresh n h).
Proof. apply safe_convert. Qed.

Lemma realprimishdist_safe n x relative gaussApprox :
  safe n (realprimishdist x relative gaussApprox) (λ _, True).
Proof.
  unfold Eff.realprimishdist. cbv zeta.
  destruct gaussApprox; cbv beta iota; safe_all.
Qed.

Hint Resolve realprimishdist_safe : safe.

Lemma gaussianprimishdist_safe n x relative :
  safe n (gaussianprimishdist x relative) (λ _, True).
Proof.
  unfold Eff.gaussianprimishdist. cbv zeta.
  eapply safe_bind; [apply safe_test|]. intros c _.
  eapply (safe_bind _ _ _ (λ _, True)).
  { destruct c; simpl; [by apply safe_ret|].
    eapply safe_mono; [apply toComplex_safe|done]. }
  intros x' _. safe_all.
Qed.

Hint Resolve gaussianprimishdist_safe : safe.

Lemma iprimishdist_safe n x relative :
  safe n (iprimishdist x relative) (λ _, True).
Proof. unfold Eff.iprimishdist. safe_all. Qed.

Lemma hzetaitr_safe n s a k : safe n (__hzetaitr s a k) (fresh n).
Proof. unfold Eff.__hzetaitr. safe_all. Qed.

Lemma ge_mask_safe n r e : safe n (ge_mask r e) (fresh n).
Proof. unfold Eff.ge_mask. safe_all. Qed.

Lemma blend_safe n k d e r : safe n (blend k d e r) (fresh n).
Proof. unfold Eff.blend. safe_all. Qed.

Hint Resolve hzetaitr_safe ge_mask_safe blend_safe : safe.

Lemma zeta_cond_safe n maxiter st :
  safe n (zeta_cond host_test view_get maxiter st) (λ _, True).
Proof. unfold Eff.zeta_cond. safe_all. Qed.

Lemma hzetae_safe n fuel s a res aeps maxiter :
  safe n (hzetae fuel s a res aeps maxiter) (λ _, True).
Proof.
  unfold Eff.hzetae.
  eapply safe_bind; [apply isigmoid_safe|]. intros epsig _.
  eapply safe_bind; [apply hzetaitr_safe|]. intros delta _.
  eapply safe_bind; [apply safe_op|]. intros ol _.
  eapply safe_bind; [apply safe_op|]. intros result _.
  eapply safe_bind; [apply ge_mask_safe|]. intros keepGoing _.
  eapply safe_bind; [|intros; by apply safe_ret].
  apply (safe_while_m _ _ _ _ (λ _, True)); [|intros st _|done].
  - apply zeta_cond_safe.
  - safe_all.
Qed.

Lemma hzetas_store_safe n s a epsig k j j' result :
  fresh n result →
  safe n (hzetas_store s a epsig k j j' result) (λ _, True).
Proof. intros Hr. unfold Eff.hzetas_store. safe_all. Qed.

Lemma hzetas_safe n s a res blankSamples samples fftformat :
  safe n (hzetas s a res blankSamples samples fftformat) (λ _, True).
Proof.
  unfold Eff.hzetas.
  eapply safe_bind; [apply safe_view_of|]. intros us _.
  eapply safe_bind; [apply safe_op|]. intros z _.
  eapply safe_bind; [apply safe_op|]. intros mm Hmm.
  eapply safe_bind; [by apply safe_convert_fresh|]. intros result Hr.
  eapply safe_bind; [apply isigmoid_safe|]. intros epsig _.
  eapply safe_bind; [apply hzetaitr_safe|]. intros first _.
  eapply safe_bind; [by apply safe_view_of_fresh|]. intros target Ht.
  eapply safe_bind; [by apply safe_inplace|]. intros _ _.
  eapply (safe_bind _ _ _ (λ _, True)).
  { apply (safe_for_each_m _ _ _ (λ _, True)); [|done]. intros _ idx _.
    eapply safe_bind; [by apply hzetas_store_safe|]. intros _ _.
    by apply safe_ret. }
  intros idx _.
  eapply (safe_bind _ _ _ (λ _, True)).
  { apply (safe_for_each_m _ _ _ (λ _, True)); [|done]. intros jdx _ _.
    by apply hzetas_store_safe. }
  intros _ _. destruct fftformat; [|by apply safe_ret].
  eapply safe_mono; [apply safe_helper|done].
Qed.

Lemma lerchitr_safe n lam s a k : safe n (__lerchitr lam s a k) (fresh n).
Proof.
  unfold Eff.__lerchitr.
  eapply safe_bind; [apply pi_safe|]. intros p _.
  eapply safe_bind; [apply safe_op|]. intros h1 _.
  eapply safe_bind; [apply safe_op|]. intros h2 _.
  eapply safe_bind; [apply safe_op|]. intros hz _.
  eapply safe_bind; [apply safe_test|]. intros c _.
  eapply (safe_bind _ _ _ (λ _, True)).
  { destruct c; [|by apply safe_ret]. safe_all. }
  intros hz' _. safe_all.
Qed.

Hint Resolve lerchitr_safe : safe.

Lemma lerche_safe n fuel lam s a res aeps maxiter :
  safe n (lerche fuel lam s a res aeps maxiter) (λ _, True).
Proof.
  unfold Eff.lerche.
  eapply safe_bind; [apply isigmoid_safe|]. intros epsig _.
  eapply safe_bind; [apply lerchitr_safe|]. intros delta _.
  eapply safe_bind; [apply safe_op|]. intros ol _.
  eapply safe_bind; [apply safe_op|]. intros result _.
  eapply safe_bind; [apply ge_mask_safe|]. intros keepGoing _.
  eapply safe_bind; [|intros; by apply safe_ret].
  apply (safe_while_m _ _ _ _ (λ _, True)); [|intros st _|done].
  - apply zeta_cond_safe.
  - safe_all.
Qed.

Lemma lens_safe n x l padding dim :
  safe n (lens x l padding dim) (λ _, True).
Proof. unfold Eff.lens. safe_all. Qed.

(** C7: the numerical transforms write no storage of their caller:
    whatever the host operations compute, every storage that exists
    before the call of [isoftmax], [nsoftmax], [isigmoid], [icos], [isin],
    [iprimishdist], [hzetae], [hzetas], [lerche] or [lens] holds the same
    contents after it.  The in-place operations ([mul_], [div_], the index
    assignments) all go to storage the function allocated itself. *)
Theorem transforms_do_not_write_their_inputs
    (x lam s a res aeps l : handle) (dim padding maxiter : Z)
    (dims : list Z) (relative fftformat : bool)
    (blankSamples samples : Z) (fuel : nat) :
  pure_on_store (isoftmax x dim)
  ∧ pure_on_store (nsoftmax x dims)
  ∧ pure_on_store (isigmoid x)
  ∧ pure_on_store (icos x)
  ∧ pure_on_store (isin x)
  ∧ pure_on_store (iprimishdist x relative)
  ∧ pure_on_store (hzetae fuel s a res aeps maxiter)
  ∧ pure_on_store (hzetas s a res blankSamples samples fftformat)
  ∧ pure_on_store (lerche fuel lam s a res aeps maxiter)
  ∧ pure_on_store (lens x l padding dim).
Proof.
  repeat split; eapply safe_pure; intros n.
  - apply isoftmax_safe.
  - apply nsoftmax_safe.
  - apply isigmoid_safe.
  - apply icos_safe.
  - apply isin_safe.
  - apply iprimishdist_safe.
  - apply hzetae_safe.
  - apply hzetas_safe.
  - apply lerche_safe.
  - apply lens_safe.
Qed.
End Kernels.
End EffProps.

(* ================================================================= *)
(** ** The statements on sample tensors *)

Section OnSamples.
Import Samples.
Local Open Scope R_scope.

(** The complex softmax of [[1+0j, 0+1j]] along its only dimension. *)
Lemma isoftmax_polar_axes :
  wf axes
  ∧ (- Z.of_nat (Nat.max (length (shape axes)) 1) <= 0
     < Z.of_nat (Nat.max (length (shape axes)) 1))%Z
  ∧ ∃ y sm,
      isoftmax (TCplx axes) 0 = Ok (TCplx y)
      ∧ t_softmax (tmap cabs axes) 0 = Ok sm
      ∧ shape y = shape axes
      ∧ length (data y) = length (data axes)
      ∧ ∀ k z, data axes !! k = Some z →
          ∃ w m, data y !! k = Some w ∧ data sm !! k = Some m
                 ∧ cabs w = m ∧ (cabs w ≠ 0 → cangle w = cangle z).
Proof.
  assert (wf axes) as Hwf by reflexivity.
  assert (- Z.of_nat (Nat.max (length (shape axes)) 1) <= 0
          < Z.of_nat (Nat.max (length (shape axes)) 1))%Z as Hdim
    by (simpl; lia).
  exact (conj Hwf (conj Hdim (isoftmax_polar axes 0 Hwf Hdim))).
Defined.

(** [1-1j] lies in a mixed-sign quadrant: [isigmoid] is zero there. *)
Lemma isigmoid_mixed_quadrant_zero_mixed :
  wf mixed
  ∧ data mixed !! 0%nat = Some (1, -1)
  ∧ ((0 <= 1 ∧ -1 < 0) ∨ (1 < 0 ∧ 0 <= -1))
  ∧ (∀ w : R * R, examineQuad_elem w = 0%Z)
  ∧ ∃ y, isigmoid (TCplx mixed) = Ok (TCplx y)
         ∧ data y !! 0%nat = Some (0, 0).
Proof.
  assert (wf mixed) as Hwf by reflexivity.
  assert (data mixed !! 0%nat = Some (1, -1)) as Hk by reflexivity.
  assert ((0 <= 1 ∧ -1 < 0) ∨ (1 < 0 ∧ 0 <= -1)) as Hq by (left; lra).
  exact (conj Hwf (conj Hk (conj Hq
           (isigmoid_mixed_quadrant_zero mixed 0 (1, -1) Hwf Hk Hq)))).
Defined.

(** [[1., 2.]] and [[1., 3.]] agree at position 0, and so do their
    images. *)
Lemma activations_elementwise_vec :
  size vec12 = size vec13
  ∧ is_complex vec12 = is_complex vec13
  ∧ wfT vec12 ∧ wfT vec13
  ∧ elem_at vec12 0 = elem_at vec13 0
  ∧ (∃ cx cy, icos vec12 = Ok cx ∧ icos vec13 = Ok cy
              ∧ elem_at cx 0 = elem_at cy 0)
  ∧ (∃ sx sy, isin vec12 = Ok sx ∧ isin vec13 = Ok sy
              ∧ elem_at sx 0 = elem_at sy 0)
  ∧ (∃ gx gy, isigmoid vec12 = Ok gx ∧ isigmoid vec13 = Ok gy
              ∧ elem_at gx 0 = elem_at gy 0).
Proof.
  repeat (split; [reflexivity|]).
  by apply (activations_elementwise vec12 vec13 0).
Defined.

(** 0-dim tensors broadcast against each other. *)
Lemma inputs_fit_nums (rs : list R) : inputs_fit (num <$> rs).
Proof.
  exists []. apply Forall_fmap, Forall_forall. intros r _. by left.
Qed.

(** [hzetae] and [lerche] on 0-dim inputs with [maxiter = 4]. *)
Lemma zeta_loops_terminate_nums :
  (Z.to_nat (4 - 1) ≤ 3)%nat
  ∧ (∃ r, hzetae_run 3 (num 2) (num 1) (num 0) (num (1/10)) 4 = Some r
        ∧ (∀ t n, r = Ok (t, n) → (n ≤ Z.to_nat (4 - 1))%nat)
        ∧ (inputs_fit [num 2; num 1; num 0; num (1/10)] → wfT (num 0) →
           ∃ t n, r = Ok (t, n)))
  ∧ (∃ r, lerche_run 3 (num 1) (num 2) (num 1) (num 0) (num (1/10)) 4
          = Some r
          ∧ (∀ t n, r = Ok (t, n) → (n ≤ Z.to_nat (4 - 1))%nat)
          ∧ (inputs_fit [num 1; num 2; num 1; num 0; num (1/10)] →
             wfT (num 0) → ∃ t n, r = Ok (t, n))).
Proof.
  assert (Z.to_nat (4 - 1) ≤ 3)%nat as Hfuel by lia.
  exact (conj Hfuel
           (zeta_loops_terminate (num 1) (num 2) (num 1) (num 0)
              (num (1/10)) 4 3 Hfuel)).
Defined.

(** A run of [hzetae] that returns, and its stopping condition. *)
Lemma zeta_loops_stop_globally_nums :
  ∃ r n,
    hzetae_run 3 (num 2) (num 1) (num 0) (num (1/10)) 4 = Some (Ok (r, n))
    ∧ ∃ epsig st0,
        hzetae_init (num 2) (num 1) (num 0) (num (1/10)) = Ok (epsig, st0)
        ∧ global_stop (num (1/10)) 4
            (hzetae_body (num 2) (num 1) epsig (num (1/10))) st0 r n.
Proof.
  destruct (hzetae_run_returns (num 2) (num 1) (num 0) (num (1/10)) 4 3)
    as (r & n & Hr);
    [lia | apply (inputs_fit_nums [2; 1; 0; 1/10]) | reflexivity |].
  exists r, n. split; [exact Hr|].
  exact (proj1 (zeta_loops_stop_globally (num 1) (num 2) (num 1) (num 0)
                  (num (1/10)) 4 3 r n) Hr).
Defined.

(** States of three elements against queries of two fail the assertion;
    states of two elements pass it. *)
Lemma Turbulence_forward_assertion_vec :
  (size vec000 ≠ size vec12
   ∧ Turbulence_forward (λ q _ _ _, Ok q) vec12 vec000 "bicubic" "border"
     = Err ShapeAssertion)
  ∧ (size vec13 = size vec12
     ∧ Turbulence_forward (λ q _ _ _, Ok q) vec12 vec13 "bicubic" "border"
       = Ok vec12).
Proof.
  assert (size vec000 ≠ size vec12) as Hne by discriminate.
  assert (size vec13 = size vec12) as Heq by reflexivity.
  split.
  - exact (conj Hne
             (proj1 (Turbulence_forward_assertion (λ q _ _ _, Ok q) vec12
                       vec000 "bicubic" "border") Hne)).
  - exact (conj Heq
             (proj2 (Turbulence_forward_assertion (λ q _ _ _, Ok q) vec12
                       vec13 "bicubic" "border") Heq)).
Defined.

(** Three samples after two blank steps, with a 0-dim [res]. *)
Lemma hzetas_recurrence_vec :
  wfT vec12 ∧ wfT vec11 ∧ wfT (num 0) ∧ size vec11 = size vec12
  ∧ fits (size vec12) (size (num 0))
  ∧ (1 <= 3)%Z ∧ (0 <= 2)%Z
  ∧ ∃ epsig result c0,
      isigmoid (num 0) = Ok epsig
      ∧ hzetas Ok vec12 vec11 (num 0) 2 3 false = Ok (TCplx result)
      ∧ shape result = size vec12 ++ [Z.to_nat 3]
      ∧ wf result
      ∧ get_channel result 0 = Ok c0
      ∧ blank_channel vec12 vec11 epsig (Z.to_nat 2) = Ok c0
      ∧ recurrence_upto vec12 vec11 epsig 2 (Z.to_nat 3 - 1) result.
Proof.
  assert (fits (size vec12) (size (num 0))) as Hfit
    by (right; right; left; reflexivity).
  assert (1 <= 3)%Z as Hs by lia.
  assert (0 <= 2)%Z as Hb by lia.
  repeat (split; [first [reflexivity | assumption]|]).
  exact (hzetas_recurrence Ok vec12 vec11 (num 0) 2 3
           eq_refl eq_refl eq_refl eq_refl Hfit Hs Hb).
Defined.

(** [x ^ -(-1)] for a positive [x]. *)
Lemma Rpow_pos_1 x : 0 < x → Rpow x (- (-1)) = x.
Proof.
  intros Hx. unfold Rpow. destruct (Rlt_dec 0 x); [|done].
  replace (- (-1)) with 1 by lra. by apply Rpower_1.
Qed.

(** Evaluation of the tensor structure, the real arithmetic left as it
    is. *)
Ltac run_exact :=
  cbv -[Rplus Rminus Rmult Rdiv Ropp Rinv Rpow Rsigmoid Rcpow Rhypot Ratan2
        exp cos sin IZR Rgeb Rltb].

Ltac run_exact_in H :=
  cbv -[Rplus Rminus Rmult Rdiv Ropp Rinv Rpow Rsigmoid Rcpow Rhypot Ratan2
        exp cos sin IZR Rgeb Rltb] in H.

(** Two calls of [hzetas] that do not follow the recurrence as C5 states
    it.  With [s] and [a] of two elements and a [res] of three elements,
    [epsig * result[..., 0]] does not broadcast and the call raises.  With
    [blankSamples = -1] the blank loop does not run, [idx] stays 1, and
    channel 1 is computed from [n = 2], not from
    [n = blankSamples + 1 + 1 = 1]. *)
Lemma hzetas_recurrence_fails :
  hzetas Ok vec11 vec11 vec000 0 2 false = Err ShapeMismatch
  ∧ ∃ epsig result,
      isigmoid (num 0) = Ok epsig
      ∧ hzetas Ok (num (-1)) (num 1) (num 0) (-1) 2 false
        = Ok (TCplx result)
      ∧ ¬ recurrence_upto (num (-1)) (num 1) epsig (-1) (Z.to_nat 2 - 1)
            result.
Proof.
  split; [reflexivity|].
  do 2 eexists. split; [reflexivity|]. split; [run_exact; reflexivity|].
  intros Hrec. destruct (Hrec 1%nat) as (prev & cur & Hp & Hc & Hstep);
    [simpl; lia|].
  run_exact_in Hp. run_exact_in Hc. injection Hp as <-. injection Hc as <-.
  run_exact_in Hstep. injection Hstep as Hre.
  rewrite !Rpow_pos_1 in Hre by lra. lra.
Qed.
End OnSamples.

(* ================================================================= *)
(** ** math.py: primishvals *)

Lemma wrap64_small z : (- 2 ^ 63 <= z < 2 ^ 63)%Z → wrap64 z = z.
Proof.
  intros Hz. unfold wrap64. rewrite Z.mod_small; lia.
Qed.

Lemma wrap64_range z : (- 2 ^ 63 <= wrap64 z < 2 ^ 63)%Z.
Proof.
  unfold wrap64.
  pose proof (Z.mod_pos_bound (z + 2 ^ 63) (2 ^ 64) ltac:(lia)). lia.
Qed.

Lemma py_index_nonneg len i :
  (0 <= i < Z.of_nat len)%Z → py_index len i = Ok (Z.to_nat i).
Proof.
  intros [H0 H1]. unfold py_index.
  apply Z.leb_le in H0. apply Z.ltb_lt in H1. by rewrite H0, H1.
Qed.

Lemma size_at_last_1d (k : nat) : 0 < k → size_at [k] (-1) = Ok k.
Proof. intros Hk. reflexivity. Qed.

Lemma load_nonneg {A} (l : list A) i v :
  l !! Z.to_nat i = Some v → (0 <= i)%Z → load l i = Ok v.
Proof.
  intros Hv Hi. unfold load. apply lookup_lt_Some in Hv as Hlt.
  rewrite py_index_nonneg by lia. simpl. by rewrite Hv.
Qed.

Lemma store_nonneg {A} (l : list A) i v :
  (0 <= i < Z.of_nat (length l))%Z →
  store l i v = Ok (<[Z.to_nat i := v]> l).
Proof. intros Hi. unfold store. by rewrite py_index_nonneg. Qed.

Lemma primish_body_step g (st : pstate) :
  (1 <= p_itr st < Z.of_nat (length (p_result st)))%Z →
  primish_body g st
  = Ok (mkP (<[Z.to_nat (p_itr st) :=
               primish_value g (p_result st) (p_itr st) (p_pitr st)]>
             (p_result st))
          (wrap64 (p_itr st + 1)) (next_pitr (wrap64 (p_itr st + 1)))).
Proof.
  destruct st as [result itr pitr]. simpl. intros Hitr.
  unfold primish_body, primish_value. simpl.
  destruct (negb (Z.land itr 1 =? 0)%Z).
  - destruct g; by rewrite store_nonneg by lia.
  - destruct (lookup_lt_is_Some_2 result (Z.to_nat (itr - 1)) ltac:(lia))
      as [v Hv].
    rewrite (load_nonneg _ _ _ Hv) by lia. simpl.
    rewrite store_nonneg by lia. simpl.
    by rewrite (nth_lookup_Some _ _ _ _ Hv).
Qed.

Lemma primish_value_insert g (l : list Z) k v j p :
  Z.to_nat (j - 1) ≠ k →
  primish_value g (<[k := v]> l) j p = primish_value g l j p.
Proof.
  intros Hk. unfold primish_value.
  destruct (negb _); [done|].
  f_equal. f_equal.
  destruct (decide (Z.to_nat (j - 1) < length l)) as [Hlt|Hge].
  - destruct (lookup_lt_is_Some_2 l _ Hlt) as [w Hw].
    rewrite (nth_lookup_Some _ _ _ _ Hw).
    apply nth_lookup_Some. by rewrite list_lookup_insert_ne.
  - rewrite !nth_overflow; [done|lia|rewrite length_insert; lia].
Qed.

Section PrimishLoop.
Variables (g : bool) (pre : list Z) (blen N : nat).
Hypothesis Hblen : 1 ≤ blen.
Hypothesis HN : (Z.of_nat N < 2 ^ 63)%Z.

Local Abbreviation primish_inv := (primish_inv g pre blen N).

Lemma primish_inv_step st :
  primish_inv st → primish_cond (Z.of_nat N) st = true →
  ∃ st', primish_body g st = Ok st' ∧ primish_inv st'
         ∧ p_itr st' = (p_itr st + 1)%Z.
Proof using Hblen HN.
  intros (Hlen & Hitr & Hp & Hpre & Hval) Hc.
  unfold primish_cond in Hc. apply Z.ltb_lt in Hc.
  rewrite primish_body_step by lia. eexists. split; [done|]. simpl.
  rewrite wrap64_small by lia. split; [|done].
  repeat split; simpl; try lia.
  - by rewrite length_insert.
  - by rewrite take_insert_ge by lia.
  - intros j Hj Hlt.
    destruct (decide (j = Z.to_nat (p_itr st))) as [->|Hne].
    + rewrite list_lookup_insert_eq by lia. f_equal.
      rewrite primish_value_insert by lia.
      rewrite Z2Nat.id by lia. by rewrite Hp.
    + rewrite list_lookup_insert_ne by lia.
      rewrite primish_value_insert by lia. apply Hval; lia.
Qed.

Lemma primish_loop_from fuel st k :
  primish_inv st → Z.to_nat (Z.of_nat N - p_itr st) ≤ fuel →
  ∃ st' k',
    while_loop fuel (primish_cond (Z.of_nat N)) (primish_body g) st k
    = Some (Ok (st', k'))
    ∧ primish_inv st' ∧ p_itr st' = Z.of_nat N.
Proof using Hblen HN.
  revert st k. induction fuel as [|fuel IH]; intros st k Hinv Hfuel; simpl.
  - destruct (primish_cond (Z.of_nat N) st) eqn:Hc.
    + unfold primish_cond in Hc. apply Z.ltb_lt in Hc. lia.
    + unfold primish_cond in Hc. apply Z.ltb_ge in Hc.
      do 2 eexists. split; [done|]. split; [done|].
      destruct Hinv as (_ & ? & _). lia.
  - destruct (primish_cond (Z.of_nat N) st) eqn:Hc.
    + destruct (primish_inv_step st Hinv Hc) as (st' & -> & Hinv' & Hitr).
      apply IH; [done|]. unfold primish_cond in Hc. apply Z.ltb_lt in Hc.
      lia.
    + unfold primish_cond in Hc. apply Z.ltb_ge in Hc.
      do 2 eexists. split; [done|]. split; [done|].
      destruct Hinv as (_ & ? & _). lia.
Qed.
End PrimishLoop.

(** A base of fewer than three elements is replaced by [[1, 2, 3]]. *)
Lemma primishvals_short_base fuel n (b : list Z) g :
  length b < 3 →
  primishvals fuel n (mkT [length b] b) g
  = primishvals fuel n (mkT [3] [1; 2; 3]%Z) g.
Proof.
  intros Hb. unfold primishvals. cbn [shape data].
  assert (size_at [length b] (-1) = Ok (length b)) as -> by reflexivity.
  destruct (Nat.ltb_spec (length b) 3) as [_|?]; [|lia]. reflexivity.
Qed.

Lemma primishvals_slice fuel n (b : list Z) g :
  3 ≤ length b → (n <= Z.of_nat (length b))%Z →
  primishvals fuel n (mkT [length b] b) g
  = Some (Ok (mkT [py_slice_stop (length b) n]
                (take (py_slice_stop (length b) n) b))).
Proof.
  intros Hb Hn. unfold primishvals. cbn [shape data].
  assert (size_at [length b] (-1) = Ok (length b)) as -> by reflexivity.
  destruct (Nat.ltb_spec (length b) 3) as [?|_]; [lia|]. cbn [shape data].
  assert (size_at [length b] (-1) = Ok (length b)) as -> by reflexivity.
  apply Z.leb_le in Hn. rewrite Hn. cbn [head tail default numel foldr].
  by rewrite Nat.mul_1_r.
Qed.

Lemma primishvals_run fuel n (b : list Z) g :
  3 ≤ length b → (Z.of_nat (length b) < n < 2 ^ 63)%Z → Z.to_nat n ≤ fuel →
  ∃ st,
    primishvals fuel n (mkT [length b] b) g
    = Some (Ok (mkT [Z.to_nat n] (p_result st)))
    ∧ primish_inv g b (length b) (Z.to_nat n) st ∧ p_itr st = n.
Proof.
  intros Hb Hn Hfuel. unfold primishvals. cbn [shape data].
  assert (size_at [length b] (-1) = Ok (length b)) as -> by reflexivity.
  destruct (Nat.ltb_spec (length b) 3) as [?|_]; [lia|]. cbn [shape data].
  assert (size_at [length b] (-1) = Ok (length b)) as -> by reflexivity.
  destruct (Z.leb_spec n (Z.of_nat (length b))) as [?|_]; [lia|].
  assert (strip_ones [length b] = [length b]) as ->.
  { destruct (length b) as [|[|?]]; [lia..|done]. }
  rewrite decide_True by apply broadcast_shapes_diag.
  rewrite expand_to_same by (simpl; lia).
  set (result0 := b ++ drop (length b) (replicate (Z.to_nat n) 0%Z)).
  assert (length result0 = Z.to_nat n) as Hlen0.
  { unfold result0. rewrite length_app, length_drop, length_replicate. lia. }
  destruct (primish_loop_from g b (length b) (Z.to_nat n) ltac:(lia)
              ltac:(lia) fuel
              (mkP result0 (Z.of_nat (length b))
                 (next_pitr (Z.of_nat (length b)))) 0)
    as (st & k & Hrun & Hinv & Hitr).
  { repeat split; simpl; try lia; try done.
    unfold result0. by rewrite take_app_length. }
  { simpl. lia. }
  rewrite Z2Nat.id in Hrun, Hitr by lia. rewrite Hrun. simpl.
  exists st. by rewrite Hitr.
Qed.

Lemma primishvals_long fuel n (b : list Z) g :
  3 ≤ length b → (n < 2 ^ 63)%Z → Z.to_nat n ≤ fuel →
  ∃ r, primishvals fuel n (mkT [length b] b) g = Some (Ok r)
       ∧ shape r = [length (data r)]
       ∧ length (data r)
         = (if (n <? 0)%Z then Z.to_nat (Z.of_nat (length b) + n)
            else Z.to_nat n)
       ∧ ((0 <= n)%Z → take (length b) (data r) = take (Z.to_nat n) b).
Proof.
  intros Hb Hn Hfuel.
  destruct (Z.leb_spec n (Z.of_nat (length b))) as [Hle|Hgt].
  - rewrite primishvals_slice by done. eexists. split; [done|].
    cbn [shape data]. unfold py_slice_stop.
    destruct (Z.ltb_spec n 0) as [Hneg|Hpos].
    + rewrite length_take. repeat split; [f_equal; lia|lia|lia].
    + rewrite length_take. repeat split; [f_equal; lia|lia|].
      intros _. rewrite take_take. f_equal. lia.
  - destruct (primishvals_run fuel n b g) as (st & -> & Hinv & Hitr);
      [done|lia|done|].
    destruct Hinv as (Hlen & _ & _ & Hpre & _).
    eexists. split; [done|]. cbn [shape data].
    destruct (Z.ltb_spec n 0) as [Hneg|Hpos]; [lia|].
    repeat split; [by rewrite Hlen|done|].
    intros _. rewrite Hpre. rewrite take_ge; [done|lia].
Qed.

(** X4: [primishvals] returns: fuel for [n] iterations is enough, and the
    result is a 1-dim tensor of [n] values.  A negative [n] is a slice
    bound: it drops that many values from the end of the base. *)
Theorem primishvals_length (fuel : nat) (n : Z) (base : tensor Z)
    (g : bool) :
  shape base = [length (data base)] → (n < 2 ^ 63)%Z → Z.to_nat n ≤ fuel →
  ∃ r, primishvals fuel n base g = Some (Ok r)
       ∧ shape r = [length (data r)]
       ∧ length (data r)
         = if (n <? 0)%Z
           then Z.to_nat (Z.of_nat (Nat.max 3 (length (data base))) + n)
           else Z.to_nat n.
Proof.
  destruct base as [sh b]. cbn [shape data]. intros -> Hn Hfuel.
  destruct (Nat.ltb_spec (length b) 3) as [Hshort|Hlong].
  - rewrite primishvals_short_base by done.
    destruct (primishvals_long fuel n [1; 2; 3]%Z g)
      as (r & Hr & Hsh & Hlen & _); [simpl; lia|done..|].
    exists r. repeat split; [done..|]. rewrite Hlen. simpl length.
    by rewrite Nat.max_l by lia.
  - destruct (primishvals_long fuel n b g) as (r & Hr & Hsh & Hlen & _);
      [done..|].
    exists r. repeat split; [done..|]. rewrite Hlen.
    by rewrite Nat.max_r by lia.
Qed.

(** X5: the values start with the base: the first values of the result
    are those of [base], or of [[1, 2, 3]] when [base] has fewer than
    three values. *)
Theorem primishvals_extends_base (fuel : nat) (n : Z) (base : tensor Z)
    (g : bool) :
  shape base = [length (data base)] → (0 <= n < 2 ^ 63)%Z →
  Z.to_nat n ≤ fuel →
  ∃ r, primishvals fuel n base g = Some (Ok r)
       ∧ let eb := if length (data base) <? 3 then [1; 2; 3]%Z
                   else data base in
         take (length eb) (data r) = take (Z.to_nat n) eb.
Proof.
  destruct base as [sh b]. cbn [shape data]. intros -> Hn Hfuel.
  destruct (Nat.ltb_spec (length b) 3) as [Hshort|Hlong].
  - rewrite primishvals_short_base by done.
    destruct (primishvals_long fuel n [1; 2; 3]%Z g)
      as (r & Hr & _ & _ & Hpre); [simpl; lia|lia|done|].
    exists r. split; [done|]. apply Hpre. lia.
  - destruct (primishvals_long fuel n b g) as (r & Hr & _ & _ & Hpre);
      [done|lia|done|].
    exists r. split; [done|]. apply Hpre. lia.
Qed.

Lemma land_1 z : Z.land z 1 = (z mod 2)%Z.
Proof. change 1%Z with (Z.ones 1). by rewrite Z.land_ones by lia. Qed.

Lemma next_pitr_small j :
  (3 <= j <= 2 ^ 53)%Z → next_pitr j = ((j - 1) / 2)%Z.
Proof.
  intros Hj. unfold next_pitr. rewrite (wrap64_small (j - 3)) by lia.
  rewrite Z.quot_div_nonneg by lia.
  assert (0 <= (j - 3) / 2 <= 2 ^ 53)%Z.
  { split; [apply Z.div_pos; lia|]. apply Z.div_le_upper_bound; lia. }
  rewrite wrap64_small by lia.
  replace (j - 1)%Z with ((j - 3) + 1 * 2)%Z by lia.
  by rewrite Z.div_add by lia.
Qed.

(** Position [j >= 3] of the default sequence: [6k - 1] and [6k + 1], or
    [4k + 1] and [4k + 3] for the Gaussian approximation, with
    [k = (j - 1) / 2]. *)
Lemma primish_closed_form g N st (j : nat) :
  primish_inv g [1; 2; 3]%Z 3 N st → p_itr st = Z.of_nat N →
  (Z.of_nat N <= 2 ^ 53)%Z → 3 ≤ j < N →
  p_result st !! j
  = Some (let k := ((Z.of_nat j - 1) / 2)%Z in
          if Z.odd (Z.of_nat j)
          then (if g then 4 * k + 1 else 6 * k - 1)
          else (if g then 4 * k + 3 else 6 * k + 1))%Z.
Proof.
  intros (Hlen & _ & _ & _ & Hval) Hitr HN Hj.
  assert (∀ i : nat, 3 ≤ i < N → Z.odd (Z.of_nat i) = true →
            p_result st !! i
            = Some (if g then 4 * ((Z.of_nat i - 1) / 2) + 1
                    else 6 * ((Z.of_nat i - 1) / 2) - 1)%Z) as Hodd.
  { intros i Hi Ho. rewrite Hval by lia. f_equal.
    unfold primish_value. rewrite land_1, next_pitr_small by lia.
    rewrite Zmod_odd, Ho. simpl.
    assert (0 <= (Z.of_nat i - 1) / 2 <= 2 ^ 53)%Z.
    { split; [apply Z.div_pos; lia|]. apply Z.div_le_upper_bound; lia. }
    set (k := ((Z.of_nat i - 1) / 2)%Z) in *.
    destruct g; rewrite !wrap64_small; rewrite ?wrap64_small; lia. }
  cbv zeta. destruct (Z.odd (Z.of_nat j)) eqn:Ho; [by apply Hodd|].
  rewrite Hval by lia. f_equal.
  unfold primish_value. rewrite land_1, Zmod_odd, Ho. simpl.
  assert (Z.odd (Z.of_nat (j - 1)) = true) as Ho'.
  { replace (Z.of_nat (j - 1)) with (Z.of_nat j - 1)%Z by lia.
    rewrite Z.odd_sub. by rewrite Ho. }
  assert (j ≠ 3) as Hj3 by (intros ->; done).
  replace (Z.to_nat (Z.of_nat j - 1)) with (j - 1) by lia.
  rewrite (nth_lookup_Some _ _ _ _ (Hodd (j - 1) ltac:(lia) Ho')).
  assert (((Z.of_nat (j - 1) - 1) / 2 = (Z.of_nat j - 1) / 2)%Z) as ->.
  { apply Z.odd_spec in Ho' as [m Hm].
    replace (Z.of_nat j - 1)%Z with (1 + m * 2)%Z by lia.
    replace (Z.of_nat (j - 1) - 1)%Z with (0 + m * 2)%Z by lia.
    by rewrite !Z.div_add by lia. }
  assert (0 <= (Z.of_nat j - 1) / 2 <= 2 ^ 53)%Z.
  { split; [apply Z.div_pos; lia|]. apply Z.div_le_upper_bound; lia. }
  set (k := ((Z.of_nat j - 1) / 2)%Z) in *.
  destruct g; rewrite wrap64_small; lia.
Qed.

Lemma primishvals_default fuel n (base : tensor Z) g :
  shape base = [length (data base)] → length (data base) < 3 →
  (0 <= n <= 2 ^ 53)%Z → Z.to_nat n ≤ fuel →
  ∃ r, primishvals fuel n base g = Some (Ok r)
       ∧ length (data r) = Z.to_nat n
       ∧ take 3 (data r) = take (Z.to_nat n) [1; 2; 3]%Z
       ∧ ∀ j, 3 ≤ j < Z.to_nat n →
           data r !! j
           = Some (let k := ((Z.of_nat j - 1) / 2)%Z in
                   if Z.odd (Z.of_nat j)
                   then (if g then 4 * k + 1 else 6 * k - 1)
                   else (if g then 4 * k + 3 else 6 * k + 1))%Z.
Proof.
  destruct base as [sh b]. cbn [shape data]. intros -> Hb Hn Hfuel.
  rewrite primishvals_short_base by done.
  destruct (Z.leb_spec n 3) as [Hle|Hgt].
  - pose proof (primishvals_slice fuel n [1; 2; 3]%Z g) as Hs.
    simpl length in Hs. rewrite Hs by lia.
    eexists. split; [done|]. cbn [data]. unfold py_slice_stop.
    destruct (Z.ltb_spec n 0) as [?|_]; [lia|]. simpl length.
    split; [rewrite length_take; simpl; lia|].
    split; [rewrite take_take; f_equal; lia|]. intros j Hj. lia.
  - destruct (primishvals_run fuel n [1; 2; 3]%Z g)
      as (st & Hs & Hinv & Hitr); [simpl; lia|simpl; lia|done|].
    simpl length in Hs, Hinv. rewrite Hs.
    eexists. split; [done|]. cbn [data].
    split; [by destruct Hinv as (-> & _)|]. split.
    + destruct Hinv as (_ & _ & _ & -> & _). rewrite take_ge; [done|].
      simpl. lia.
    + intros j Hj. apply (primish_closed_form g (Z.to_nat n)); [done|lia..].
Qed.

(** X6: without a base (or with one of fewer than three values) the
    sequence is [1, 2, 3] followed by the numbers [6k - 1] and [6k + 1]
    for [k = 1, 2, ...]; with [gaussApprox] it is followed by [4k + 1] and
    [4k + 3], which are all odd numbers from 5 on. *)
Theorem primishvals_closed_form (fuel : nat) (n : Z) (base : tensor Z)
    (g : bool) :
  shape base = [length (data base)] → length (data base) < 3 →
  (0 <= n <= 2 ^ 53)%Z → Z.to_nat n ≤ fuel →
  ∃ r, primishvals fuel n base g = Some (Ok r)
       ∧ take 3 (data r) = take (Z.to_nat n) [1; 2; 3]%Z
       ∧ ∀ j, 3 ≤ j < Z.to_nat n →
           data r !! j
           = Some (let k := ((Z.of_nat j - 1) / 2)%Z in
                   if Z.odd (Z.of_nat j)
                   then (if g then 4 * k + 1 else 6 * k - 1)
                   else (if g then 4 * k + 3 else 6 * k + 1))%Z.
Proof.
  intros Hsh Hb Hn Hfuel.
  destruct (primishvals_default fuel n base g Hsh Hb Hn Hfuel)
    as (r & Hr & _ & Hpre & Hcf).
  by exists r.
Qed.

Lemma prime_mod_2 p : Z.prime p → (p mod 2 = 0)%Z → p = 2%Z.
Proof.
  intros [H1 Hn] Hm. apply Z.mod_divide in Hm; [|lia].
  destruct (decide (p = 2%Z)) as [|Hne]; [done|].
  destruct (Hn 2%Z); [lia|done].
Qed.

Lemma prime_mod_3 p : Z.prime p → (p mod 3 = 0)%Z → p = 3%Z.
Proof.
  intros [H1 Hn] Hm. apply Z.mod_divide in Hm; [|lia].
  destruct (decide (p = 3%Z)) as [|Hne]; [done|].
  destruct (Hn 3%Z); [|done].
  destruct (decide (p = 2%Z)) as [->|?]; [|lia].
  destruct Hm as [c Hc]. lia.
Qed.

Lemma odd_mod_2 z : Z.odd z = true ↔ (z mod 2 = 1)%Z.
Proof. rewrite Zmod_odd. destruct (Z.odd z); split; (done || lia). Qed.

Lemma odd_false_mod_2 z : Z.odd z = false ↔ (z mod 2 = 0)%Z.
Proof. rewrite Zmod_odd. destruct (Z.odd z); split; (done || lia). Qed.

(** X7: the default sequence misses no prime: every prime up to its last
    value is one of its values. *)
Theorem primishvals_contains_primes (fuel : nat) (n : Z) (base : tensor Z)
    (g : bool) :
  shape base = [length (data base)] → length (data base) < 3 →
  (0 <= n <= 2 ^ 53)%Z → Z.to_nat n ≤ fuel →
  ∃ r, primishvals fuel n base g = Some (Ok r)
       ∧ ∀ p v, Z.prime p → last (data r) = Some v → (p <= v)%Z →
           p ∈ data r.
Proof.
  intros Hsh Hb Hn Hfuel.
  destruct (primishvals_default fuel n base g Hsh Hb Hn Hfuel)
    as (r & Hr & Hlen & Hpre & Hcf).
  exists r. split; [done|]. intros p v Hp Hlast Hle.
  pose proof (Z.prime_ge_2 _ Hp) as Hp2.
  rewrite last_lookup, Hlen in Hlast.
  pose proof (lookup_lt_Some _ _ _ Hlast) as Hpos. rewrite Hlen in Hpos.
  assert (∀ i x, i < 3 → i < Z.to_nat n → [1; 2; 3]%Z !! i = Some x →
            data r !! i = Some x) as Hlow.
  { intros i x Hi Hin Hx.
    rewrite <- (lookup_take_lt (data r) 3 i) by lia.
    rewrite Hpre. by rewrite lookup_take_lt by lia. }
  destruct (decide (Z.to_nat n ≤ 3)) as [Hsmall|Hbig].
  { (* the last value is one of 1, 2, 3 *)
    destruct (Z.to_nat n) as [|[|[|[|?]]]] eqn:En; try lia; simpl in Hlast.
    - rewrite (Hlow 0 1%Z) in Hlast by (done || lia). injection Hlast as <-.
      lia.
    - rewrite (Hlow 1 2%Z) in Hlast by (done || lia). injection Hlast as <-.
      assert (p = 2%Z) as -> by lia.
      eapply list_elem_of_lookup_2, (Hlow 1); (done || lia).
    - rewrite (Hlow 2 3%Z) in Hlast by (done || lia). injection Hlast as <-.
      destruct (decide (p = 2%Z)) as [->|?].
      + eapply list_elem_of_lookup_2, (Hlow 1); (done || lia).
      + assert (p = 3%Z) as -> by lia.
        eapply list_elem_of_lookup_2, (Hlow 2); (done || lia). }
  destruct (decide (p = 2%Z)) as [->|Hne2].
  { eapply list_elem_of_lookup_2, (Hlow 1); (done || lia). }
  destruct (decide (p = 3%Z)) as [->|Hne3].
  { eapply list_elem_of_lookup_2, (Hlow 2); (done || lia). }
  assert (p mod 2 ≠ 0)%Z as Hm2 by (intros ?; by apply Hne2, prime_mod_2).
  assert (p mod 3 ≠ 0)%Z as Hm3 by (intros ?; by apply Hne3, prime_mod_3).
  rewrite Hcf in Hlast by lia. injection Hlast as Hv. cbv zeta in Hv.
  (* the position of [p] *)
  set (j := if g then Z.to_nat ((p + 1) / 2)
            else Z.to_nat (2 * ((p + 1) / 6)
                           + (if (p mod 6 =? 1)%Z then 2 else 1))).
  assert (3 ≤ j < Z.to_nat n ∧
          (let k := ((Z.of_nat j - 1) / 2)%Z in
           if Z.odd (Z.of_nat j)
           then (if g then 4 * k + 1 else 6 * k - 1)
           else (if g then 4 * k + 3 else 6 * k + 1))%Z = p) as [Hj Hpj].
  { assert (v <= (if g then 2 else 3) * (n - 1) - (if g then 1 else 4))%Z
      as Hvb.
    { subst v.
      match goal with
      | |- context [Z.odd ?x] =>
          destruct (Z.odd x) eqn:Hon;
          [apply odd_mod_2 in Hon|apply odd_false_mod_2 in Hon]
      end; destruct g; Z.div_mod_to_equations; lia. }
    clear Hv Hcf Hlow Hpre Hr. cbv zeta. subst j. destruct g.
    - destruct (Z.odd (Z.of_nat (Z.to_nat ((p + 1) / 2)))) eqn:Hoj;
        [apply odd_mod_2 in Hoj|apply odd_false_mod_2 in Hoj];
        Z.div_mod_to_equations; lia.
    - destruct (Z.eqb_spec (p mod 6) 1) as [H6|H6];
        match goal with
        | |- context [Z.odd (Z.of_nat ?j)] =>
            destruct (Z.odd (Z.of_nat j)) eqn:Hoj;
            [apply odd_mod_2 in Hoj|apply odd_false_mod_2 in Hoj]
        end;
        Z.div_mod_to_equations; lia. }
  eapply list_elem_of_lookup_2. rewrite Hcf by done. by rewrite Hpj.
Qed.

(* ================================================================= *)
(** ** math.py: xbias, harmonicvals, hmean *)

Lemma range_0 n : range 0 n = Z.of_nat <$> seq 0 (Z.to_nat n).
Proof.
  unfold range. rewrite Z.sub_0_r. apply list_fmap_ext. intros _ k _. lia.
Qed.

Lemma nth_fmap_seq {A} (f : nat → A) k m d :
  k < m → nth k (f <$> seq 0 m) d = f k.
Proof.
  intros Hk. apply nth_lookup_Some.
  rewrite list_lookup_fmap, lookup_seq_lt by done. done.
Qed.

Lemma nth_replicate_lt {A} (x d : A) k m : k < m → nth k (replicate m x) d = x.
Proof. intros Hk. apply nth_lookup_Some. by apply lookup_replicate_2. Qed.

Section XBias.
Context {F : Type} `{HostNum F}.

(** The in-place loop of [xbias] over the positions [a .. a + m - 1]. *)
Lemma xbias_loop (l : list F) a m :
  a + m ≤ length l →
  for_each (Z.of_nat <$> seq a m)
    (λ i composer, v ← load composer i; store composer i (fadd v (of_Z i)))
    l
  = Ok (imap (λ i v, if bool_decide (a ≤ i < a + m)
                     then fadd v (of_Z (Z.of_nat i)) else v) l).
Proof.
  revert a l. induction m as [|m IH]; intros a l Hl; simpl.
  - f_equal. apply list_eq. intros i. rewrite list_lookup_imap.
    destruct (l !! i); [|done]. simpl. by rewrite bool_decide_false by lia.
  - destruct (lookup_lt_is_Some_2 l a ltac:(lia)) as [v Hv].
    rewrite (load_nonneg l (Z.of_nat a) v) by (rewrite ?Nat2Z.id; done || lia).
    cbn [mbind exc_bind]. rewrite store_nonneg by lia.
    cbn [mbind exc_bind]. rewrite Nat2Z.id.
    rewrite IH by (rewrite length_insert; lia). f_equal.
    apply list_eq. intros i. rewrite !list_lookup_imap.
    destruct (decide (i = a)) as [->|Hne].
    + rewrite list_lookup_insert_eq by lia. rewrite Hv. simpl.
      rewrite bool_decide_false by lia. by rewrite bool_decide_true by lia.
    + rewrite list_lookup_insert_ne by done.
      destruct (l !! i); [|done]. simpl.
      destruct (decide (S a ≤ i < S a + m)).
      * by rewrite !bool_decide_true by lia.
      * by rewrite !bool_decide_false by lia.
Qed.

Lemma xbias_spec (n bias : Z) :
  (0 <= n)%Z →
  xbias n bias
  = Ok (mkT [Z.to_nat n]
          ((λ i, fadd (fadd fzero (of_Z bias)) (of_Z (Z.of_nat i)))
             <$> seq 0 (Z.to_nat n))).
Proof.
  unfold xbias. intros Hn.
  - destruct (Z.ltb_spec n 0) as [?|_]; [lia|].
    rewrite range_0, xbias_loop by (rewrite length_replicate; lia).
    cbn [mbind exc_bind mret exc_ret]. do 2 f_equal.
    apply list_eq. intros i.
    rewrite list_lookup_imap, list_lookup_fmap.
    destruct (decide (i < Z.to_nat n)) as [Hi|Hi].
    + rewrite lookup_replicate_2, lookup_seq_lt by done. simpl.
      by rewrite bool_decide_true by lia.
    + rewrite (proj1 (lookup_replicate_None _ _ _)), lookup_seq_ge by lia.
      done.
Qed.

(** X3: [xbias(n, bias)] holds [bias + i] at position [i], for
    [i = 0 .. n - 1]; a negative [n] is refused. *)
Theorem xbias_values (n bias : Z) :
  ((n < 0)%Z → xbias (F := F) n bias = Err NegativeDimension)
  ∧ ((0 <= n)%Z →
     xbias n bias
     = Ok (mkT [Z.to_nat n]
             ((λ i, fadd (fadd fzero (of_Z bias)) (of_Z (Z.of_nat i)))
                <$> seq 0 (Z.to_nat n)))).
Proof.
  split; [|apply xbias_spec].
  intros Hn. unfold xbias. apply Z.ltb_lt in Hn. by rewrite Hn.
Qed.

(** The values [harmonicvals] sums: position [o] of the result is the
    sum over the [n] rows of column [o] of the triangle, and row [i] holds
    the factor of the column where [i <= o] and zero elsewhere. *)
Lemma harmonicvals_triangle (n : Z) (addzero : bool) :
  (1 <= n)%Z →
  harmonicvals n false addzero
  = Ok (mkT [Z.to_nat (n + of_bool addzero)]
          ((λ o, fsum ((λ i, if i <=? o
                             then fadd fzero
                                    (fmul fone
                                       (fdiv fone
                                          (fadd (fadd fzero
                                                   (of_Z (1 - of_bool addzero)))
                                             (of_Z (Z.of_nat o)))))
                             else fzero)
                         <$> seq 0 (Z.to_nat n)))
             <$> seq 0 (Z.to_nat (n + of_bool addzero)))).
Proof.
  intros Hn. unfold harmonicvals.
  destruct (Z.ltb_spec n 1) as [?|_]; [lia|].
  assert (0 <= of_bool addzero <= 1)%Z as Hz by (destruct addzero; simpl; lia).
  rewrite xbias_spec by lia. cbn [mbind exc_bind].
  set (N := Z.to_nat n). set (M := Z.to_nat (n + of_bool addzero)).
  assert (0 < N ≤ M) as HNM by lia.
  unfold matmul2, full, tmap. cbn [shape data].
  rewrite decide_True by done. cbn [mbind exc_bind].
  unfold triu2. cbn [shape data mbind exc_bind].
  unfold transpose2. cbn [shape data mbind exc_bind].
  unfold sum_dim. cbn [shape data length].
  assert (norm_dim 2 (-1) = Ok 1) as -> by reflexivity.
  cbn [mbind exc_bind mret exc_ret take drop app nth numel foldr].
  rewrite (Nat.mul_1_r M). unfold mret, exc_ret. f_equal. f_equal.
  apply list_fmap_ext. intros o ? [-> Ho]%lookup_seq. rewrite Nat.add_0_l.
  unfold fsum at 1. f_equal.
  apply list_fmap_ext. intros j ? [-> Hj]%lookup_seq. rewrite Nat.add_0_l.
  unfold fiber_pos. cbn [nth drop numel foldr].
  rewrite Nat.div_1_r, Nat.mod_1_r, !Nat.mul_1_r, Nat.add_0_r.
  assert (o * N + j < M * N) as Hk by nia.
  rewrite nth_fmap_seq by done.
  assert ((o * N + j) mod N = j) as ->.
  { rewrite Nat.add_comm, Nat.Div0.mod_add. by apply Nat.mod_small. }
  assert ((o * N + j) / N = o) as ->.
  { rewrite Nat.add_comm, Nat.div_add by lia.
    rewrite Nat.div_small by done. done. }
  assert (j * M + o < N * M) as Hk' by nia.
  erewrite nth_lookup_Some; [reflexivity|].
  rewrite list_lookup_imap, list_lookup_fmap, lookup_seq_lt by done.
  simpl.
  assert ((j * M + o) / M = j) as ->.
  { rewrite Nat.add_comm, Nat.div_add by lia.
    rewrite Nat.div_small by done. done. }
  assert ((j * M + o) mod M = o) as ->.
  { rewrite Nat.add_comm, Nat.Div0.mod_add. by apply Nat.mod_small. }
  destruct (j <=? o); [|done]. f_equal. unfold fsum. simpl. f_equal.
  rewrite nth_replicate_lt by lia. f_equal.
  erewrite nth_lookup_Some; [reflexivity|].
  by rewrite !list_lookup_fmap, lookup_seq_lt by done.
Qed.
End XBias.

Section HarmonicShape.
Context {F : Type} `{HostNum F}.

(** X8: [harmonicvals] asserts [n >= 1]; otherwise it returns a 1-dim
    tensor of [n] values, or [n + 1] with [addzero]. *)
Theorem harmonicvals_shape (n : Z) (nosum addzero : bool) :
  ((n < 1)%Z → harmonicvals (F := F) n nosum addzero = Err ShapeAssertion)
  ∧ ((1 <= n)%Z →
     ∃ r, harmonicvals n nosum addzero = Ok r
          ∧ shape r = [Z.to_nat (n + of_bool addzero)]
          ∧ wf r).
Proof.
  split; intros Hn.
  - unfold harmonicvals. apply Z.ltb_lt in Hn. by rewrite Hn.
  - destruct nosum.
    + unfold harmonicvals. destruct (Z.ltb_spec n 1) as [?|_]; [lia|].
      assert (0 <= of_bool addzero)%Z by (destruct addzero; simpl; lia).
      rewrite xbias_spec by lia. cbn [mbind exc_bind].
      eexists. split; [done|]. split; [done|].
      unfold wf. simpl. rewrite !length_fmap, length_seq. lia.
    + rewrite harmonicvals_triangle by done.
      eexists. split; [done|]. split; [done|].
      unfold wf. simpl. rewrite !length_fmap, length_seq. lia.
Qed.
End HarmonicShape.

Section HarmonicExact.
Import Exact.
Local Open Scope R_scope.

Lemma fsum_snoc (l : list R) x : fsum (l ++ [x]) = fsum l + x.
Proof. unfold fsum. by rewrite foldl_app. Qed.

Lemma fsum_triangle (c : R) (o N : nat) :
  fsum ((λ i, if (i <=? o)%nat then c else 0) <$> seq 0 N)
  = INR (Nat.min (S o) N) * c.
Proof.
  induction N as [|N IH].
  - rewrite Nat.min_0_r. unfold fsum. simpl. lra.
  - rewrite seq_S, fmap_app, list_fmap_singleton, fsum_snoc, IH.
    cbn [Nat.add].
    destruct (Nat.leb_spec N o) as [Hle|Hgt].
    + rewrite (Nat.min_r (S o) N) by lia.
      rewrite (Nat.min_r (S o) (S N)) by lia. rewrite S_INR. lra.
    + rewrite (Nat.min_l (S o) N) by lia.
      rewrite (Nat.min_l (S o) (S N)) by lia. lra.
Qed.

(** X9: in exact arithmetic every value of [harmonicvals(n)] is 1: the
    triangle is summed along its columns, so position [o] adds up [o + 1]
    copies of [1 / (o + 1)]. *)
Theorem harmonicvals_all_ones (n : Z) :
  (1 <= n)%Z →
  harmonicvals (F := R) n false false
  = Ok (mkT [Z.to_nat n] (replicate (Z.to_nat n) 1)).
Proof.
  intros Hn. rewrite harmonicvals_triangle by done.
  cbn [of_bool]. rewrite Z.add_0_r. do 2 f_equal.
  apply list_eq. intros o.
  destruct (decide (o < Z.to_nat n)%nat) as [Ho|Ho].
  - rewrite lookup_replicate_2 by done.
    rewrite list_lookup_fmap, lookup_seq_lt by done. simpl. f_equal.
    rewrite fsum_triangle. rewrite Nat.min_l by lia.
    rewrite S_INR, INR_IZR_INZ.
    assert (0 <= IZR (Z.of_nat o)) by (apply IZR_le; lia).
    cbn [fadd fmul fdiv fzero fone of_Z RNum]. rewrite Z.sub_0_r.
    field. lra.
  - rewrite (proj1 (lookup_replicate_None _ _ _)) by lia.
    by rewrite list_lookup_fmap, lookup_seq_ge by lia.
Qed.
End HarmonicExact.

(* ================================================================= *)
(** ** math.py: hmean *)

Lemma py_index_inv len i d :
  py_index len i = Ok d →
  (- Z.of_nat len <= i < Z.of_nat len)%Z
  ∧ d = Z.to_nat (if (i <? 0)%Z then i + Z.of_nat len else i)
  ∧ d < len.
Proof.
  unfold py_index.
  destruct (Z.leb_spec 0 i), (Z.ltb_spec i (Z.of_nat len)),
    (Z.leb_spec (- Z.of_nat len) i), (Z.ltb_spec i 0);
    simpl; intros [= <-]; repeat split; lia.
Qed.

Lemma py_index_out len i :
  ¬ (- Z.of_nat len <= i < Z.of_nat len)%Z →
  py_index len i = Err IndexOutOfBounds.
Proof.
  intros Hi. unfold py_index.
  destruct (Z.leb_spec 0 i), (Z.ltb_spec i (Z.of_nat len)),
    (Z.leb_spec (- Z.of_nat len) i), (Z.ltb_spec i 0);
    simpl; try done; lia.
Qed.

Lemma py_index_in len i :
  (- Z.of_nat len <= i < Z.of_nat len)%Z →
  ∃ d, py_index len i = Ok d ∧ norm_dim len i = Ok d ∧ d < len.
Proof.
  intros Hi. unfold py_index, norm_dim.
  assert (Nat.max len 1 = len) as -> by lia.
  destruct (Z.leb_spec 0 i), (Z.ltb_spec i (Z.of_nat len)),
    (Z.leb_spec (- Z.of_nat len) i), (Z.ltb_spec i 0);
    simpl; try lia; eexists; (split; [done|split; [f_equal; lia|lia]]).
Qed.

Section HMean.
Context {F : Type} `{HostNum F}.

(** X10: [hmean] accepts [dim] exactly when it indexes [x.size()]; a 0-dim
    tensor is refused for every [dim].  The mean has the size of [x]
    without the dimension [dim], and the dtype of [x]. *)
Theorem hmean_dims (x : Tensor F) (dim : Z) :
  let nd := Z.of_nat (length (size x)) in
  ((- nd <= dim < nd)%Z →
   ∃ y d, hmean x dim = Ok y
          ∧ py_index (length (size x)) dim = Ok d
          ∧ size y = take d (size x) ++ drop (S d) (size x)
          ∧ is_complex y = is_complex x)
  ∧ (¬ (- nd <= dim < nd)%Z → hmean x dim = Err IndexOutOfBounds).
Proof.
  cbv zeta. split; intros Hd.
  - destruct (py_index_in _ _ Hd) as (d & Hpy & Hnorm & Hlt).
    destruct (lookup_lt_is_Some_2 (size x) d Hlt) as [vals Hvals].
    unfold hmean, size_at. rewrite Hpy. cbn [mbind exc_bind]. rewrite Hvals.
    destruct x as [r|c]; cbn [size] in *; unfold sum_dim; cbn [shape tmap];
      rewrite Hnorm; cbn [mbind exc_bind mret exc_ret];
      by do 2 eexists.
  - unfold hmean, size_at. rewrite py_index_out by done. done.
Qed.
End HMean.

Lemma numel_pos_of_lt sh k : k < numel sh → 0 < numel sh.
Proof. lia. Qed.

Lemma numel_take_drop sh d n :
  sh !! d = Some n →
  numel sh = numel (take d sh) * (n * numel (drop (S d) sh)).
Proof.
  intros Hd. rewrite <- (take_drop_middle sh d n Hd) at 1.
  by rewrite numel_app, numel_cons.
Qed.

Lemma fiber_pos_lt sh d n o j :
  sh !! d = Some n →
  o < numel (take d sh ++ drop (S d) sh) → j < n →
  fiber_pos sh d o j < numel sh.
Proof.
  intros Hd Ho Hj. unfold fiber_pos.
  rewrite (nth_lookup_Some _ _ _ _ Hd).
  rewrite (numel_take_drop sh d n Hd). rewrite numel_app in Ho.
  set (outer := numel (take d sh)) in *.
  set (inner := numel (drop (S d) sh)) in *.
  assert (0 < inner) as Hin by nia.
  pose proof (Nat.div_mod_eq o inner) as Hdm.
  pose proof (Nat.mod_upper_bound o inner ltac:(lia)) as Hr.
  assert (o / inner < outer) as Hq.
  { apply Nat.Div0.div_lt_upper_bound. lia. }
  set (q := o / inner) in *. set (r := o mod inner) in *.
  assert (q * (n * inner) + j * inner + r
          < (q + 1) * (n * inner)) by nia.
  assert ((q + 1) * (n * inner) <= outer * (n * inner)).
  { apply Nat.mul_le_mono_r. lia. }
  lia.
Qed.

Section HMeanExact.
Import Exact.
Local Open Scope R_scope.

Lemma fsum_bounds (l : list R) (a b : R) :
  Forall (λ v, a <= v <= b) l →
  INR (length l) * a <= fsum l <= INR (length l) * b.
Proof.
  induction l as [|x l IH] using rev_ind; intros Hl.
  - unfold fsum. simpl. lra.
  - apply Forall_app in Hl as [Hl Hx]. rewrite Forall_singleton in Hx.
    specialize (IH Hl). rewrite fsum_snoc, length_app. simpl length.
    rewrite Nat.add_1_r, S_INR, !Rmult_plus_distr_r. lra.
Qed.

(** X11: for a real tensor with entries between [lo > 0] and [hi], every
    value of the harmonic mean along a non-empty dimension lies between
    [lo] and [hi]. *)
Theorem hmean_between (x : tensor R) (dim : Z) (d : nat) (lo hi : R) :
  wf x → py_index (length (shape x)) dim = Ok d →
  (0 < nth d (shape x) 0)%nat →
  0 < lo → Forall (λ v, lo <= v <= hi) (data x) →
  ∃ y, hmean (TReal x) dim = Ok (TReal y)
       ∧ Forall (λ v, lo <= v <= hi) (data y).
Proof.
  intros Hwf Hpy Hn Hlo Hx.
  destruct (py_index_inv _ _ _ Hpy) as (Hrange & _ & Hlt).
  destruct (py_index_in _ _ Hrange) as (d' & Hpy' & Hnorm & _).
  rewrite Hpy in Hpy'. injection Hpy' as <-.
  destruct (lookup_lt_is_Some_2 (shape x) d Hlt) as [n Hnd].
  rewrite (nth_lookup_Some _ _ _ _ Hnd) in Hn.
  unfold hmean, size_at. cbn [size]. rewrite Hpy. cbn [mbind exc_bind].
  rewrite Hnd. unfold sum_dim. cbn [shape tmap data]. rewrite Hnorm.
  cbn [mbind exc_bind mret exc_ret]. eexists. split; [done|].
  cbn [data]. rewrite (nth_lookup_Some _ _ 1%nat _ Hnd).
  apply Forall_fmap, Forall_fmap, Forall_forall.
  intros o Ho%elem_of_seq. simpl.
  match goal with |- _ <= _ / ?s <= _ => set (sm := s) end.
  assert (INR n * (1 / hi) <= sm <= INR n * (1 / lo)) as Hsm.
  { unfold sm. change (foldl Rplus 0) with (fsum (H := RNum)).
    match goal with |- _ <= fsum ?l <= _ =>
      pose proof (fsum_bounds l (1 / hi) (1 / lo)) as Hb;
      rewrite length_fmap, length_seq in Hb; apply Hb; clear Hb
    end.
    apply Forall_fmap, Forall_forall.
    intros j Hj%elem_of_seq. simpl.
    assert (fiber_pos (shape x) d o j < length (data x))%nat as Hpos.
    { rewrite Hwf. apply (fiber_pos_lt _ _ n); [done|lia|lia]. }
    destruct (lookup_lt_is_Some_2 (data x) _ Hpos) as [v Hv].
    erewrite nth_lookup_Some;
      [|by rewrite list_lookup_fmap, Hv].
    pose proof (proj1 (Forall_lookup _ _) Hx _ _ Hv) as [Hv1 Hv2].
    assert (0 < v) by lra. assert (0 < hi) by lra.
    split; apply Rmult_le_compat_l; try lra;
      apply Rinv_le_contravar; lra. }
  assert (0 < INR n) as HnR by (apply lt_0_INR; lia).
  assert (lo <= hi) as Hlh.
  { assert (fiber_pos (shape x) d o 0 < length (data x))%nat as Hpos.
    { rewrite Hwf. apply (fiber_pos_lt _ _ n); [done|lia|lia]. }
    destruct (lookup_lt_is_Some_2 (data x) _ Hpos) as [v Hv].
    pose proof (proj1 (Forall_lookup _ _) Hx _ _ Hv). lra. }
  cbn [fdiv of_Z RNum]. rewrite <- INR_IZR_INZ.
  assert (0 < hi) by lra.
  assert (0 < INR n * (1 / hi)).
  { apply Rmult_lt_0_compat; [done|]. apply Rdiv_lt_0_compat; lra. }
  assert (0 < sm) as Hpos by lra.
  assert (lo * (INR n * (1 / lo)) = INR n) as Elo by (field; lra).
  assert (hi * (INR n * (1 / hi)) = INR n) as Ehi by (field; lra).
  split.
  - apply (Rmult_le_reg_r sm); [done|]. unfold Rdiv.
    rewrite Rmult_assoc, Rinv_l, Rmult_1_r by lra.
    rewrite <- Elo. apply Rmult_le_compat_l; lra.
  - apply (Rmult_le_reg_r sm); [done|]. unfold Rdiv.
    rewrite Rmult_assoc, Rinv_l, Rmult_1_r by lra.
    rewrite <- Ehi. apply Rmult_le_compat_l; lra.
Qed.
End HMeanExact.

(* ================================================================= *)
(** ** math.py: sizes and dimensions of the activations *)

Section Sizes.
Context {F : Type} `{HostNum F}.

Lemma norm_dim_ok ndim dim :
  (- Z.of_nat (Nat.max ndim 1) <= dim < Z.of_nat (Nat.max ndim 1))%Z →
  ∃ d, norm_dim ndim dim = Ok d.
Proof.
  intros [Hlo Hhi]. unfold norm_dim.
  apply Z.leb_le in Hlo. apply Z.ltb_lt in Hhi. rewrite Hlo, Hhi. simpl.
  eauto.
Qed.

Lemma norm_dim_out ndim dim :
  ¬ (- Z.of_nat (Nat.max ndim 1) <= dim < Z.of_nat (Nat.max ndim 1))%Z →
  norm_dim ndim dim = Err DimOutOfRange.
Proof.
  intros Hd. unfold norm_dim.
  destruct (Z.leb_spec (- Z.of_nat (Nat.max ndim 1)) dim),
    (Z.ltb_spec dim (Z.of_nat (Nat.max ndim 1))); simpl; try done; lia.
Qed.

(** X1: [isoftmax] accepts exactly the dimensions of its argument (a 0-dim
    tensor has the dimensions [-1] and [0]) and then keeps the size and
    the dtype; any other [dim] is refused. *)
Theorem isoftmax_dims (x : Tensor F) (dim : Z) :
  wfT x →
  let nd := Z.of_nat (Nat.max (length (size x)) 1) in
  ((- nd <= dim < nd)%Z →
   ∃ y, isoftmax x dim = Ok y ∧ size y = size x
        ∧ is_complex y = is_complex x ∧ wfT y)
  ∧ (¬ (- nd <= dim < nd)%Z → isoftmax x dim = Err DimOutOfRange).
Proof.
  intros Hx. cbv zeta. split; intros Hd.
  - destruct (norm_dim_ok _ _ Hd) as [d Hnd].
    destruct x as [[sh l]|[sh l]]; unfold wfT, wf in Hx; simpl in Hx, Hnd.
    + unfold isoftmax, t_softmax. cbn [shape data]. rewrite Hnd.
      eexists. split; [done|]. repeat split.
      unfold wfT, wf; cbn [shape data]. by rewrite length_imap.
    + unfold isoftmax, t_softmax, t_cos, t_sin. cbn [shape data tmap].
      rewrite Hnd. repeat tensor_step.
      eexists. split; [done|]. repeat split.
      unfold wfT, wf; cbn [shape data].
      rewrite !length_zip_with, !length_imap, !length_fmap. lia.
  - destruct x as [[sh l]|[sh l]]; simpl in Hd;
      unfold isoftmax, t_softmax; cbn [shape data tmap];
      by rewrite norm_dim_out.
Qed.

(** X2: [icos], [isin] and [isigmoid] never fail on a tensor and keep its
    dtype.  They keep the size of a real tensor and of a complex tensor
    of one dimension or more; a 0-dim complex tensor comes back with the
    shape [(1,)] of the constants it is combined with. *)
Theorem activations_sizes (x : Tensor F) :
  wfT x →
  let sz := if is_complex x then lift1 (size x) else size x in
  ∃ c s g,
    icos x = Ok c ∧ isin x = Ok s ∧ isigmoid x = Ok g
    ∧ size c = sz ∧ size s = sz ∧ size g = sz
    ∧ is_complex c = is_complex x ∧ is_complex s = is_complex x
    ∧ is_complex g = is_complex x
    ∧ wfT c ∧ wfT s ∧ wfT g.
Proof.
  intros Hx. destruct x as [[sh l]|[sh l]]; unfold wfT, wf in Hx;
    simpl in Hx; cbv zeta; cbn [is_complex size shape].
  - do 3 eexists. repeat split;
      unfold wfT, wf, t_cos, t_sin, t_sigmoid; simpl; by rewrite length_fmap.
  - rewrite icos_spec_complex, isin_spec_complex, isigmoid_spec_complex
      by done.
    do 3 eexists. repeat split;
      unfold wfT, wf; simpl; by rewrite length_fmap, numel_lift1.
Qed.
End Sizes.

Section GoldenRatio.
Import Exact.
Local Open Scope R_scope.

(** X12: in exact arithmetic the sigmoid of [asigphi()] is [phi() - 1], the
    inverse [1 / phi()] of the golden ratio: this is the residual factor
    [isigmoid(res)] of the zeta functions when [res] is left at its
    default. *)
Theorem isigmoid_asigphi :
  ∃ p e, phi (F := R) = mkT [1%nat] [p]
         ∧ isigmoid (TReal asigphi) = Ok (TReal (mkT [1%nat] [e]))
         ∧ p * p = p + 1 ∧ e = p - 1 ∧ e * p = 1.
Proof.
  do 2 eexists. split; [reflexivity|]. split; [reflexivity|].
  cbn [fone fadd fsub fdiv fmul fneg flog fsqrt fsigmoid of_Z RNum].
  rewrite Rmult_1_l.
  assert (sqrt 5 * sqrt 5 = 5) as H5 by (apply sqrt_sqrt; lra).
  assert (2 < sqrt 5 < 3) as Hs.
  { split.
    - replace 2 with (sqrt 4) by (replace 4 with (2 * 2) by lra;
                                 apply sqrt_square; lra).
      apply sqrt_lt_1; lra.
    - replace 3 with (sqrt 9) by (replace 9 with (3 * 3) by lra;
                                 apply sqrt_square; lra).
      apply sqrt_lt_1; lra. }
  set (p := (1 + sqrt 5) / 2).
  assert (p * p = p + 1) as Hpp by (unfold p; nra).
  assert (Rsigmoid (- ln (p - 1)) = p - 1) as Hsig.
  { unfold Rsigmoid. rewrite Ropp_involutive, exp_ln by (unfold p; lra).
    apply (Rmult_eq_reg_r p); [|unfold p; lra].
    replace (1 + (p - 1)) with p by lra.
    unfold Rdiv. rewrite Rmult_1_l, Rinv_l by (unfold p; lra). nra. }
  rewrite Hsig. repeat split; [done|nra].
Qed.
End GoldenRatio.

(* ================================================================= *)
(** ** zeta.py: hzetas without samples *)

Section NoSamples.
Context {F : Type} `{HostNum F}.
Variable resampleContinuous : Tensor F → exc (Tensor F).

(** X13: [hzetas] with [samples = 0] never returns: the tensor it builds
    has no channel 0 to assign the first value to.  On operands of one
    shape the failure is that index error. *)
Theorem hzetas_zero_samples (s a res : Tensor F) (blankSamples : Z)
    (fftformat : bool) :
  is_ok (hzetas resampleContinuous s a res blankSamples 0 fftformat) = false
  ∧ (wfT s → wfT a → wfT res → size a = size s →
     hzetas resampleContinuous s a res blankSamples 0 fftformat
     = Err IndexOutOfBounds).
Proof.
  assert (∀ first,
            set_channel (toComplex (outer_zeros s (Z.to_nat 0))) 0 first
            = Err IndexOutOfBounds) as Hset.
  { intros first. unfold set_channel.
    assert (shape (toComplex (outer_zeros s (Z.to_nat 0))) = size s ++ [0])
      as -> by (by destruct s).
    by rewrite last_snoc. }
  unfold hzetas. change (0 <? 0)%Z with false. cbv iota. split.
  - destruct (isigmoid res); [|done]. cbn [mbind exc_bind].
    destruct (__hzetaitr s a 0); [|done]. cbn [mbind exc_bind].
    by rewrite Hset.
  - intros Hs Ha Hres Hsz.
    destruct (isigmoid_fits (size res) res Hres) as (e & -> & _);
      [by left|].
    cbn [mbind exc_bind].
    destruct (hzetaitr_same_shape s a 0) as (itr & -> & _); [done..|].
    cbn [mbind exc_bind]. by rewrite Hset.
Qed.
End NoSamples.

(* ================================================================= *)
(** ** zeta.py: lerchs *)

Section LerchsProps.
Context {F : Type} `{HostNum F}.

Lemma wfT_t_exp (a : Tensor F) : wfT a → wfT (t_exp a).
Proof.
  destruct a; unfold wfT, wf, t_exp, tmap; cbn [shape data];
    by rewrite length_fmap.
Qed.

Lemma wf_t_abs (a : Tensor F) : wfT a → wf (t_abs a).
Proof.
  destruct a; unfold wfT, wf, t_abs, tmap; cbn [shape data];
    by rewrite length_fmap.
Qed.

(** The iterate of well-formed tensors is well formed. *)
Lemma lerchitr_wf (lam s a d : Tensor F) n :
  wfT lam → wfT s → wfT a → __lerchitr lam s a n = Ok d → wfT d.
Proof.
  intros Hl Hs Ha. unfold __lerchitr. cbv zeta. intros Hd.
  destruct (t_mul _ lam) as [he|] eqn:E1; [|done].
  cbn [mbind exc_bind] in Hd.
  assert (wfT he) as Hhe.
  { eapply binop_wf; [| |exact E1]; [|done]. by unfold wfT, wf. }
  destruct (if is_complex lam then _ else _) as [he'|] eqn:E2; [|done].
  cbn [mbind exc_bind] in Hd.
  assert (wfT he') as Hhe'.
  { destruct (is_complex lam); [|by injection E2 as <-].
    destruct (t_div lam _) as [u|] eqn:E3; [|done].
    cbn [mbind exc_bind] in E2.
    eapply binop_wf; [| |exact E2].
    - by apply wf_t_abs.
    - eapply binop_wf; [| |exact E3]; [done|]. by apply wf_t_abs. }
  destruct (t_mul he' _) as [rot|] eqn:E4; [|done].
  cbn [mbind exc_bind] in Hd.
  destruct (__hzetaitr s a n) as [itr|] eqn:E5; [|done].
  cbn [mbind exc_bind] in Hd.
  eapply binop_wf; [| |exact Hd].
  - apply wfT_t_exp. eapply binop_wf; [| |exact E4]; [done|].
    by unfold wfT, wf.
  - unfold __hzetaitr in E5. eapply binop_wf; [| |exact E5].
    + by apply wfT_t_addZ.
    + by apply wfT_t_neg.
Qed.

(** What fits a slice can be assigned to it. *)
Lemma fits_strip_assignable sh e :
  fits sh e → broadcast_shapes (strip_ones e) sh = Some sh.
Proof.
  intros [->|[->|[->| ->]]].
  - apply broadcast_strip_ones.
  - destruct sh; [done|]. apply broadcast_strip_ones.
  - apply broadcast_shapes_nil_l.
  - simpl. apply broadcast_shapes_nil_l.
Qed.

Section LStore.
Variables (lam s a epsig : Tensor F) (n : nat).
Hypothesis Hl : wfT lam.
Hypothesis Hs : wfT s.
Hypothesis Ha : wfT a.
Hypothesis He : wfT epsig.
Hypothesis Hlfit : fits (size s) (size lam).
Hypothesis Hafit : fits (size s) (size a).
Hypothesis Hfit : fits (size s) (size epsig).

Lemma lerchitr_ok k :
  ∃ itr, __lerchitr lam s a k = Ok itr
         ∧ fits (size s) (size itr) ∧ wfT itr.
Proof using Hl Hs Ha Hlfit Hafit.
  destruct (lerchitr_fits (size s) lam s a k) as (itr & Hitr & Hf);
    [done|apply fits_refl|done|].
  exists itr. split; [done|]. split; [done|].
  by apply (lerchitr_wf lam s a itr k).
Qed.

(** One step of the recurrence on a channel: it succeeds, and the value
    it stores is the step of the channel read. *)
Lemma lerch_step_ok k prev :
  shape prev = size s → wf prev →
  ∃ v cur, (itr ← __lerchitr lam s a k;
            er ← t_mul epsig (TCplx prev);
            t_add itr er) = Ok v
           ∧ lerch_step lam s a epsig k prev = Ok cur
           ∧ cur = slice_value (size s) v
           ∧ wfT v
           ∧ broadcast_shapes (strip_ones (size v)) (size s) = Some (size s).
Proof using Hl Hs Ha He Hlfit Hafit Hfit.
  intros Hp Hwp. unfold lerch_step.
  destruct (lerchitr_ok k) as (itr & -> & Hif & Hiw).
  cbn [mbind exc_bind]. unfold t_mul, t_add.
  destruct (binop_fits (size s) fmul cmul epsig (TCplx prev))
    as (er & Her & Herf); [done|simpl; rewrite Hp; apply fits_refl|].
  rewrite Her. cbn [mbind exc_bind].
  destruct (binop_fits (size s) fadd cadd itr er) as (v & Hv & Hvf);
    [done..|].
  rewrite Hv. cbn [mbind exc_bind mret exc_ret].
  exists v. eexists. repeat split; [|by apply fits_strip_assignable].
  eapply binop_wf; [| |exact Hv]; [done|].
  eapply binop_wf; [| |exact Her]; done.
Qed.

Lemma lerchs_store_spec k j j' result :
  channels (size s) n result → j < n → j' < n →
  ∃ prev cur result',
    get_channel result j = Ok prev
    ∧ lerch_step lam s a epsig k prev = Ok cur
    ∧ lerchs_store lam s a epsig k j j' result = Ok result'
    ∧ channels (size s) n result'
    ∧ get_channel result' j' = Ok cur
    ∧ ∀ i, i ≠ j' → i < n → get_channel result' i = get_channel result i.
Proof using Hl Hs Ha He Hlfit Hafit Hfit.
  intros Hch Hj Hj'.
  destruct (get_channel_ok _ _ _ _ Hch Hj) as (prev & Hprev & Hpsh & Hpw).
  destruct (lerch_step_ok k prev Hpsh Hpw)
    as (v & cur & Hv & Hcur & -> & Hvw & Hvb).
  destruct Hch as [Hsh Hlen]. destruct result as [sh d]. simpl in *.
  subst sh. exists prev. eexists. eexists.
  split; [done|]. split; [done|].
  unfold lerchs_store.
  destruct (__lerchitr lam s a k) as [itr|] eqn:Hitr; [|done].
  cbn [mbind exc_bind] in *. rewrite Hprev. cbn [mbind exc_bind].
  destruct (t_mul epsig (TCplx prev)) as [er|] eqn:Her; [|done].
  cbn [mbind exc_bind] in *. rewrite Hv. cbn [mbind exc_bind].
  rewrite set_channel_eq by done.
  split; [done|]. split.
  { split; [done|]. simpl. by rewrite length_imap. }
  split.
  - rewrite get_channel_eq by done. do 2 f_equal.
    rewrite get_put_same; [done|done| |done].
    by apply slice_value_length.
  - intros i Hi Hin. rewrite !get_channel_eq by done. do 2 f_equal.
    by apply get_put_other.
Qed.

(** The blank loop: after [t] more runs channel 0 is [t] steps further,
    and [idx] with it. *)
Lemma lerch_blank_loop_spec (xs : list Z) result t :
  channels (size s) n result → 0 < n →
  get_channel result 0 = lerch_blank_channel lam s a epsig t →
  is_ok (lerch_blank_channel lam s a epsig t) = true →
  ∃ result',
    for_each xs
      (λ _ '(result, idx),
         result ← lerchs_store lam s a epsig idx 0 0 result;
         mret (result, (idx + 1)%Z))
      (result, (1 + Z.of_nat t)%Z)
    = Ok (result', (1 + Z.of_nat (t + length xs))%Z)
    ∧ channels (size s) n result'
    ∧ get_channel result' 0
      = lerch_blank_channel lam s a epsig (t + length xs)
    ∧ is_ok (lerch_blank_channel lam s a epsig (t + length xs)) = true.
Proof using Hl Hs Ha He Hlfit Hafit Hfit.
  intros Hch Hn. revert result t Hch.
  induction xs as [|x xs IH]; intros result t Hch H0 Hok.
  - exists result. simpl. rewrite Nat.add_0_r. done.
  - destruct (lerchs_store_spec (1 + Z.of_nat t) 0 0 result Hch Hn Hn)
      as (prev & cur & result' & Hprev & Hcur & Hst & Hch' & Hget & _).
    assert (lerch_blank_channel lam s a epsig (S t) = Ok cur) as Hblank.
    { cbn [lerch_blank_channel]. rewrite <- H0, Hprev.
      cbn [mbind exc_bind]. rewrite <- Hcur. f_equal. lia. }
    destruct (IH result' (S t)) as (r2 & Hr2 & Hch2 & Hget2 & Hok2).
    { done. }
    { by rewrite Hblank. }
    { by rewrite Hblank. }
    exists r2. cbn [for_each]. rewrite Hst. cbn [mbind exc_bind mret exc_ret].
    replace (1 + Z.of_nat t + 1)%Z with (1 + Z.of_nat (S t))%Z by lia.
    rewrite Hr2. cbn [length].
    replace (t + S (length xs)) with (S t + length xs) by lia. done.
Qed.

Lemma lerch_sample_loop_spec (b : Z) k m result :
  m + k < n →
  channels (size s) n result →
  lerch_recurrence_upto lam s a epsig b m result →
  ∃ result',
    for_each ((λ i, (1 + Z.of_nat i)%Z) <$> seq m k)
      (λ jdx result,
         lerchs_store lam s a epsig (1 + b + jdx) (Z.to_nat (jdx - 1))
           (Z.to_nat jdx) result)
      result
    = Ok result'
    ∧ channels (size s) n result'
    ∧ lerch_recurrence_upto lam s a epsig b (m + k) result'
    ∧ get_channel result' 0 = get_channel result 0.
Proof using Hl Hs Ha He Hlfit Hafit Hfit.
  revert m result. induction k as [|k IH]; intros m result Hmk Hch Hrec.
  - exists result. simpl. by rewrite Nat.add_0_r.
  - cbn [seq fmap list_fmap for_each].
    replace (Z.to_nat (1 + Z.of_nat m - 1)) with m by lia.
    replace (Z.to_nat (1 + Z.of_nat m)) with (S m) by lia.
    destruct (lerchs_store_spec (1 + b + (1 + Z.of_nat m)) m (S m) result)
      as (prev & cur & r1 & Hprev & Hcur & Hst & Hch1 & Hget & Hother);
      [done|lia|lia|].
    rewrite Hst. cbn [mbind exc_bind].
    destruct (IH (S m) r1) as (r2 & Hr2 & Hch2 & Hrec2 & H02); [lia|done| |].
    { intros j Hj. destruct (decide (j = S m)) as [->|Hne].
      - exists prev, cur. replace (S m - 1) with m by lia.
        rewrite Hother by lia. repeat split; [done..|].
        rewrite <- Hcur. f_equal. lia.
      - destruct (Hrec j) as (p & c & Hp & Hc & Hr); [lia|].
        exists p, c. rewrite !Hother by lia. done. }
    exists r2. split; [done|]. split; [done|]. split.
    + by replace (m + S k) with (S m + k) by lia.
    + rewrite H02. apply Hother; lia.
Qed.
End LStore.

Variable resampleContinuous : Tensor F → exc (Tensor F).

(** X19: without resampling [lerchs] returns a complex tensor of shape
    [s.size() + (samples,)] for every [lam], [a] and [res] that broadcast
    against [s].  Channel 0 is [__lerchitr(lam, s, a, 0)] followed by
    [blankSamples] steps [__lerchitr(lam, s, a, n) + isigmoid(res) * prev]
    for [n = 1 .. blankSamples], and channel [j] is
    [__lerchitr(lam, s, a, blankSamples + 1 + j)] plus [isigmoid(res)]
    times channel [j - 1]: the iterate of [n = blankSamples + 1] enters no
    channel. *)
Theorem lerchs_recurrence (lam s a res : Tensor F)
    (blankSamples samples : Z) :
  wfT lam → wfT s → wfT a → wfT res →
  fits (size s) (size lam) → fits (size s) (size a) →
  fits (size s) (size res) →
  (1 <= samples)%Z → (0 <= blankSamples)%Z →
  ∃ epsig result c0,
    isigmoid res = Ok epsig
    ∧ lerchs resampleContinuous lam s a res blankSamples samples false
      = Ok (TCplx result)
    ∧ shape result = size s ++ [Z.to_nat samples]
    ∧ wf result
    ∧ get_channel result 0 = Ok c0
    ∧ lerch_blank_channel lam s a epsig (Z.to_nat blankSamples) = Ok c0
    ∧ lerch_recurrence_upto lam s a epsig blankSamples
        (Z.to_nat samples - 1) result.
Proof.
  intros Hl Hs Ha Hres Hlfit Hafit Hfit Hsamples Hblank.
  destruct (isigmoid_fits (size s) res Hres Hfit) as (epsig & Hep & Hefit).
  pose proof (wfT_isigmoid _ _ Hres Hep) as Hew.
  set (n := Z.to_nat samples). assert (0 < n) as Hn by lia.
  unfold lerchs. destruct (samples <? 0)%Z eqn:Hneg; [lia|]. clear Hneg.
  rewrite Hep. cbn [mbind exc_bind].
  destruct (lerchitr_ok lam s a Hl Hs Ha Hlfit Hafit 0)
    as (itr & Hitr & Hif & Hiw).
  rewrite Hitr. cbn [mbind exc_bind].
  pose proof (channels_toComplex_zeros s n Hs) as Hch0. fold n.
  destruct (toComplex (outer_zeros s n)) as [sh0 d0] eqn:Hr0.
  destruct Hch0 as [Hsh0 Hlen0]. simpl in Hsh0, Hlen0. subst sh0.
  assert (broadcast_shapes (strip_ones (size itr)) (size s) = Some (size s))
    as Hb0 by (by apply fits_strip_assignable).
  rewrite set_channel_eq by done. cbn [mbind exc_bind].
  set (r1 := mkT (size s ++ [n]) _).
  assert (channels (size s) n r1) as Hch1.
  { split; [done|]. simpl. by rewrite length_imap. }
  assert (get_channel r1 0 = lerch_blank_channel lam s a epsig 0) as H10.
  { unfold r1. rewrite get_channel_eq by done. cbn [lerch_blank_channel].
    rewrite Hitr. cbn [fmap exc_fmap]. do 2 f_equal.
    rewrite get_put_same; [done|done| |done].
    by apply slice_value_length. }
  assert (is_ok (lerch_blank_channel lam s a epsig 0) = true) as Hok0.
  { cbn [lerch_blank_channel]. by rewrite Hitr. }
  destruct (lerch_blank_loop_spec lam s a epsig n Hl Hs Ha Hew Hlfit Hafit
              Hefit (range 0 blankSamples) r1 0 Hch1 Hn H10 Hok0)
    as (r2 & Hr2 & Hch2 & H20 & Hok2).
  change (1 + Z.of_nat 0)%Z with 1%Z in Hr2. rewrite Hr2.
  cbn [mbind exc_bind].
  assert (length (range 0 blankSamples) = Z.to_nat blankSamples) as Hlen.
  { unfold range. rewrite length_fmap, length_seq. f_equal. lia. }
  rewrite Hlen in *. simpl in H20, Hok2.
  replace (1 + Z.of_nat (0 + Z.to_nat blankSamples))%Z
    with (1 + blankSamples)%Z by lia.
  destruct (lerch_sample_loop_spec lam s a epsig n Hl Hs Ha Hew Hlfit Hafit
              Hefit blankSamples (Z.to_nat (samples - 1)) 0 r2)
    as (r3 & Hr3 & Hch3 & Hrec3 & H30); [lia|done| |].
  { intros j Hj. lia. }
  unfold range at 1. rewrite Hr3. cbn [mbind exc_bind].
  destruct (lerch_blank_channel lam s a epsig (Z.to_nat blankSamples))
    as [c0|] eqn:Hc0; [|discriminate Hok2].
  exists epsig, r3, c0. destruct Hch3 as [Hsh3 Hlen3].
  split; [done|]. split; [done|]. split; [done|]. split.
  { unfold wf. rewrite Hsh3, numel_app. simpl. lia. }
  split; [by rewrite H30, H20|]. split; [done|].
  replace (n - 1) with (0 + Z.to_nat (samples - 1)) by lia. done.
Qed.
End LerchsProps.

(* ================================================================= *)
(** ** zeta.py: a tolerance of zero *)

Lemma Forall_chunks {A} (P : A → Prop) k n (d : list A) :
  Forall P d → Forall (Forall P) (chunks k n d).
Proof.
  revert d. induction n as [|n IH]; intros d Hd; simpl; constructor.
  - by apply Forall_take.
  - apply IH. by apply Forall_drop.
Qed.

(** Broadcasting repeats elements, it makes no new ones. *)
Lemma Forall_expand {A} (P : A → Prop) sh bs (d : list A) :
  Forall P d → Forall P (expand sh bs d).
Proof.
  revert bs d. induction sh as [|n sh IH]; intros [|m bs] d Hd; simpl;
    try done.
  destruct (n =? m).
  - apply Forall_concat, Forall_fmap.
    eapply Forall_impl; [by apply Forall_chunks|]. intros c Hc. by apply IH.
  - apply Forall_concat, Forall_replicate. by apply IH.
Qed.

Lemma Forall_expand_to {A} (P : A → Prop) bs (t : tensor A) :
  Forall P (data t) → Forall P (expand_to bs t).
Proof. apply Forall_expand. Qed.

Section ZeroTolerance.
Import Exact.
Local Open Scope R_scope.

Lemma t_abs_nonneg (x : Tensor R) : Forall (λ v, 0 <= v) (data (t_abs x)).
Proof.
  destruct x as [r|c]; simpl; apply Forall_fmap, Forall_true; intros v;
    simpl.
  - apply Rabs_pos.
  - apply sqrt_pos.
Qed.

Lemma geb_zero_all (xs zs : list R) :
  Forall (λ v, 0 <= v) xs → Forall (λ v, v = 0) zs →
  forallb (λ q, negb (q =? 0)%Z) (of_bool <$> zip_with Rgeb xs zs) = true.
Proof.
  intros Hx. revert zs. induction Hx as [|x xs Hx _ IH]; intros zs Hz;
    [done|].
  destruct Hz as [|z zs -> Hz]; [done|]. simpl.
  rewrite IH by done. unfold Rgeb. by destruct (Rle_dec 0 x).
Qed.

(** Against a tolerance of zero every element keeps going. *)
Lemma ge_mask_zero (x : Tensor R) (z : tensor R) k :
  Forall (λ v, v = 0) (data z) →
  ge_mask x (TReal z) = Ok k → t_all k = true.
Proof.
  intros Hz. unfold ge_mask, tzip.
  destruct (broadcast_shapes _ _) as [bs|]; [|done]. simpl.
  intros [= <-]. unfold t_all. simpl. apply geb_zero_all.
  - apply Forall_expand_to, t_abs_nonneg.
  - apply Forall_expand_to. simpl. apply Forall_fmap.
    eapply Forall_impl; [done|]. simpl. intros v ->. apply Rabs_R0.
Qed.

Lemma zero_tolerance_count (body : zstate R → exc (zstate R))
    (z : tensor R) maxiter fuel st0 st n :
  Forall (λ v, v = 0) (data z) →
  (∀ st st', body st = Ok st' →
     z_idx st' = (z_idx st + 1)%Z
     ∧ ge_mask (z_result st') (TReal z) = Ok (z_keepGoing st')) →
  z_idx st0 = 1%Z →
  ge_mask (z_result st0) (TReal z) = Ok (z_keepGoing st0) →
  while_loop fuel (zeta_cond maxiter) body st0 0 = Some (Ok (st, n)) →
  (maxiter <= 1 + Z.of_nat n)%Z.
Proof.
  intros Hz Hbody Hidx Hmask Hrun.
  destruct (zeta_loop_global_stop body (TReal z) maxiter fuel st0 st n
              Hbody Hidx Hmask Hrun)
    as (stn & _ & Hr & Hi & Hk & Hend & _).
  rewrite Hi in Hend. destruct Hend as [Hall|?]; [|done].
  by rewrite (ge_mask_zero _ _ _ Hz Hk) in Hall.
Qed.

(** X18: a tolerance of zero switches the early stop off.  In exact
    arithmetic, with [aeps] a real tensor of zeros and inputs that
    broadcast, [hzetae] and [lerche] return after exactly [maxiter - 1]
    runs of the loop body, whatever the terms are; for [maxiter <= 1] the
    body never runs. *)
Theorem zeta_loops_zero_tolerance (lam s a res : Tensor R) (z : tensor R)
    (maxiter : Z) (fuel : nat) :
  Forall (λ v, v = 0) (data z) →
  (Z.to_nat (maxiter - 1) ≤ fuel)%nat →
  inputs_fit [lam; s; a; res; TReal z] → wfT res →
  (∃ t, hzetae_run fuel s a res (TReal z) maxiter
        = Some (Ok (t, Z.to_nat (maxiter - 1))))
  ∧ (∃ t, lerche_run fuel lam s a res (TReal z) maxiter
          = Some (Ok (t, Z.to_nat (maxiter - 1)))).
Proof.
  intros Hz Hfuel Hfit Hw. split.
  - assert (inputs_fit [s; a; res; TReal z]) as Hfit'.
    { destruct Hfit as (sh & Hsh). exists sh.
      by apply Forall_cons in Hsh as [_ Hsh]. }
    destruct (hzetae_run_returns s a res (TReal z) maxiter fuel Hfuel Hfit'
                Hw) as (t & n & Hrun).
    destruct (zeta_loops_bounded lam s a res (TReal z) maxiter fuel Hfuel)
      as [(r & Hr & Hn) _].
    rewrite Hrun in Hr. injection Hr as <-.
    specialize (Hn t n eq_refl).
    exists t. rewrite Hrun. do 3 f_equal.
    unfold hzetae_run in Hrun.
    destruct (hzetae_init s a res (TReal z)) as [[epsig st0]|] eqn:Hinit;
      [|done].
    destruct (while_loop _ _ _ _ _) as [[[st k]|]|] eqn:Hloop; [|done..].
    simpl in Hrun. injection Hrun as <- <-.
    apply hzetae_init_idx in Hinit as [Hidx Hk].
    pose proof (zero_tolerance_count _ z maxiter fuel st0 st k Hz
                  (hzetae_body_idx s a epsig (TReal z)) Hidx Hk Hloop).
    lia.
  - destruct (lerche_run_returns lam s a res (TReal z) maxiter fuel Hfuel
                Hfit Hw) as (t & n & Hrun).
    destruct (zeta_loops_bounded lam s a res (TReal z) maxiter fuel Hfuel)
      as [_ (r & Hr & Hn)].
    rewrite Hrun in Hr. injection Hr as <-.
    specialize (Hn t n eq_refl).
    exists t. rewrite Hrun. do 3 f_equal.
    unfold lerche_run in Hrun.
    destruct (lerche_init lam s a res (TReal z)) as [[epsig st0]|] eqn:Hinit;
      [|done].
    destruct (while_loop _ _ _ _ _) as [[[st k]|]|] eqn:Hloop; [|done..].
    simpl in Hrun. injection Hrun as <- <-.
    apply lerche_init_idx in Hinit as [Hidx Hk].
    pose proof (zero_tolerance_count _ z maxiter fuel st0 st k Hz
                  (lerche_body_idx lam s a epsig (TReal z)) Hidx Hk Hloop).
    lia.
Qed.
End ZeroTolerance.

(* ================================================================= *)
(** ** math.py: latticeParams *)

Section Lattice.
Import Exact.
Local Open Scope R_scope.

Lemma Rpow_neg_nat (b : R) (k : nat) :
  0 < b → Rpow b (- (0 + 0 + IZR (Z.of_nat k))) = / b ^ k.
Proof.
  intros Hb. unfold Rpow. destruct (Rlt_dec 0 b); [|done].
  rewrite !Rplus_0_l, <- INR_IZR_INZ, Rpower_Ropp, Rpower_pow by done.
  done.
Qed.

(** X14: in exact arithmetic [latticeParams(dims, basisParam)] of a
    one-element positive basis [b], as the default [phi()] is, holds the
    geometric sequence [1, 1/b, 1/b^2, ...]: [b ^ (-i)] at position [i],
    for [i = 0 .. dims - 1]. *)
Theorem latticeParams_geometric (dims : Z) (b : R) :
  0 < b → (0 <= dims)%Z →
  latticeParams dims (mkT [1%nat] [b])
  = Ok (mkT [Z.to_nat dims] ((λ k, / b ^ k) <$> seq 0 (Z.to_nat dims))).
Proof.
  intros Hb Hd. unfold latticeParams. rewrite xbias_spec by done.
  cbn [mbind exc_bind]. rewrite tmap_mkT.
  rewrite tzip_const_l
    by (rewrite !length_fmap, length_seq; simpl; lia).
  cbn [lift1]. do 2 f_equal. rewrite !fmap_fmap.
  apply list_fmap_ext. intros _ k _.
  cbn [fadd fzero fneg fpow of_Z RNum]. by apply Rpow_neg_nat.
Qed.
End Lattice.

(* ================================================================= *)
(** ** math.py: the complex activations in exact arithmetic *)

Section ComplexActivations.
Import Exact.
Local Open Scope R_scope.

Lemma Rhypot_polar_abs m t : Rhypot (m * cos t) (m * sin t) = Rabs m.
Proof.
  unfold Rhypot. rewrite <- sqrt_Rsqr_abs. f_equal.
  pose proof (sin2_cos2 t) as Hsc. unfold Rsqr in *.
  replace (m * cos t * (m * cos t) + m * sin t * (m * sin t))
    with (m * m * (sin t * sin t + cos t * cos t)) by ring.
  rewrite Hsc. ring.
Qed.

Lemma Rhypot_real r : Rhypot r 0 = Rabs r.
Proof.
  unfold Rhypot. rewrite <- sqrt_Rsqr_abs. f_equal. unfold Rsqr. ring.
Qed.

Lemma Rhypot_scale c x y : 0 <= c → Rhypot (c * x) (c * y) = c * Rhypot x y.
Proof.
  intros Hc. unfold Rhypot.
  replace (c * x * (c * x) + c * y * (c * y))
    with (Rsqr c * (x * x + y * y)) by (unfold Rsqr; ring).
  rewrite sqrt_mult_alt by apply Rle_0_sqr. by rewrite sqrt_Rsqr.
Qed.

Lemma Rhypot_nonneg x y : 0 <= Rhypot x y.
Proof. apply sqrt_pos. Qed.

Lemma Rhypot_pos x y : (x, y) ≠ (0, 0) → 0 < Rhypot x y.
Proof.
  intros Hne. unfold Rhypot. apply sqrt_lt_R0.
  destruct (Req_dec x 0) as [->|Hx].
  - destruct (Req_dec y 0) as [->|Hy]; [done|]. nra.
  - nra.
Qed.

(** The angle of a point of the real axis. *)
Lemma Ratan2_real r : Ratan2 0 r = if Rlt_dec r 0 then PI else 0.
Proof.
  unfold Ratan2.
  destruct (Rlt_dec 0 r), (Rlt_dec r 0); try lra.
  - unfold Rdiv. by rewrite Rmult_0_l, atan_0.
  - destruct (Rle_dec 0 0); [|lra].
    unfold Rdiv. rewrite Rmult_0_l, atan_0. ring.
  - destruct (Rlt_dec 0 0); [lra|done].
Qed.

(** [icos] and [isin] of one element, in polar form. *)
Lemma icos_elem_polar (z : R * R) :
  icos_elem z
  = (cos (cabs z) * cos (2 * cangle z), cos (cabs z) * sin (2 * cangle z)).
Proof.
  unfold icos_elem, cmul, cexp, of_real. cbn [fst snd].
  cbn [fadd fsub fmul fzero fone fexp fcos fsin of_Z RNum].
  set (m := cos (cabs z)). set (θ := cangle z).
  replace ((0 * 2 - 1 * 0) * θ - (0 * 0 + 1 * 2) * 0) with 0 by ring.
  replace ((0 * 2 - 1 * 0) * 0 + (0 * 0 + 1 * 2) * θ) with (2 * θ) by ring.
  rewrite exp_0. f_equal; ring.
Qed.

Lemma isin_elem_polar (z : R * R) :
  isin_elem z = (sin (cabs z) * cos (cangle z), sin (cabs z) * sin (cangle z)).
Proof.
  unfold isin_elem, cmul, cexp, of_real. cbn [fst snd].
  cbn [fadd fsub fmul fzero fone fexp fcos fsin of_Z RNum].
  set (m := sin (cabs z)). set (θ := cangle z).
  replace (0 * θ - 1 * 0) with 0 by ring.
  replace (0 * 0 + 1 * θ) with θ by ring.
  rewrite exp_0. f_equal; ring.
Qed.

Lemma cos_Rabs r : cos (Rabs r) = cos r.
Proof.
  unfold Rabs. destruct (Rcase_abs r); [apply cos_neg|done].
Qed.

Lemma icos_elem_real (r : R) : icos_elem (of_real r) = (cos r, 0).
Proof.
  rewrite icos_elem_polar. unfold cabs, cangle, of_real. cbn [fst snd].
  cbn [fhypot fatan2 fzero RNum].
  rewrite Rhypot_real, cos_Rabs, Ratan2_real.
  destruct (Rlt_dec r 0).
  - rewrite cos_2PI, sin_2PI. f_equal; ring.
  - rewrite Rmult_0_r, cos_0, sin_0. f_equal; ring.
Qed.

Lemma isin_elem_real (r : R) : isin_elem (of_real r) = (sin r, 0).
Proof.
  rewrite isin_elem_polar. unfold cabs, cangle, of_real. cbn [fst snd].
  cbn [fhypot fatan2 fzero RNum].
  rewrite Rhypot_real, Ratan2_real.
  destruct (Rlt_dec r 0).
  - rewrite Rabs_left by done. rewrite sin_neg, cos_PI, sin_PI.
    f_equal; ring.
  - rewrite Rabs_right by lra. rewrite cos_0, sin_0. f_equal; ring.
Qed.

(** X15: on the real axis the complex branches of [icos] and [isin] are
    the real cosine and sine: in exact arithmetic, for a real tensor [x]
    taken as a complex one, [icos] holds [cos(x[k]) + 0j] and [isin]
    holds [sin(x[k]) + 0j] at every position [k], also where [x[k]] is
    negative. *)
Theorem icos_isin_on_real_axis (x : tensor R) :
  wf x →
  icos (TCplx (tmap of_real x))
  = Ok (TCplx (mkT (lift1 (shape x)) ((λ r, (cos r, 0)) <$> data x)))
  ∧ isin (TCplx (tmap of_real x))
    = Ok (TCplx (mkT (lift1 (shape x)) ((λ r, (sin r, 0)) <$> data x))).
Proof.
  destruct x as [sh l]. unfold wf. cbn [shape data]. intros Hl.
  rewrite tmap_mkT.
  rewrite icos_spec_complex, isin_spec_complex by (by rewrite length_fmap).
  rewrite !fmap_fmap. split; do 3 f_equal; apply list_fmap_ext;
    intros _ r _.
  - apply icos_elem_real.
  - apply isin_elem_real.
Qed.

(** X16: the complex [icos] and [isin] are bounded: in exact arithmetic
    the magnitude of [icos(x)] at a position is [|cos(|x[k]|)|], that of
    [isin(x)] is [|sin(|x[k]|)|], so neither exceeds 1 and their squares
    add up to 1. *)
Theorem icos_isin_magnitudes (x : tensor (R * R)) :
  wf x →
  ∃ c s,
    icos (TCplx x) = Ok (TCplx c) ∧ isin (TCplx x) = Ok (TCplx s)
    ∧ ∀ k z, data x !! k = Some z →
        ∃ wc ws, data c !! k = Some wc ∧ data s !! k = Some ws
                 ∧ cabs wc = Rabs (cos (cabs z))
                 ∧ cabs ws = Rabs (sin (cabs z))
                 ∧ cabs wc <= 1 ∧ cabs ws <= 1
                 ∧ cabs wc * cabs wc + cabs ws * cabs ws = 1.
Proof.
  destruct x as [sh l]. unfold wf. cbn [shape data]. intros Hl.
  do 2 eexists. split; [by apply icos_spec_complex|].
  split; [by apply isin_spec_complex|].
  intros k z Hk. cbn [data]. rewrite !list_lookup_fmap, Hk. simpl.
  do 2 eexists. split; [done|]. split; [done|].
  rewrite icos_elem_polar, isin_elem_polar.
  unfold cabs at 1 3 5 6 7 8 9 10. cbn [fst snd fhypot RNum].
  rewrite !Rhypot_polar_abs.
  set (m := cabs z).
  pose proof (COS_bound m) as [? ?]. pose proof (SIN_bound m) as [? ?].
  repeat split; [apply Rabs_le; lra | apply Rabs_le; lra |].
  pose proof (sin2_cos2 m) as Hsc. unfold Rsqr in Hsc.
  assert (∀ v, Rabs v * Rabs v = v * v) as Hsq.
  { intros v. rewrite <- Rabs_mult. apply Rabs_right. nra. }
  rewrite !Hsq. lra.
Qed.

(** *** isigmoid, quadrant by quadrant *)

Lemma Rgeb_false x y : Rgeb x y = false ↔ x < y.
Proof. unfold Rgeb. destruct (Rle_dec y x); split; (done || lra). Qed.

Lemma Rltb_false x y : Rltb x y = false ↔ y <= x.
Proof. unfold Rltb. destruct (Rlt_dec x y); split; (done || lra). Qed.

Lemma isigmoid_elem_first (z : R * R) :
  0 <= z.1 → 0 <= z.2 → z ≠ (0, 0) →
  isigmoid_elem z
  = (Rsigmoid (cabs z) / cabs z * z.1, Rsigmoid (cabs z) / cabs z * z.2).
Proof.
  intros H1 H2 Hne. destruct z as [x y]. cbn [fst snd] in *.
  pose proof (Rhypot_pos x y Hne) as Hm.
  unfold isigmoid_elem. rewrite examineQuad_never.
  unfold cabs, cmul, cdiv, of_real. cbn [fst snd].
  cbn [fadd fsub fmul fdiv fneg fabs fzero fone fhypot fsigmoid fgeb fltb
       of_Z RNum].
  set (m := Rhypot x y) in *.
  rewrite (proj2 (Rgeb_true x 0)), (proj2 (Rgeb_true y 0)) by done.
  rewrite (proj2 (Rltb_false x 0)) by done.
  cbn [andb of_bool]. rewrite !(Rabs_right x), !(Rabs_right y) by lra.
  replace (1 * m) with m by ring.
  apply pair_equal_spec. split; field; lra.
Qed.

Lemma isigmoid_elem_third (z : R * R) :
  z.1 < 0 → z.2 < 0 →
  isigmoid_elem z
  = (Rsigmoid (- cabs z) / cabs z * - z.1,
     Rsigmoid (- cabs z) / cabs z * - z.2).
Proof.
  intros H1 H2. destruct z as [x y]. cbn [fst snd] in *.
  assert ((x, y) ≠ (0, 0)) as Hne by (intros [= -> ->]; lra).
  pose proof (Rhypot_pos x y Hne) as Hm.
  unfold isigmoid_elem. rewrite examineQuad_never.
  unfold cabs, cmul, cdiv, of_real. cbn [fst snd].
  cbn [fadd fsub fmul fdiv fneg fabs fzero fone fhypot fsigmoid fgeb fltb
       of_Z RNum].
  set (m := Rhypot x y) in *.
  rewrite (proj2 (Rgeb_false x 0)) by done.
  rewrite (proj2 (Rltb_true x 0)), (proj2 (Rltb_true y 0)) by done.
  cbn [andb of_bool]. rewrite !(Rabs_left x), !(Rabs_left y) by lra.
  replace (1 * - m) with (- m) by ring.
  apply pair_equal_spec. split; field; lra.
Qed.

Lemma Rsigmoid_range v : 0 < Rsigmoid v < 1.
Proof.
  unfold Rsigmoid. pose proof (exp_pos (- v)) as He.
  split.
  - apply Rdiv_lt_0_compat; lra.
  - unfold Rdiv. rewrite Rmult_1_l. rewrite <- Rinv_1 at 2.
    apply Rinv_lt_contravar; lra.
Qed.

(** X17: [isigmoid] of a complex tensor, quadrant by quadrant, in exact
    arithmetic.  A non-zero element with non-negative parts keeps its
    direction and gets the magnitude [sigmoid(|z|)]; an element with two
    negative parts is reflected through the origin, to [-z / |z|] times
    [sigmoid(-|z|)]; every other element becomes zero.  So no value
    [isigmoid] returns has a negative real or imaginary part, and every
    magnitude is below 1. *)
Theorem isigmoid_by_quadrant (x : tensor (R * R)) :
  wf x →
  ∃ y, isigmoid (TCplx x) = Ok (TCplx y)
       ∧ ∀ k z, data x !! k = Some z → z ≠ (0, 0) →
           ∃ w, data y !! k = Some w
                ∧ (0 <= z.1 → 0 <= z.2 →
                   w = (Rsigmoid (cabs z) / cabs z * z.1,
                        Rsigmoid (cabs z) / cabs z * z.2)
                   ∧ cabs w = Rsigmoid (cabs z))
                ∧ (z.1 < 0 → z.2 < 0 →
                   w = (Rsigmoid (- cabs z) / cabs z * - z.1,
                        Rsigmoid (- cabs z) / cabs z * - z.2)
                   ∧ cabs w = Rsigmoid (- cabs z))
                ∧ ((0 <= z.1 ∧ z.2 < 0) ∨ (z.1 < 0 ∧ 0 <= z.2) →
                   w = (0, 0))
                ∧ 0 <= w.1 ∧ 0 <= w.2 ∧ cabs w < 1.
Proof.
  destruct x as [sh l]. unfold wf. cbn [shape data]. intros Hl.
  eexists. split; [by apply isigmoid_spec_complex|].
  intros k z Hk Hne. cbn [data]. rewrite list_lookup_fmap, Hk. simpl.
  eexists. split; [done|].
  destruct z as [a b]. cbn [fst snd] in *.
  pose proof (Rhypot_pos a b Hne) as Hm.
  change (cabs (a, b)) with (Rhypot a b).
  set (m := Rhypot a b) in *.
  assert (∀ v, 0 <= Rsigmoid v / m) as Hc.
  { intros v. pose proof (Rsigmoid_range v).
    apply Rlt_le, Rdiv_lt_0_compat; [lra|done]. }
  assert (∀ v p q, Rhypot p q = m →
            Rhypot (Rsigmoid v / m * p) (Rsigmoid v / m * q) = Rsigmoid v)
    as Hmag.
  { intros v p q Hpq. rewrite Rhypot_scale, Hpq by apply Hc. field. lra. }
  destruct (Rle_dec 0 a) as [Ha|Ha], (Rle_dec 0 b) as [Hb|Hb].
  - rewrite isigmoid_elem_first by done. cbn [fst snd].
    change (cabs (a, b)) with m.
    rewrite Hmag by done. pose proof (Rsigmoid_range m).
    pose proof (Hc m).
    repeat split; try (intros; lra); nra.
  - rewrite isigmoid_elem_mixed by (cbn [fst snd]; lra).
    cbn [fst snd]. rewrite Rhypot_real, Rabs_R0.
    repeat split; try (intros; lra); try lra.
  - rewrite isigmoid_elem_mixed by (cbn [fst snd]; lra).
    cbn [fst snd]. rewrite Rhypot_real, Rabs_R0.
    repeat split; try (intros; lra); try lra.
  - rewrite isigmoid_elem_third by (cbn [fst snd]; lra). cbn [fst snd].
    change (cabs (a, b)) with m.
    assert (Rhypot (- a) (- b) = m) as Hneg.
    { unfold m, Rhypot. f_equal. ring. }
    rewrite Hmag by done. pose proof (Rsigmoid_range (- m)).
    pose proof (Hc (- m)).
    repeat split; try (intros; lra); nra.
Qed.
End ComplexActivations.

(* ================================================================= *)
(** ** Storage: the remaining functions, and what is returned *)

Module EffMore.
Import Eff EffProps.
Section MoreKernels.
Context {V : Type}.
Variable host_op : string → list Z → list V → exc V.
Variable host_test : string → list Z → list V → bool.
Variable view_get : vstep → V → V.
Variable view_put : vstep → V → V → V.
Variable host_int : string → list Z → list V → Z.

Local Abbreviation M := (@M V).
Local Abbreviation isoftmax := (isoftmax host_op host_test view_get).
Local Abbreviation nsoftmax := (nsoftmax host_op host_test view_get view_put).
Local Abbreviation isigmoid := (isigmoid host_op host_test view_get).
Local Abbreviation icos := (icos host_op host_test view_get).
Local Abbreviation isin := (isin host_op host_test view_get).
Local Abbreviation realprimishdist :=
  (realprimishdist host_op host_test view_get view_put).
Local Abbreviation gaussianprimishdist :=
  (gaussianprimishdist host_op host_test view_get view_put).
Local Abbreviation iprimishdist :=
  (iprimishdist host_op host_test view_get view_put).
Local Abbreviation hzetae := (hzetae host_op host_test view_get).
Local Abbreviation hzetas := (hzetas host_op host_test view_get view_put).
Local Abbreviation lerche := (lerche host_op host_test view_get).
Local Abbreviation lens := (lens host_op host_test view_get).
Local Abbreviation xbias := (xbias host_op view_get view_put).
Local Abbreviation latticeParams :=
  (latticeParams host_op view_get view_put).
Local Abbreviation primishvals :=
  (primishvals host_op host_test view_get view_put host_int).
Local Abbreviation hmean := (hmean host_op host_test view_get).
Local Abbreviation harmonicvals :=
  (harmonicvals host_op view_get view_put).
Local Abbreviation lerchs := (lerchs host_op host_test view_get view_put).
Local Abbreviation lerchs_store :=
  (lerchs_store host_op host_test view_get view_put).

Hint Resolve pi_safe i_safe isoftmax_safe isigmoid_safe
  realprimishdist_safe gaussianprimishdist_safe hzetaitr_safe ge_mask_safe
  blend_safe lerchitr_safe : safe.

Lemma safe_query n name ints args :
  safe n (query view_get host_int name ints args) (λ _, True).
Proof.
  unfold query. eapply safe_bind; [apply safe_read_all|]. intros vs _.
  by apply safe_ret.
Qed.

Lemma safe_returns_fresh (m : M handle) :
  (∀ n, safe n m (fresh n)) → returns_fresh m.
Proof.
  intros Hm σ h Hh. destruct (Hm (length σ) σ) as [_ HQ]; [done|].
  by apply HQ.
Qed.

Lemma safe_fresh_pure (m : M handle) :
  (∀ n, safe n m (fresh n)) → pure_on_store m.
Proof.
  intros Hm. apply (safe_pure _ (λ _, True)). intros n.
  eapply safe_mono; [apply Hm|done].
Qed.

(** *** The remaining functions *)

Lemma xbias_fresh n k bias : safe n (xbias k bias) (fresh n).
Proof.
  unfold Eff.xbias.
  eapply safe_bind; [apply safe_op|]. intros z _.
  eapply safe_bind; [apply safe_op|]. intros composer Hc.
  eapply (safe_bind _ _ _ (λ _, True)).
  { apply (safe_for_each_m _ _ _ (λ _, True)); [|done]. intros j _ _.
    safe_all. }
  intros _ _. by apply safe_ret.
Qed.

Hint Resolve xbias_fresh : safe.

Lemma latticeParams_fresh n dims basisParam :
  safe n (latticeParams dims basisParam) (fresh n).
Proof. unfold Eff.latticeParams. safe_all. Qed.

Lemma primishvals_safe n fuel k base gaussApprox :
  safe n (primishvals fuel k base gaussApprox) (λ _, True).
Proof.
  unfold Eff.primishvals.
  eapply safe_bind; [apply safe_test|]. intros short _.
  eapply (safe_bind _ _ _ (λ _, True)).
  { destruct short; [|by apply safe_ret]. safe_all. }
  intros base' _.
  eapply safe_bind; [apply safe_test|]. intros enough _.
  destruct enough; [eapply safe_mono; [apply safe_view_of|done]|].
  eapply safe_bind; [apply safe_op|]. intros z Hz.
  eapply safe_bind; [by apply safe_view_of_fresh|]. intros result Hr.
  eapply safe_bind; [apply safe_query|]. intros blen _.
  eapply safe_bind; [by apply safe_view_of_fresh|]. intros target Ht.
  eapply safe_bind; [by apply safe_inplace|]. intros _ _.
  eapply (safe_bind _ _ _ (λ _, True)); [|intros; by apply safe_ret].
  apply (safe_while_m _ _ _ _ (λ _, True)); [| |done].
  - intros st. by apply safe_ret.
  - intros [itr pitr] _. cbv zeta. cbn [fst snd].
    eapply safe_bind; [by apply safe_view_of_fresh|]. intros tg Htg.
    eapply (safe_bind _ _ _ (λ _, True)); [|intros; by apply safe_ret].
    destruct (negb _); [destruct gaussApprox; by apply safe_inplace|].
    safe_all.
Qed.

Lemma hmean_fresh n x dim : safe n (hmean x dim) (fresh n).
Proof. unfold Eff.hmean. safe_all. Qed.

Lemma harmonicvals_fresh n k nosum addzero :
  safe n (harmonicvals k nosum addzero) (fresh n).
Proof. unfold Eff.harmonicvals. cbv zeta. safe_all. Qed.

Lemma lerchs_store_safe n lam s a epsig k j j' result :
  fresh n result →
  safe n (lerchs_store lam s a epsig k j j' result) (λ _, True).
Proof. intros Hr. unfold Eff.lerchs_store. safe_all. Qed.

Lemma lerchs_fresh n lam s a res blankSamples samples fftloss :
  safe n (lerchs lam s a res blankSamples samples fftloss) (fresh n).
Proof.
  unfold Eff.lerchs.
  eapply safe_bind; [apply safe_view_of|]. intros us _.
  eapply safe_bind; [apply safe_op|]. intros z _.
  eapply safe_bind; [apply safe_op|]. intros mm Hmm.
  eapply safe_bind; [by apply safe_convert_fresh|]. intros result Hr.
  eapply safe_bind; [apply isigmoid_safe|]. intros epsig _.
  eapply safe_bind; [apply lerchitr_safe|]. intros first _.
  eapply safe_bind; [by apply safe_view_of_fresh|]. intros target Ht.
  eapply safe_bind; [by apply safe_inplace|]. intros _ _.
  eapply (safe_bind _ _ _ (λ _, True)).
  { apply (safe_for_each_m _ _ _ (λ _, True)); [|done]. intros _ idx _.
    eapply safe_bind; [by apply lerchs_store_safe|]. intros _ _.
    by apply safe_ret. }
  intros idx _.
  eapply (safe_bind _ _ _ (λ _, True)).
  { apply (safe_for_each_m _ _ _ (λ _, True)); [|done]. intros jdx _ _.
    by apply lerchs_store_safe. }
  intros _ _. destruct fftloss; [apply safe_helper|by apply safe_ret].
Qed.

(** *** What the transforms return *)

Lemma isoftmax_fresh n x dim : safe n (isoftmax x dim) (fresh n).
Proof. unfold Eff.isoftmax. safe_all. Qed.

Lemma nsoftmax_fresh n x dims : safe n (nsoftmax x dims) (fresh n).
Proof.
  unfold Eff.nsoftmax.
  eapply safe_bind; [apply safe_op|]. intros result Hr.
  eapply safe_bind; [apply safe_raise_if|]. intros _ _.
  eapply (safe_bind _ _ _ (λ _, True)); [|intros; by apply safe_ret].
  apply (safe_for_each_m _ _ _ (λ _, True)); [|done].
  intros dim _ _. safe_all.
Qed.

Lemma isigmoid_fresh n x : safe n (isigmoid x) (fresh n).
Proof. unfold Eff.isigmoid. cbv zeta. safe_all. Qed.

Lemma icos_fresh n x : safe n (icos x) (fresh n).
Proof. unfold Eff.icos. safe_all. Qed.

Lemma isin_fresh n x : safe n (isin x) (fresh n).
Proof. unfold Eff.isin. safe_all. Qed.

Lemma realprimishdist_fresh n x relative gaussApprox :
  safe n (realprimishdist x relative gaussApprox) (fresh n).
Proof.
  unfold Eff.realprimishdist. cbv zeta.
  destruct gaussApprox; cbv beta iota; safe_all.
Qed.

Lemma gaussianprimishdist_fresh n x relative :
  safe n (gaussianprimishdist x relative) (fresh n).
Proof.
  unfold Eff.gaussianprimishdist. cbv zeta.
  eapply safe_bind; [apply safe_test|]. intros c _.
  eapply (safe_bind _ _ _ (λ _, True)).
  { destruct c; simpl; [by apply safe_ret|].
    eapply safe_mono; [apply toComplex_safe|done]. }
  intros x' _. safe_all.
Qed.

Lemma iprimishdist_fresh n x relative :
  safe n (iprimishdist x relative) (fresh n).
Proof.
  unfold Eff.iprimishdist.
  eapply safe_bind; [apply safe_test|]. intros c _.
  destruct c; [apply gaussianprimishdist_fresh|apply realprimishdist_fresh].
Qed.

Lemma zeta_loop_fresh n fuel maxiter body st :
  (∀ st, fresh n (z_result st) →
         safe n (body st) (λ st', fresh n (z_result st'))) →
  fresh n (z_result st) →
  safe n (while_m fuel (zeta_cond host_test view_get maxiter) body st
            ≫= λ st', mret (z_result st'))
    (fresh n).
Proof.
  intros Hbody Hst.
  eapply safe_bind; [|intros st' Hst'; apply safe_ret, Hst'].
  apply (safe_while_m _ _ _ _ (λ st, fresh n (z_result st))); [|done..].
  apply zeta_cond_safe.
Qed.

Lemma hzetae_fresh n fuel s a res aeps maxiter :
  safe n (hzetae fuel s a res aeps maxiter) (fresh n).
Proof.
  unfold Eff.hzetae.
  eapply safe_bind; [apply isigmoid_safe|]. intros epsig _.
  eapply safe_bind; [apply hzetaitr_safe|]. intros delta _.
  eapply safe_bind; [apply safe_op|]. intros ol _.
  eapply safe_bind; [apply safe_op|]. intros result Hr.
  eapply safe_bind; [apply ge_mask_safe|]. intros keepGoing _.
  apply zeta_loop_fresh; [|done]. intros st Hst. safe_all.
Qed.

Lemma lerche_fresh n fuel lam s a res aeps maxiter :
  safe n (lerche fuel lam s a res aeps maxiter) (fresh n).
Proof.
  unfold Eff.lerche.
  eapply safe_bind; [apply isigmoid_safe|]. intros epsig _.
  eapply safe_bind; [apply lerchitr_safe|]. intros delta _.
  eapply safe_bind; [apply safe_op|]. intros ol _.
  eapply safe_bind; [apply safe_op|]. intros result Hr.
  eapply safe_bind; [apply ge_mask_safe|]. intros keepGoing _.
  apply zeta_loop_fresh; [|done]. intros st Hst. safe_all.
Qed.

Lemma hzetas_fresh n s a res blankSamples samples fftformat :
  safe n (hzetas s a res blankSamples samples fftformat) (fresh n).
Proof.
  unfold Eff.hzetas.
  eapply safe_bind; [apply safe_view_of|]. intros us _.
  eapply safe_bind; [apply safe_op|]. intros z _.
  eapply safe_bind; [apply safe_op|]. intros mm Hmm.
  eapply safe_bind; [by apply safe_convert_fresh|]. intros result Hr.
  eapply safe_bind; [apply isigmoid_safe|]. intros epsig _.
  eapply safe_bind; [apply hzetaitr_safe|]. intros first _.
  eapply safe_bind; [by apply safe_view_of_fresh|]. intros target Ht.
  eapply safe_bind; [by apply safe_inplace|]. intros _ _.
  eapply (safe_bind _ _ _ (λ _, True)).
  { apply (safe_for_each_m _ _ _ (λ _, True)); [|done]. intros _ idx _.
    eapply safe_bind; [by apply hzetas_store_safe|]. intros _ _.
    by apply safe_ret. }
  intros idx _.
  eapply (safe_bind _ _ _ (λ _, True)).
  { apply (safe_for_each_m _ _ _ (λ _, True)); [|done]. intros jdx _ _.
    by apply hzetas_store_safe. }
  intros _ _. destruct fftformat; [apply safe_helper|by apply safe_ret].
Qed.

Lemma lens_fresh n x l padding dim :
  safe n (lens x l padding dim) (fresh n).
Proof. unfold Eff.lens. safe_all. Qed.

Lemma primishvals_alias n fuel k base gaussApprox :
  safe n (primishvals fuel k base gaussApprox)
    (λ h, sid h = sid base ∨ fresh n h).
Proof.
  unfold Eff.primishvals.
  eapply safe_bind; [apply safe_test|]. intros short _.
  eapply (safe_bind _ _ _ (λ h, sid h = sid base ∨ fresh n h)).
  { destruct short; [|apply safe_ret; by left].
    eapply safe_mono; [|intros h Hh; right; exact Hh]. safe_all. }
  intros base' Hb.
  eapply safe_bind; [apply safe_test|]. intros enough _.
  destruct enough.
  { eapply safe_mono; [apply safe_view_of|]. intros h Hh.
    unfold fresh in *. rewrite Hh. exact Hb. }
  eapply safe_bind; [apply safe_op|]. intros z Hz.
  eapply safe_bind; [by apply safe_view_of_fresh|]. intros result Hr.
  eapply safe_bind; [apply safe_query|]. intros blen _.
  eapply safe_bind; [by apply safe_view_of_fresh|]. intros target Ht.
  eapply safe_bind; [by apply safe_inplace|]. intros _ _.
  eapply (safe_bind _ _ _ (λ _, True)); [|intros; apply safe_ret; by right].
  apply (safe_while_m _ _ _ _ (λ _, True)); [| |done].
  - intros st. by apply safe_ret.
  - intros [itr pitr] _. cbv zeta. cbn [fst snd].
    eapply safe_bind; [by apply safe_view_of_fresh|]. intros tg Htg.
    eapply (safe_bind _ _ _ (λ _, True)); [|intros; by apply safe_ret].
    destruct (negb _); [destruct gaussApprox; by apply safe_inplace|].
    safe_all.
Qed.

(** X20: the builders of [math.py] and the sampled [lerchs] write no
    storage of their caller either: whatever the host
    operations compute, every storage that exists before a call of
    [xbias], [latticeParams], [primishvals], [hmean], [harmonicvals] or
    [lerchs] holds the same contents after it.  The element updates of
    [xbias] and [primishvals], the [unsqueeze_] of [harmonicvals] and the
    channel assignments of [lerchs] go to storage the function allocated
    itself. *)
Theorem builders_do_not_write_their_inputs
    (base basisParam x lam s a res : handle)
    (n bias dims dim blankSamples samples : Z) (fuel : nat)
    (nosum addzero gaussApprox fftloss : bool) :
  pure_on_store (xbias n bias)
  ∧ pure_on_store (latticeParams dims basisParam)
  ∧ pure_on_store (primishvals fuel n base gaussApprox)
  ∧ pure_on_store (hmean x dim)
  ∧ pure_on_store (harmonicvals n nosum addzero)
  ∧ pure_on_store (lerchs lam s a res blankSamples samples fftloss).
Proof.
  repeat split.
  - apply safe_fresh_pure. intros k. apply xbias_fresh.
  - apply safe_fresh_pure. intros k. apply latticeParams_fresh.
  - eapply safe_pure. intros k. apply primishvals_safe.
  - apply safe_fresh_pure. intros k. apply hmean_fresh.
  - apply safe_fresh_pure. intros k. apply harmonicvals_fresh.
  - apply safe_fresh_pure. intros k. apply lerchs_fresh.
Qed.

(** X21: what a function returns shares no storage with a tensor its
    caller held before the call: the result of [isoftmax], [nsoftmax],
    [isigmoid], [icos], [isin], [iprimishdist], [hzetae], [hzetas],
    [lerche], [lerchs], [lens], [xbias], [latticeParams], [hmean] and
    [harmonicvals] lives on a storage allocated during the call, also
    where the function returns a view or an unconverted tensor.  The one
    exception is [primishvals], whose result is on new storage or on the
    storage of [base]. *)
Theorem results_are_on_new_storage
    (base basisParam x l lam s a res aeps : handle)
    (n bias dims dim padding maxiter blankSamples samples : Z)
    (dimlist : list Z) (fuel : nat)
    (relative nosum addzero gaussApprox fftformat : bool) :
  returns_fresh (isoftmax x dim)
  ∧ returns_fresh (nsoftmax x dimlist)
  ∧ returns_fresh (isigmoid x)
  ∧ returns_fresh (icos x)
  ∧ returns_fresh (isin x)
  ∧ returns_fresh (iprimishdist x relative)
  ∧ returns_fresh (hzetae fuel s a res aeps maxiter)
  ∧ returns_fresh (hzetas s a res blankSamples samples fftformat)
  ∧ returns_fresh (lerche fuel lam s a res aeps maxiter)
  ∧ returns_fresh (lerchs lam s a res blankSamples samples fftformat)
  ∧ returns_fresh (lens x l padding dim)
  ∧ returns_fresh (xbias n bias)
  ∧ returns_fresh (latticeParams dims basisParam)
  ∧ returns_fresh (hmean x dim)
  ∧ returns_fresh (harmonicvals n nosum addzero)
  ∧ (∀ σ h, (primishvals fuel n base gaussApprox σ).1 = Some (Ok h) →
            sid h = sid base ∨ (length σ ≤ sid h)%nat).
Proof.
  repeat split; try (apply safe_returns_fresh; intros k).
  - apply isoftmax_fresh.
  - apply nsoftmax_fresh.
  - apply isigmoid_fresh.
  - apply icos_fresh.
  - apply isin_fresh.
  - apply iprimishdist_fresh.
  - apply hzetae_fresh.
  - apply hzetas_fresh.
  - apply lerche_fresh.
  - apply lerchs_fresh.
  - apply lens_fresh.
  - apply xbias_fresh.
  - apply latticeParams_fresh.
  - apply hmean_fresh.
  - apply harmonicvals_fresh.
  - intros σ h Hh.
    destruct (primishvals_alias (length σ) fuel n base gaussApprox σ)
      as [_ HQ]; [done|].
    by apply HQ.
Qed.


End MoreKernels.
End EffMore.

Import Exact.

(* ================================================================= *)
(** ** The added statements on sample inputs *)

Section OnMoreSamples.
Import Samples MoreSamples.
Local Open Scope R_scope.

(** Ten values from the empty default base. *)
Lemma primishvals_length_ten :
  shape no_base = [length (data no_base)] ∧ (10 < 2 ^ 63)%Z
  ∧ (Z.to_nat 10 ≤ 10)%nat
  ∧ ∃ r, primishvals 10 10 no_base false = Some (Ok r)
         ∧ shape r = [length (data r)]
         ∧ length (data r)
           = if (10 <? 0)%Z
             then Z.to_nat (Z.of_nat (Nat.max 3 (length (data no_base))) + 10)
             else Z.to_nat 10.
Proof.
  assert (shape no_base = [length (data no_base)]) as Hsh by reflexivity.
  assert (10 < 2 ^ 63)%Z as Hn by lia.
  assert (Z.to_nat 10 ≤ 10)%nat as Hf by lia.
  exact (conj Hsh (conj Hn (conj Hf
           (primishvals_length 10 10 no_base false Hsh Hn Hf)))).
Defined.

(** Six values from the base [[2, 3, 5, 7]]. *)
Lemma primishvals_extends_base_2357 :
  shape base2357 = [length (data base2357)] ∧ (0 <= 6 < 2 ^ 63)%Z
  ∧ (Z.to_nat 6 ≤ 6)%nat
  ∧ ∃ r, primishvals 6 6 base2357 false = Some (Ok r)
         ∧ let eb := if (length (data base2357) <? 3)%nat then [1; 2; 3]%Z
                     else data base2357 in
           take (length eb) (data r) = take (Z.to_nat 6) eb.
Proof.
  assert (shape base2357 = [length (data base2357)]) as Hsh by reflexivity.
  assert (0 <= 6 < 2 ^ 63)%Z as Hn by lia.
  assert (Z.to_nat 6 ≤ 6)%nat as Hf by lia.
  exact (conj Hsh (conj Hn (conj Hf
           (primishvals_extends_base 6 6 base2357 false Hsh Hn Hf)))).
Defined.

(** Ten values of the Gaussian approximation. *)
Lemma primishvals_closed_form_ten :
  shape no_base = [length (data no_base)]
  ∧ (length (data no_base) < 3)%nat ∧ (0 <= 10 <= 2 ^ 53)%Z
  ∧ (Z.to_nat 10 ≤ 10)%nat
  ∧ ∃ r, primishvals 10 10 no_base true = Some (Ok r)
         ∧ take 3 (data r) = take (Z.to_nat 10) [1; 2; 3]%Z
         ∧ ∀ j, (3 ≤ j < Z.to_nat 10)%nat →
             data r !! j
             = Some (let k := ((Z.of_nat j - 1) / 2)%Z in
                     if Z.odd (Z.of_nat j)
                     then (if true then 4 * k + 1 else 6 * k - 1)
                     else (if true then 4 * k + 3 else 6 * k + 1))%Z.
Proof.
  assert (shape no_base = [length (data no_base)]) as Hsh by reflexivity.
  assert (length (data no_base) < 3)%nat as Hb by (simpl; lia).
  assert (0 <= 10 <= 2 ^ 53)%Z as Hn by lia.
  assert (Z.to_nat 10 ≤ 10)%nat as Hf by lia.
  exact (conj Hsh (conj Hb (conj Hn (conj Hf
           (primishvals_closed_form 10 10 no_base true Hsh Hb Hn Hf))))).
Defined.

Lemma primishvals_contains_primes_ten :
  shape no_base = [length (data no_base)]
  ∧ (length (data no_base) < 3)%nat ∧ (0 <= 10 <= 2 ^ 53)%Z
  ∧ (Z.to_nat 10 ≤ 10)%nat
  ∧ ∃ r, primishvals 10 10 no_base false = Some (Ok r)
         ∧ ∀ p v, Z.prime p → last (data r) = Some v → (p <= v)%Z →
             p ∈ data r.
Proof.
  assert (shape no_base = [length (data no_base)]) as Hsh by reflexivity.
  assert (length (data no_base) < 3)%nat as Hb by (simpl; lia).
  assert (0 <= 10 <= 2 ^ 53)%Z as Hn by lia.
  assert (Z.to_nat 10 ≤ 10)%nat as Hf by lia.
  exact (conj Hsh (conj Hb (conj Hn (conj Hf
           (primishvals_contains_primes 10 10 no_base false Hsh Hb Hn
              Hf))))).
Defined.

Lemma harmonicvals_all_ones_four :
  (1 <= 4)%Z
  ∧ harmonicvals (F := R) 4 false false
    = Ok (mkT [Z.to_nat 4] (replicate (Z.to_nat 4) 1)).
Proof.
  assert (1 <= 4)%Z as Hn by lia.
  exact (conj Hn (harmonicvals_all_ones 4 Hn)).
Defined.

(** The harmonic mean of [[1., 2.]] lies between 1 and 2. *)
Lemma hmean_between_12 :
  wf pair12 ∧ py_index (length (shape pair12)) (-1) = Ok 0%nat
  ∧ (0 < nth 0 (shape pair12) 0)%nat ∧ 0 < 1
  ∧ Forall (λ v, 1 <= v <= 2) (data pair12)
  ∧ ∃ y, hmean (TReal pair12) (-1) = Ok (TReal y)
         ∧ Forall (λ v, 1 <= v <= 2) (data y).
Proof.
  assert (wf pair12) as Hwf by reflexivity.
  assert (py_index (length (shape pair12)) (-1) = Ok 0%nat) as Hpy
    by reflexivity.
  assert (0 < nth 0 (shape pair12) 0)%nat as Hn by (simpl; lia).
  assert (0 < 1) as Hlo by lra.
  assert (Forall (λ v, 1 <= v <= 2) (data pair12)) as Hx
    by (repeat constructor; lra).
  exact (conj Hwf (conj Hpy (conj Hn (conj Hlo (conj Hx
           (hmean_between pair12 (-1) 0 1 2 Hwf Hpy Hn Hlo Hx)))))).
Defined.

Lemma isoftmax_dims_axes :
  wfT (TCplx axes)
  ∧ (((- Z.of_nat (Nat.max (length (size (TCplx axes))) 1) <= 0
       < Z.of_nat (Nat.max (length (size (TCplx axes))) 1))%Z →
      ∃ y, isoftmax (TCplx axes) 0 = Ok y ∧ size y = size (TCplx axes)
           ∧ is_complex y = is_complex (TCplx axes) ∧ wfT y)
     ∧ (¬ (- Z.of_nat (Nat.max (length (size (TCplx axes))) 1) <= 0
           < Z.of_nat (Nat.max (length (size (TCplx axes))) 1))%Z →
        isoftmax (TCplx axes) 0 = Err DimOutOfRange)).
Proof.
  assert (wfT (TCplx axes)) as Hwf by reflexivity.
  exact (conj Hwf (isoftmax_dims (TCplx axes) 0 Hwf)).
Defined.

(** A 0-dim complex tensor comes back with one dimension. *)
Lemma activations_sizes_scalar :
  wfT (TCplx (scalar (1, 1)))
  ∧ ∃ c s g,
      icos (TCplx (scalar (1, 1))) = Ok c
      ∧ isin (TCplx (scalar (1, 1))) = Ok s
      ∧ isigmoid (TCplx (scalar (1, 1))) = Ok g
      ∧ size c = [1%nat] ∧ size s = [1%nat] ∧ size g = [1%nat]
      ∧ is_complex c = true ∧ is_complex s = true ∧ is_complex g = true
      ∧ wfT c ∧ wfT s ∧ wfT g.
Proof.
  assert (wfT (TCplx (scalar (1, 1)))) as Hwf by reflexivity.
  exact (conj Hwf (activations_sizes (TCplx (scalar (1, 1))) Hwf)).
Defined.
End OnMoreSamples.

(* ================================================================= *)
(** ** The statements on a sample store *)

Section OnStores.
Import Samples MoreSamples.

End OnStores.

Import Exact.

(* ================================================================= *)
(** ** The statements of the last sections on sample inputs *)

Section OnLastSamples.
Import Samples MoreSamples.
Local Open Scope R_scope.

(** Three samples after two blank steps, with a 0-dim [lam] and [res]. *)
Lemma lerchs_recurrence_vec :
  wfT (num 1) ∧ wfT vec12 ∧ wfT vec11 ∧ wfT (num 0)
  ∧ fits (size vec12) (size (num 1)) ∧ fits (size vec12) (size vec11)
  ∧ fits (size vec12) (size (num 0))
  ∧ (1 <= 3)%Z ∧ (0 <= 2)%Z
  ∧ ∃ epsig result c0,
      isigmoid (num 0) = Ok epsig
      ∧ lerchs Ok (num 1) vec12 vec11 (num 0) 2 3 false = Ok (TCplx result)
      ∧ shape result = size vec12 ++ [Z.to_nat 3]
      ∧ wf result
      ∧ get_channel result 0 = Ok c0
      ∧ lerch_blank_channel (num 1) vec12 vec11 epsig (Z.to_nat 2) = Ok c0
      ∧ lerch_recurrence_upto (num 1) vec12 vec11 epsig 2 (Z.to_nat 3 - 1)
          result.
Proof.
  assert (fits (size vec12) (size (num 1))) as Hl
    by (right; right; left; reflexivity).
  assert (fits (size vec12) (size vec11)) as Ha by (left; reflexivity).
  assert (fits (size vec12) (size (num 0))) as Hr
    by (right; right; left; reflexivity).
  assert (1 <= 3)%Z as Hs by lia.
  assert (0 <= 2)%Z as Hb by lia.
  repeat (split; [first [reflexivity | assumption]|]).
  exact (lerchs_recurrence Ok (num 1) vec12 vec11 (num 0) 2 3
           eq_refl eq_refl eq_refl eq_refl Hl Ha Hr Hs Hb).
Defined.

(** Three iterations allowed, a tolerance of [torch.tensor(0.)]. *)
Lemma zeta_loops_zero_tolerance_nums :
  Forall (λ v, v = 0) (data (scalar 0))
  ∧ (Z.to_nat (3 - 1) ≤ 2)%nat
  ∧ inputs_fit [num 1; vec12; vec11; num 0; TReal (scalar 0)]
  ∧ wfT (num 0)
  ∧ (∃ t, hzetae_run 2 vec12 vec11 (num 0) (TReal (scalar 0)) 3
          = Some (Ok (t, Z.to_nat (3 - 1))))
  ∧ (∃ t, lerche_run 2 (num 1) vec12 vec11 (num 0) (TReal (scalar 0)) 3
          = Some (Ok (t, Z.to_nat (3 - 1)))).
Proof.
  assert (Forall (λ v : R, v = 0) (data (scalar 0))) as Hz
    by (repeat constructor).
  assert (Z.to_nat (3 - 1) ≤ 2)%nat as Hf by (simpl; lia).
  assert (inputs_fit [num 1; vec12; vec11; num 0; TReal (scalar 0)]) as Hi.
  { exists [2%nat]. repeat constructor;
      first [left; reflexivity | right; right; left; reflexivity]. }
  assert (wfT (num 0)) as Hw by reflexivity.
  exact (conj Hz (conj Hf (conj Hi (conj Hw
           (zeta_loops_zero_tolerance (num 1) vec12 vec11 (num 0) (scalar 0)
              3 2 Hz Hf Hi Hw))))).
Defined.

(** Three parameters of the basis 2. *)
Lemma latticeParams_geometric_two :
  0 < 2 ∧ (0 <= 3)%Z
  ∧ latticeParams 3 (mkT [1%nat] [2])
    = Ok (mkT [Z.to_nat 3] ((λ k, / 2 ^ k) <$> seq 0 (Z.to_nat 3))).
Proof.
  assert (0 < 2) as Hb by lra.
  assert (0 <= 3)%Z as Hd by lia.
  exact (conj Hb (conj Hd (latticeParams_geometric 3 2 Hb Hd))).
Defined.

(** [[1., 2.]] as a complex tensor. *)
Lemma icos_isin_on_real_axis_12 :
  wf pair12
  ∧ icos (TCplx (tmap of_real pair12))
    = Ok (TCplx (mkT (lift1 (shape pair12))
                   ((λ r, (cos r, 0)) <$> data pair12)))
  ∧ isin (TCplx (tmap of_real pair12))
    = Ok (TCplx (mkT (lift1 (shape pair12))
                   ((λ r, (sin r, 0)) <$> data pair12))).
Proof.
  assert (wf pair12) as Hw by reflexivity.
  exact (conj Hw (icos_isin_on_real_axis pair12 Hw)).
Defined.

(** [[1+0j, 0+1j]] *)
Lemma icos_isin_magnitudes_axes :
  wf axes
  ∧ ∃ c s,
      icos (TCplx axes) = Ok (TCplx c) ∧ isin (TCplx axes) = Ok (TCplx s)
      ∧ ∀ k z, data axes !! k = Some z →
          ∃ wc ws, data c !! k = Some wc ∧ data s !! k = Some ws
                   ∧ cabs wc = Rabs (cos (cabs z))
                   ∧ cabs ws = Rabs (sin (cabs z))
                   ∧ cabs wc <= 1 ∧ cabs ws <= 1
                   ∧ cabs wc * cabs wc + cabs ws * cabs ws = 1.
Proof.
  assert (wf axes) as Hw by reflexivity.
  exact (conj Hw (icos_isin_magnitudes axes Hw)).
Defined.

(** [[1-1j, -1+1j]] *)
Lemma isigmoid_by_quadrant_mixed :
  wf mixed
  ∧ ∃ y, isigmoid (TCplx mixed) = Ok (TCplx y)
         ∧ ∀ k z, data mixed !! k = Some z → z ≠ (0, 0) →
             ∃ w, data y !! k = Some w
                  ∧ (0 <= z.1 → 0 <= z.2 →
                     w = (Rsigmoid (cabs z) / cabs z * z.1,
                          Rsigmoid (cabs z) / cabs z * z.2)
                     ∧ cabs w = Rsigmoid (cabs z))
                  ∧ (z.1 < 0 → z.2 < 0 →
                     w = (Rsigmoid (- cabs z) / cabs z * - z.1,
                          Rsigmoid (- cabs z) / cabs z * - z.2)
                     ∧ cabs w = Rsigmoid (- cabs z))
                  ∧ ((0 <= z.1 ∧ z.2 < 0) ∨ (z.1 < 0 ∧ 0 <= z.2) →
                     w = (0, 0))
                  ∧ 0 <= w.1 ∧ 0 <= w.2 ∧ cabs w < 1.
Proof.
  assert (wf mixed) as Hw by reflexivity.
  exact (conj Hw (isigmoid_by_quadrant mixed Hw)).
Defined.
End OnLastSamples.
